(** * Ring settlement simulator (protocol2-js): shallow embedding

    The development follows [src/balance_book.ts], [src/protocol_simulator.ts]
    and [src/ring.ts].

    Conventions of the embedding.
    - A [BigNumber] holding an integer is a [Z]; [plus], [minus], [times] are
      the ring operations and [dividedToIntegerBy] truncates toward zero
      ([Z.quot]).  Dividing by zero makes bignumber.js produce [NaN] or an
      infinity; such a run leaves the integer model and is reported as
      [Throw NotFinite].
    - The amounts of an order ([amountS], [amountB], [feeAmount]) are
      JavaScript numbers.  They become a [BigNumber] through
      [new BigNumber(n)] or as the argument of a [BigNumber] method, and
      bignumber.js raises when such a number has more than 15 significant
      digits: [bigNumber] and [Throw BigNumberError].  The percentages of an
      order, [feePercentageBase] and the burn rates are small integers, which
      always convert.
    - A failed [assert] and a property access on [undefined] end the run:
      [Throw (AssertionError msg)] and [Throw TypeError].
    - A numeric field that is assigned [undefined] cannot be held by the
      records below: a run that does so without raising is reported as
      [Throw UndefinedValue].
    - JavaScript objects that are shared and mutated (orders, spendables) live
      in a store and are referred to by index, so aliasing is kept.
    - [async]/[await] is sequential here: every awaited call is a read of the
      chain snapshot carried by [Context]. *)

From Stdlib Require Import ZArith Lia.
From stdpp Require Import base list strings.

Local Open Scope Z_scope.

(** ** Outcomes of a run *)

Inductive error : Type :=
  | AssertionError (msg : string)
  | TypeError
  | NotFinite
  | BigNumberError
  | UndefinedValue.

Inductive result (A : Type) : Type :=
  | Ok (a : A)
  | Throw (e : error).
Arguments Ok {A} a.
Arguments Throw {A} e.

#[global] Instance result_ret : MRet result := λ A a, Ok a.
#[global] Instance result_bind : MBind result :=
  λ A B f m, match m with Ok a => f a | Throw e => Throw e end.

Definition assert (cond : bool) (msg : string) : result unit :=
  if cond then Ok tt else Throw (AssertionError msg).

(** [xs[i]] followed by a property access: [undefined] raises. *)
Definition deref {A} (xs : list A) (i : nat) : result A :=
  match xs !! i with
  | Some a => Ok a
  | None => Throw TypeError
  end.

(** [x.dividedToIntegerBy(y)] *)
Definition dividedToIntegerBy (x y : Z) : result Z :=
  if decide (y = 0) then Throw NotFinite else Ok (Z.quot x y).

(** [Number.MAX_SAFE_INTEGER] *)
Definition MAX_SAFE_INTEGER : Z := 2 ^ 53 - 1.

(** A positive integer without its trailing decimal zeros. *)
Fixpoint stripZeros (fuel : nat) (n : Z) : Z :=
  match fuel with
  | O => n
  | S fuel =>
      if (n `mod` 10 =? 0) && negb (n =? 0) then stripZeros fuel (n `div` 10)
      else n
  end.

(** The significant decimal digits of [n], read as a number: [|n|] without
    trailing zeros. *)
Definition significand (n : Z) : Z :=
  stripZeros (S (Z.to_nat (Z.log2 (Z.abs n)))) (Z.abs n).

(** The test of the [BigNumber] constructor on a number: more than 15
    significant digits, and not a safe integer. *)
Definition tooManyDigits (n : Z) : bool :=
  (10 ^ 15 <=? significand n) && (MAX_SAFE_INTEGER <? Z.abs n).

(** [new BigNumber(n)] for a JavaScript number [n] that holds an integer; the
    methods of a [BigNumber] convert a number argument in the same way
    (["number type has more than 15 significant digits"]).  [n] stands for
    the decimal digits the constructor reads of the number. *)
Definition bigNumber (n : Z) : result Z :=
  if tooManyDigits n then Throw BigNumberError else Ok n.

(** Monadic left fold: a [for ... of] loop whose body may raise. *)
Fixpoint foldM {S X} (body : S → X → result S) (xs : list X) (s : S) : result S :=
  match xs with
  | [] => Ok s
  | x :: xs' => s' ← body s x; foldM body xs' s'
  end.

(** Modelled from the spec: [ensure] of [src/ensure.ts], which the sources do
    not include.  Every use has the shape [valid = valid && ensure(c, msg)]:
    the condition is handed back (the message is only logged). *)
Definition ensure (cond : bool) (msg : string) : bool := cond.

(** ** JavaScript objects used as string-keyed maps

    [Object.keys] lists string keys in insertion order (the keys here are
    [0x]-prefixed addresses, never array indices); assigning to a key that
    exists keeps its position. *)

Section JsObject.
Context {V : Type}.

Fixpoint obj_get (o : list (string * V)) (k : string) : option V :=
  match o with
  | [] => None
  | (k', v) :: o' => if decide (k' = k) then Some v else obj_get o' k
  end.

Fixpoint obj_set (o : list (string * V)) (k : string) (v : V) : list (string * V) :=
  match o with
  | [] => [(k, v)]
  | (k', v') :: o' =>
      if decide (k' = k) then (k, v) :: o' else (k', v') :: obj_set o' k v
  end.

Definition obj_keys (o : list (string * V)) : list string := map fst o.

End JsObject.

(** ** BalanceBook ([src/balance_book.ts]) *)

Module BalanceBook.

(** [balances[owner][token][tranche]] *)
Definition t : Type := list (string * list (string * list (string * Z))).

Definition empty : t := [].

Definition isBalanceKnown (b : t) (owner token tranche : string) : bool :=
  match obj_get b owner with
  | Some toks =>
      match obj_get toks token with
      | Some trs => bool_decide (is_Some (obj_get trs tranche))
      | None => false
      end
  | None => false
  end.

Definition getBalance (b : t) (owner token tranche : string) : Z :=
  match obj_get b owner with
  | Some toks =>
      match obj_get toks token with
      | Some trs => default 0 (obj_get trs tranche)
      | None => 0
      end
  | None => 0
  end.

(** The three guards create the missing levels (a stored [BigNumber] is an
    object, hence truthy even when it is zero), then the amount is added. *)
Definition addBalance (b : t) (owner token tranche : string) (amount : Z) : t :=
  let toks := default [] (obj_get b owner) in
  let trs := default [] (obj_get toks token) in
  let old := default 0 (obj_get trs tranche) in
  obj_set b owner (obj_set toks token (obj_set trs tranche (old + amount))).

Definition getAllTokens (b : t) : list string :=
  flat_map (λ e, obj_keys e.2) b.

Record Balance := mkBalance
  { owner : string; token : string; tranche : string; amount : Z }.

Definition getAllBalances (b : t) : list Balance :=
  flat_map (λ e,
    flat_map (λ f,
      map (λ g, mkBalance e.1 f.1 g.1 g.2) f.2) e.2) b.

Definition copy (b : t) : t :=
  fold_left (λ acc x, addBalance acc (owner x) (token x) (tranche x) (amount x))
    (getAllBalances b) empty.

(** A book as a program builds it: a run of [addBalance] calls on a new one. *)
Definition written (trace : list Balance) : t :=
  fold_left (λ acc x, addBalance acc (owner x) (token x) (tranche x) (amount x))
    trace empty.

(** The owner entries of the book under which [tok] is a key. *)
Definition ownersHolding (b : t) (tok : string) : list string :=
  obj_keys (filter (λ e, tok ∈ obj_keys e.2) b).

End BalanceBook.

(** ** Data model

    [src/types.ts] is not among the sources; the records list the fields the
    code below reads or writes, with the types the specification gives them
    (amounts and percentages are integers). *)

Inductive TokenType : Type := ERC20 | ERC1400.

#[global] Instance TokenType_eq_dec : EqDecision TokenType.
Proof. solve_decision. Defined.

(** Truthiness of an optional string ([undefined] and the empty string are
    falsy). *)
Definition truthy (s : option string) : bool :=
  match s with
  | Some s => negb (bool_decide (s = ""))
  | None => false
  end.

Module Spendable.
Record t := mk
  { initialized : bool; amount : Z; reserved : Z; initialAmount : Z }.

Definition set_amount (v : Z) (s : t) : t :=
  mk (initialized s) v (reserved s) (initialAmount s).
Definition set_reserved (v : Z) (s : t) : t :=
  mk (initialized s) (amount s) v (initialAmount s).
End Spendable.

Module Order.
(** [tokenSpendableS], [tokenSpendableFee], [brokerSpendableS] and
    [brokerSpendableFee] are references into the spendable store: two orders
    (or the two roles of one order) may hold the same reference. *)
Record t := mk
  { owner : string; tokenRecipient : string; broker : string;
    brokerInterceptor : option string; walletAddr : option string;
    tokenS : string; tokenB : string; feeToken : string;
    amountS : Z; amountB : Z; feeAmount : Z;
    trancheS : string; trancheB : string; trancheFee : string;
    tokenTypeS : TokenType; tokenTypeB : TokenType; tokenTypeFee : TokenType;
    transferDataS : option string;
    allOrNone : bool; P2P : bool;
    feePercentage : Z; tokenSFeePercentage : Z; tokenBFeePercentage : Z;
    walletSplitPercentage : Z; waiveFeePercentage : Z;
    valid : bool; filledAmountS : Z;
    tokenSpendableS : nat; tokenSpendableFee : nat;
    brokerSpendableS : nat; brokerSpendableFee : nat }.

Definition set_valid (v : bool) (o : t) : t :=
  mk (owner o) (tokenRecipient o) (broker o) (brokerInterceptor o) (walletAddr o)
     (tokenS o) (tokenB o) (feeToken o) (amountS o) (amountB o) (feeAmount o)
     (trancheS o) (trancheB o) (trancheFee o)
     (tokenTypeS o) (tokenTypeB o) (tokenTypeFee o) (transferDataS o)
     (allOrNone o) (P2P o)
     (feePercentage o) (tokenSFeePercentage o) (tokenBFeePercentage o)
     (walletSplitPercentage o) (waiveFeePercentage o)
     v (filledAmountS o)
     (tokenSpendableS o) (tokenSpendableFee o)
     (brokerSpendableS o) (brokerSpendableFee o).

Definition set_filledAmountS (v : Z) (o : t) : t :=
  mk (owner o) (tokenRecipient o) (broker o) (brokerInterceptor o) (walletAddr o)
     (tokenS o) (tokenB o) (feeToken o) (amountS o) (amountB o) (feeAmount o)
     (trancheS o) (trancheB o) (trancheFee o)
     (tokenTypeS o) (tokenTypeB o) (tokenTypeFee o) (transferDataS o)
     (allOrNone o) (P2P o)
     (feePercentage o) (tokenSFeePercentage o) (tokenBFeePercentage o)
     (walletSplitPercentage o) (waiveFeePercentage o)
     (valid o) v
     (tokenSpendableS o) (tokenSpendableFee o)
     (brokerSpendableS o) (brokerSpendableFee o).
End Order.

Module Participation.
(** [order] is the index of the order in the batch ([ringsInfo.orders]). *)
Record t := mk
  { order : nat;
    splitS : Z; feeAmount : Z; feeAmountS : Z; feeAmountB : Z;
    rebateFee : Z; rebateS : Z; rebateB : Z;
    fillAmountS : Z; fillAmountB : Z;
    ringSpendableS : Z; ringSpendableFee : Z }.

Definition set_splitS (v : Z) (p : t) : t :=
  mk (order p) v (feeAmount p) (feeAmountS p) (feeAmountB p)
     (rebateFee p) (rebateS p) (rebateB p) (fillAmountS p) (fillAmountB p)
     (ringSpendableS p) (ringSpendableFee p).
Definition set_feeAmount (v : Z) (p : t) : t :=
  mk (order p) (splitS p) v (feeAmountS p) (feeAmountB p)
     (rebateFee p) (rebateS p) (rebateB p) (fillAmountS p) (fillAmountB p)
     (ringSpendableS p) (ringSpendableFee p).
Definition set_feeAmountS (v : Z) (p : t) : t :=
  mk (order p) (splitS p) (feeAmount p) v (feeAmountB p)
     (rebateFee p) (rebateS p) (rebateB p) (fillAmountS p) (fillAmountB p)
     (ringSpendableS p) (ringSpendableFee p).
Definition set_feeAmountB (v : Z) (p : t) : t :=
  mk (order p) (splitS p) (feeAmount p) (feeAmountS p) v
     (rebateFee p) (rebateS p) (rebateB p) (fillAmountS p) (fillAmountB p)
     (ringSpendableS p) (ringSpendableFee p).
Definition set_fillAmountS (v : Z) (p : t) : t :=
  mk (order p) (splitS p) (feeAmount p) (feeAmountS p) (feeAmountB p)
     (rebateFee p) (rebateS p) (rebateB p) v (fillAmountB p)
     (ringSpendableS p) (ringSpendableFee p).
Definition set_fillAmountB (v : Z) (p : t) : t :=
  mk (order p) (splitS p) (feeAmount p) (feeAmountS p) (feeAmountB p)
     (rebateFee p) (rebateS p) (rebateB p) (fillAmountS p) v
     (ringSpendableS p) (ringSpendableFee p).
Definition set_ringSpendableS (v : Z) (p : t) : t :=
  mk (order p) (splitS p) (feeAmount p) (feeAmountS p) (feeAmountB p)
     (rebateFee p) (rebateS p) (rebateB p) (fillAmountS p) (fillAmountB p)
     v (ringSpendableFee p).
Definition set_ringSpendableFee (v : Z) (p : t) : t :=
  mk (order p) (splitS p) (feeAmount p) (feeAmountS p) (feeAmountB p)
     (rebateFee p) (rebateS p) (rebateB p) (fillAmountS p) (fillAmountB p)
     (ringSpendableS p) v.

(** The participation the [Ring] constructor pushes for an order. *)
Definition init (orderIndex : nat) : t :=
  mk orderIndex 0 0 0 0 0 0 0 0 0 0 0.
End Participation.

Module TransferItem.
Record t := mk
  { token : string; from : string; to : string; amount : Z;
    tokenType : TokenType; fromTranche : string; toTranche : string;
    data : option string }.
End TransferItem.

Module Ring.
Record t := mk
  { participations : list Participation.t;
    valid : bool;
    minerFeesToOrdersPercentage : Z;
    feeBalances : BalanceBook.t }.

Definition set_participations (v : list Participation.t) (r : t) : t :=
  mk v (valid r) (minerFeesToOrdersPercentage r) (feeBalances r).
Definition set_valid (v : bool) (r : t) : t :=
  mk (participations r) v (minerFeesToOrdersPercentage r) (feeBalances r).
Definition set_minerFeesToOrdersPercentage (v : Z) (r : t) : t :=
  mk (participations r) (valid r) v (feeBalances r).
End Ring.

(** The mutable objects of one simulation: the batch of orders and the
    spendable records the orders point to. *)
Record Store := mkStore
  { orders : list Order.t; spendables : list Spendable.t }.

Definition set_orders (v : list Order.t) (st : Store) : Store :=
  mkStore v (spendables st).
Definition set_spendables (v : list Spendable.t) (st : Store) : Store :=
  mkStore (orders st) v.

(** The read-only chain snapshot and the constants of [Context]. *)
Record Context := mkContext
  { feePercentageBase : Z;
    feeHolder : string;
    (** balance and allowance of [owner] for a token and tranche *)
    getTokenSpendable : TokenType → string → string → string → Z;
    (** allowance of a broker through its interceptor:
        token, owner, broker, interceptor *)
    getBrokerAllowance : string → string → string → string → Z;
    (** [ERC1400(token).canSend(from, to, fromTranche, amount, data)]:
        status code and destination tranche *)
    canSend : string → string → string → string → Z → string → string * string }.

Definition zeroAddress : string :=
  "0x0000000000000000000000000000000000000000000000000000000000000000".

Definition withOrder (st : Store) (i : nat) (f : Order.t → Order.t) : result Store :=
  o ← deref (orders st) i;
  Ok (set_orders (<[i := f o]> (orders st)) st).

Definition withSpendable (st : Store) (i : nat) (f : Spendable.t → Spendable.t)
  : result Store :=
  s ← deref (spendables st) i;
  Ok (set_spendables (<[i := f s]> (spendables st)) st).

(** [a && b] where [b] is only evaluated when [a] holds. *)
Definition andThen (a : bool) (b : result bool) : result bool :=
  if a then b else Ok false.

(** ** OrderUtil

    [src/order.ts] is not among the sources: the helpers the ring and the
    simulator call are modelled from section 4.2 of the specification. *)

Module OrderUtil.
Section WithContext.
Variable ctx : Context.

(** Modelled from the spec: [OrderUtil.getSpendable] (in [src/order.ts], not
    among the sources).  "Returns the live spendable [...], lazily caching the
    first query into the Spendable record and reusing it thereafter.  If a
    broker interceptor is present, the effective spendable is
    min(token-path-spendable, broker-path-spendable)"; the live budget of a
    record is [amount - reserved] and [initialAmount] freezes the first
    value. *)
Definition getSpendable (st : Store) (tokenType : TokenType)
    (token tranche owner broker : string) (brokerInterceptor : option string)
    (tokenSpendable brokerSpendable : nat) : result (Store * Z) :=
  st ← withSpendable st tokenSpendable (λ s,
         if Spendable.initialized s then s
         else let a := getTokenSpendable ctx tokenType token tranche owner in
              Spendable.mk true a (Spendable.reserved s) a);
  s ← deref (spendables st) tokenSpendable;
  let spendable := Spendable.amount s - Spendable.reserved s in
  if truthy brokerInterceptor then
    st ← withSpendable st brokerSpendable (λ s,
           if Spendable.initialized s then s
           else let a := getBrokerAllowance ctx token owner broker
                           (default "" brokerInterceptor) in
                Spendable.mk true a (Spendable.reserved s) a);
    b ← deref (spendables st) brokerSpendable;
    Ok (st, Z.min spendable (Spendable.amount b - Spendable.reserved b))
  else Ok (st, spendable).

(** Modelled from the spec: [OrderUtil.getSpendableS] (not among the
    sources), the spendable of the order's [tokenS]. *)
Definition getSpendableS (st : Store) (o : Order.t) : result (Store * Z) :=
  getSpendable st (Order.tokenTypeS o) (Order.tokenS o) (Order.trancheS o)
    (Order.owner o) (Order.broker o) (Order.brokerInterceptor o)
    (Order.tokenSpendableS o) (Order.brokerSpendableS o).

(** Modelled from the spec: [OrderUtil.getSpendableFee] (not among the
    sources), the spendable of the order's [feeToken]. *)
Definition getSpendableFee (st : Store) (o : Order.t) : result (Store * Z) :=
  getSpendable st (Order.tokenTypeFee o) (Order.feeToken o) (Order.trancheFee o)
    (Order.owner o) (Order.broker o) (Order.brokerInterceptor o)
    (Order.tokenSpendableFee o) (Order.brokerSpendableFee o).

(** Modelled from the spec: [OrderUtil.reserveAmountS] (not among the
    sources): "add [...] [reserved] on the Spendables". *)
Definition reserveAmountS (st : Store) (o : Order.t) (amount : Z) : result Store :=
  st ← withSpendable st (Order.tokenSpendableS o)
         (λ s, Spendable.set_reserved (Spendable.reserved s + amount) s);
  if truthy (Order.brokerInterceptor o) then
    withSpendable st (Order.brokerSpendableS o)
      (λ s, Spendable.set_reserved (Spendable.reserved s + amount) s)
  else Ok st.

(** Modelled from the spec: [OrderUtil.reserveAmountFee] (not among the
    sources). *)
Definition reserveAmountFee (st : Store) (o : Order.t) (amount : Z) : result Store :=
  st ← withSpendable st (Order.tokenSpendableFee o)
         (λ s, Spendable.set_reserved (Spendable.reserved s + amount) s);
  if truthy (Order.brokerInterceptor o) then
    withSpendable st (Order.brokerSpendableFee o)
      (λ s, Spendable.set_reserved (Spendable.reserved s + amount) s)
  else Ok st.

(** Modelled from the spec: [OrderUtil.resetReservations] (not among the
    sources): "clear [reserved] on the Spendables". *)
Definition resetReservations (st : Store) (o : Order.t) : result Store :=
  st ← withSpendable st (Order.tokenSpendableS o) (Spendable.set_reserved 0);
  st ← withSpendable st (Order.tokenSpendableFee o) (Spendable.set_reserved 0);
  if truthy (Order.brokerInterceptor o) then
    st ← withSpendable st (Order.brokerSpendableS o) (Spendable.set_reserved 0);
    withSpendable st (Order.brokerSpendableFee o) (Spendable.set_reserved 0)
  else Ok st.

End WithContext.

(** Modelled from the spec: [OrderUtil.validateAllOrNone] (not among the
    sources): "sets [order.valid=false] if [allOrNone] and
    [filledAmountS < amountS]". *)
Definition validateAllOrNone (o : Order.t) : Order.t :=
  Order.set_valid
    (Order.valid o &&
     ensure (negb (Order.allOrNone o && (Order.filledAmountS o <? Order.amountS o)))
       "allOrNone not completely filled") o.

End OrderUtil.

(** ** Ring ([src/ring.ts]) *)

Section RingMethods.
Variable ctx : Context.

(** [new Ring(context, orders)], from the indices of its orders in the
    batch; the diagnostics bookkeeping is left out. *)
Definition newRing (indexes : list nat) : Ring.t :=
  Ring.mk (map Participation.init indexes) true 0 BalanceBook.empty.

(** [(i + length - 1) % length] *)
Definition prevIndex (i n : nat) : nat := ((i + n - 1) mod n)%nat.

Definition orderOf (st : Store) (p : Participation.t) : result Order.t :=
  deref (orders st) (Participation.order p).

Definition checkOrdersValid (st : Store) (r : Ring.t) : result Ring.t :=
  let ps := Ring.participations r in
  let n := length ps in
  let valid0 :=
    Ring.valid r && ensure ((1 <? n)%nat && (n <=? 8)%nat) "invald ring size" in
  valid ← foldM (λ valid i,
      valid ← andThen valid (
        p ← deref ps i; o ← orderOf st p;
        Ok (ensure (Order.valid o) "ring contains invalid order"));
      valid ← andThen valid (
        p ← deref ps i; o ← orderOf st p;
        q ← deref ps (prevIndex i n); oq ← orderOf st q;
        Ok (ensure (bool_decide (Order.tokenS o = Order.tokenB oq))
              "tokenS/tokenB mismatch"));
      andThen valid (
        p ← deref ps i; o ← orderOf st p;
        q ← deref ps (prevIndex i n); oq ← orderOf st q;
        Ok (ensure (bool_decide (Order.tokenTypeS o = Order.tokenTypeB oq))
              "tokenTypeS/tokenTypeB mismatch")))
    (seq 0 n) valid0;
  Ok (Ring.set_valid valid r).

Definition checkForSubRings (st : Store) (r : Ring.t) : result Ring.t :=
  let ps := Ring.participations r in
  let n := length ps in
  valid ← foldM (λ valid i,
      p ← deref ps i; o ← orderOf st p;
      let tokenS := Order.tokenS o in
      foldM (λ valid j,
          andThen valid (
            q ← deref ps j; oq ← orderOf st q;
            Ok (ensure (negb (bool_decide (tokenS = Order.tokenS oq)))
                  "ring has sub-rings")))
        (seq (i + 1) (n - (i + 1))) valid)
    (seq 0 (n - 1)) (Ring.valid r);
  Ok (Ring.set_valid valid r).

(** The block of [setMaxFillAmounts] that limits [fillAmountS] to the fee the
    owner can pay (the body of the innermost [if] on the shortcut).  It hands
    back the new [fillAmountS] together with the local variable
    [feeAmount].  [order.feeAmount] and [order.amountS] are converted where
    the block first hands them to a [BigNumber]; the later conversions of the
    same numbers cannot fail. *)
Definition limitFillByFee (st : Store) (o : Order.t) (p : Participation.t)
  : result (Store * Z * Z) :=
  orderFeeAmount ← bigNumber (Order.feeAmount o);
  amountS ← bigNumber (Order.amountS o);
  feeAmount ← dividedToIntegerBy
    (orderFeeAmount * Participation.fillAmountS p) amountS;
  if 0 <? feeAmount then
    '(st, spendableFee) ← OrderUtil.getSpendableFee ctx st o;
    if bool_decide (Order.feeToken o = Order.tokenS o) &&
       (Participation.ringSpendableS p <?
          Participation.fillAmountS p + feeAmount) then
      _ ← assert (spendableFee =? Participation.ringSpendableS p)
            "spendableFee == spendableS when feeToken == tokenS";
      let totalAmount := amountS + orderFeeAmount in
      fillAmountS ← dividedToIntegerBy
        (Participation.ringSpendableS p * amountS) totalAmount;
      feeAmount ← dividedToIntegerBy
        (Participation.ringSpendableS p * orderFeeAmount) totalAmount;
      Ok (st, fillAmountS, feeAmount)
    else if spendableFee <? feeAmount then
      let feeAmount := spendableFee in
      fillAmountS ← dividedToIntegerBy (feeAmount * amountS) orderFeeAmount;
      Ok (st, fillAmountS, feeAmount)
    else Ok (st, Participation.fillAmountS p, feeAmount)
  else Ok (st, Participation.fillAmountS p, feeAmount).

(** The fee-from-bought-amount shortcut of [setMaxFillAmounts]. *)
Definition feeFromBoughtAmount (o : Order.t) : bool :=
  bool_decide (Order.feeToken o = Order.tokenB o) &&
  bool_decide (Order.owner o = Order.tokenRecipient o) &&
  (Order.feeAmount o <=? Order.amountB o).

Definition setMaxFillAmounts (st : Store) (p : Participation.t)
  : result (Store * Participation.t) :=
  o ← orderOf st p;
  amountS ← bigNumber (Order.amountS o);
  let remainingS := amountS - Order.filledAmountS o in
  '(st, spendableS) ← OrderUtil.getSpendableS ctx st o;
  let p := Participation.set_ringSpendableS spendableS p in
  let p := Participation.set_fillAmountS
             (Z.min (Participation.ringSpendableS p) remainingS) p in
  '(st, p) ←
    (if negb (Order.P2P o) && negb (feeFromBoughtAmount o) then
       '(st, fillAmountS, _) ← limitFillByFee st o p;
       Ok (st, Participation.set_fillAmountS fillAmountS p)
     else Ok (st, p));
  amountB ← bigNumber (Order.amountB o);
  fillAmountB ← dividedToIntegerBy
    (Participation.fillAmountS p * amountB) amountS;
  Ok (st, Participation.set_fillAmountB fillAmountB p).

Definition resize (st : Store) (ps : list Participation.t) (i smallest : nat)
  : result (list Participation.t * nat) :=
  let j := prevIndex i (length ps) in
  p ← deref ps i; o ← orderOf st p;
  prevP ← deref ps j;
  postFeeFillAmountS ←
    (if 0 <? Order.tokenSFeePercentage o then
       feeAmountS ← dividedToIntegerBy
         (Participation.fillAmountS p * Order.tokenSFeePercentage o)
         (feePercentageBase ctx);
       Ok (Participation.fillAmountS p - feeAmountS)
     else Ok (Participation.fillAmountS p));
  if postFeeFillAmountS <? Participation.fillAmountB prevP then
    let prevP := Participation.set_fillAmountB postFeeFillAmountS prevP in
    prevO ← orderOf st prevP;
    amountS ← bigNumber (Order.amountS prevO);
    amountB ← bigNumber (Order.amountB prevO);
    fillAmountS ← dividedToIntegerBy
      (Participation.fillAmountB prevP * amountS) amountB;
    Ok (<[j := Participation.set_fillAmountS fillAmountS prevP]> ps, i)
  else Ok (ps, smallest).

(** The margin step that ends [calculateFees]. *)
Definition takeMargin (p prevP : Participation.t) : Participation.t * bool :=
  if Participation.fillAmountB prevP <=?
       Participation.fillAmountS p - Participation.feeAmountS p then
    let p := Participation.set_splitS
      (Participation.fillAmountS p - Participation.feeAmountS p
         - Participation.fillAmountB prevP) p in
    (Participation.set_fillAmountS
       (Participation.fillAmountB prevP + Participation.feeAmountS p) p, true)
  else (p, false).

Definition calculateFees (st : Store) (p prevP : Participation.t)
  : result (Store * Participation.t * bool) :=
  o ← orderOf st p;
  if Order.P2P o then
    let p := Participation.set_feeAmount 0 p in
    feeAmountS ← dividedToIntegerBy
      (Participation.fillAmountS p * Order.tokenSFeePercentage o)
      (feePercentageBase ctx);
    let p := Participation.set_feeAmountS feeAmountS p in
    feeAmountB ← dividedToIntegerBy
      (Participation.fillAmountB p * Order.tokenBFeePercentage o)
      (feePercentageBase ctx);
    let p := Participation.set_feeAmountB feeAmountB p in
    let '(p, ok) := takeMargin p prevP in Ok (st, p, ok)
  else
    orderFeeAmount ← bigNumber (Order.feeAmount o);
    amountS ← bigNumber (Order.amountS o);
    feeAmount ← dividedToIntegerBy
      (orderFeeAmount * Participation.fillAmountS p) amountS;
    let p := Participation.set_feeAmount feeAmount p in
    let p := Participation.set_feeAmountS 0 p in
    let p := Participation.set_feeAmountB 0 p in
    let p :=
      if bool_decide (Order.feeToken o = Order.tokenB o) &&
         bool_decide (Order.owner o = Order.tokenRecipient o) &&
         (Participation.feeAmount p <=? Participation.fillAmountB p)
      then Participation.set_feeAmount 0
             (Participation.set_feeAmountB (Participation.feeAmount p) p)
      else p in
    '(st, spendableFee) ← OrderUtil.getSpendableFee ctx st o;
    let p := Participation.set_ringSpendableFee spendableFee p in
    if Participation.ringSpendableFee p <? Participation.feeAmount p then
      Ok (st, p, false)
    else
      st ← OrderUtil.reserveAmountFee st o (Participation.feeAmount p);
      let '(p, ok) := takeMargin p prevP in Ok (st, p, ok).

(** [for (const p of this.participations)] with a body that updates the
    participation and the store. *)
Fixpoint forEachParticipation
    (body : Store → Participation.t → result (Store * Participation.t))
    (st : Store) (ps : list Participation.t)
  : result (Store * list Participation.t) :=
  match ps with
  | [] => Ok (st, [])
  | p :: ps' =>
      '(st, p) ← body st p;
      '(st, ps') ← forEachParticipation body st ps';
      Ok (st, p :: ps')
  end.

Definition isSuccessCode (ESC : string) : bool :=
  bool_decide (ESC = "0xa0") || bool_decide (ESC = "0xa1") ||
  bool_decide (ESC = "0xa2").

(** One pass of the loop of [calculateFillAmountAndFee] that probes
    [canSend] and calls [calculateFees] on the pair [(i, prevIndex)]. *)
Definition feeStep (s : Store * Ring.t) (i : nat) : result (Store * Ring.t) :=
  let '(st, r) := s in
  let ps := Ring.participations r in
  let prev := prevIndex i (length ps) in
  p ← deref ps i; o ← orderOf st p;
  valid ←
    (if bool_decide (Order.tokenTypeS o = ERC1400) then
       prevP ← deref ps prev; prevO ← orderOf st prevP;
       let '(ESC, destTranche) :=
         canSend ctx (Order.tokenS o) (Order.owner o) (Order.tokenRecipient prevO)
           (Order.trancheS o) (Participation.fillAmountS p)
           (if truthy (Order.transferDataS o)
            then default "" (Order.transferDataS o) else "0x0") in
       let valid := Ring.valid r && ensure (isSuccessCode ESC) "canSend is false" in
       Ok (valid &&
           ensure (bool_decide (destTranche = Order.trancheB prevO))
             "wrong dest tranche")
     else Ok (Ring.valid r));
  prevP ← deref ps prev;
  '(st, p, ok) ← calculateFees st p prevP;
  let valid := valid && ensure ok "ring cannot be settled" in
  let minerFeesToOrdersPercentage :=
    if Order.waiveFeePercentage o <? 0
    then Ring.minerFeesToOrdersPercentage r + - Order.waiveFeePercentage o
    else Ring.minerFeesToOrdersPercentage r in
  Ok (st, Ring.mk (<[i := p]> ps) valid minerFeesToOrdersPercentage
            (Ring.feeBalances r)).

Definition calculateFillAmountAndFee (st : Store) (r : Ring.t)
  : result (Store * Ring.t) :=
  if negb (Ring.valid r) then Ok (st, r)
  else
    '(st, ps) ← forEachParticipation setMaxFillAmounts st (Ring.participations r);
    let ringSize := length ps in
    '(ps, smallest) ← foldM (λ '(ps, smallest) i, resize st ps i smallest)
                        (reverse (seq 0 ringSize)) (ps, 0%nat);
    '(ps, _) ← foldM (λ '(ps, _) i, resize st ps i smallest)
                 (reverse (seq smallest (ringSize - smallest))) (ps, smallest);
    st ← foldM (λ st p, o ← orderOf st p;
                        OrderUtil.reserveAmountS st o (Participation.fillAmountS p))
           ps st;
    '(st, r) ← foldM feeStep (seq 0 ringSize) (st, Ring.set_participations ps r);
    let r := Ring.set_valid
      (Ring.valid r &&
       ensure (Ring.minerFeesToOrdersPercentage r <=? feePercentageBase ctx)
         "miner distributes more than 100% of its fees to order owners") r in
    st ← foldM (λ st p, o ← orderOf st p; OrderUtil.resetReservations st o)
           (Ring.participations r) st;
    Ok (st, r).

(** ** State adjustment *)

Definition adjustOrderState (st : Store) (p : Participation.t) : result Store :=
  st ← withOrder st (Participation.order p) (λ o,
         Order.set_filledAmountS
           (Order.filledAmountS o + Participation.fillAmountS p
              + Participation.splitS p) o);
  o ← orderOf st p;
  let totalAmountS := Participation.fillAmountS p + Participation.splitS p in
  let totalAmountFee := Participation.feeAmount p in
  st ← withSpendable st (Order.tokenSpendableS o)
         (λ s, Spendable.set_amount (Spendable.amount s - totalAmountS) s);
  st ← withSpendable st (Order.tokenSpendableFee o)
         (λ s, Spendable.set_amount (Spendable.amount s - totalAmountFee) s);
  st ←
    (if truthy (Order.brokerInterceptor o) then
       st ← withSpendable st (Order.brokerSpendableS o)
              (λ s, Spendable.set_amount (Spendable.amount s - totalAmountS) s);
       st ← withSpendable st (Order.brokerSpendableFee o)
              (λ s, Spendable.set_amount (Spendable.amount s - totalAmountFee) s);
       bS ← deref (spendables st) (Order.brokerSpendableS o);
       _ ← assert (0 <=? Spendable.amount bS) "brokerSpendableS should be positive";
       tF ← deref (spendables st) (Order.tokenSpendableFee o);
       _ ← assert (0 <=? Spendable.amount tF) "tokenSpendableFee should be positive";
       Ok st
     else Ok st);
  tS ← deref (spendables st) (Order.tokenSpendableS o);
  _ ← assert (0 <=? Spendable.amount tS) "spendableS should be positive";
  tF ← deref (spendables st) (Order.tokenSpendableFee o);
  _ ← assert (0 <=? Spendable.amount tF) "spendableFee should be positive";
  amountS ← bigNumber (Order.amountS o);
  _ ← assert (Order.filledAmountS o <=? amountS) "filledAmountS <= amountS";
  Ok st.

Definition adjustOrderStates (st : Store) (r : Ring.t) : result Store :=
  foldM adjustOrderState (Ring.participations r) st.

(** The body of the loop of [revertOrderStats]. *)
Definition revertOrderState (st : Store) (p : Participation.t) : result Store :=
  st ← withOrder st (Participation.order p) (λ o,
         Order.set_filledAmountS
           (Order.filledAmountS o -
              (Participation.fillAmountS p + Participation.splitS p)) o);
  o ← orderOf st p;
  _ ← assert (0 <=? Order.filledAmountS o) "p.order.filledAmountS >= 0";
  Ok st.

Definition revertOrderStats (st : Store) (r : Ring.t) : result Store :=
  foldM revertOrderState (Ring.participations r) st.

(** ** Token transfers *)

Definition addTokenTransfer (transferItems : list TransferItem.t)
    (tokenType : TokenType) (fromTranche token from to : string) (amount : Z)
    (data : option string) : result (list TransferItem.t) :=
  if negb (bool_decide (from = to)) && (0 <? amount) then
    match tokenType with
    | ERC20 =>
        Ok (transferItems ++
              [TransferItem.mk token from to amount tokenType
                 zeroAddress zeroAddress None])
    | ERC1400 =>
        let tranferData := if truthy data then default "" data else "0x" in
        let '(ESC, destTranche) :=
          canSend ctx token from to fromTranche amount tranferData in
        _ ← assert (isSuccessCode ESC) "Cannot transfer ERC1400 tokens";
        Ok (transferItems ++
              [TransferItem.mk token from to amount tokenType
                 fromTranche destTranche (Some tranferData)])
    end
  else Ok transferItems.

(** The margin paid out for a participation: nothing for a security token. *)
Definition marginOf (o : Order.t) (p : Participation.t) : Z :=
  if bool_decide (Order.tokenTypeS o = ERC1400) then 0
  else Participation.splitS p.

(** The first three transfers of one pass of [transferTokens]: to the buyer,
    to the fee holder in [tokenS], to the fee holder in [feeToken]. *)
Definition transferFillAndFees (transferItems : list TransferItem.t)
    (o prevO : Order.t) (p prevP : Participation.t)
  : result (list TransferItem.t) :=
  let buyerFeeAmountAfterRebateB :=
    Participation.feeAmountB prevP - Participation.rebateB prevP in
  _ ← assert (0 <=? buyerFeeAmountAfterRebateB) "buyerFeeAmountAfterRebateB >= 0";
  let amountSToBuyer :=
    Participation.fillAmountS p - Participation.feeAmountS p
      - buyerFeeAmountAfterRebateB in
  let amountSToFeeHolder :=
    (Participation.feeAmountS p - Participation.rebateS p)
      + buyerFeeAmountAfterRebateB in
  let amountFeeToFeeHolder :=
    Participation.feeAmount p - Participation.rebateFee p in
  let '(amountSToFeeHolder, amountFeeToFeeHolder) :=
    if bool_decide (Order.tokenS o = Order.feeToken o)
    then (amountSToFeeHolder + amountFeeToFeeHolder, 0)
    else (amountSToFeeHolder, amountFeeToFeeHolder) in
  transferItems ← addTokenTransfer transferItems
    (Order.tokenTypeS o) (Order.trancheS o) (Order.tokenS o) (Order.owner o)
    (Order.tokenRecipient prevO) amountSToBuyer (Order.transferDataS o);
  transferItems ← addTokenTransfer transferItems
    (Order.tokenTypeS o) (Order.trancheS o) (Order.tokenS o) (Order.owner o)
    (feeHolder ctx) amountSToFeeHolder (Order.transferDataS o);
  addTokenTransfer transferItems
    (Order.tokenTypeFee o) (Order.trancheFee o) (Order.feeToken o) (Order.owner o)
    (feeHolder ctx) amountFeeToFeeHolder (Some "0x").

(** One pass of the loop of [transferTokens]: the three transfers above and
    then the margin to the miner's fee recipient. *)
Definition transferTokensStep (feeRecipient : string) (st : Store)
    (ps : list Participation.t) (transferItems : list TransferItem.t) (i : nat)
  : result (list TransferItem.t) :=
  let prev := prevIndex i (length ps) in
  p ← deref ps i; o ← orderOf st p;
  prevP ← deref ps prev; prevO ← orderOf st prevP;
  transferItems ← transferFillAndFees transferItems o prevO p prevP;
  addTokenTransfer transferItems
    (Order.tokenTypeS o) (Order.trancheS o) (Order.tokenS o) (Order.owner o)
    feeRecipient (marginOf o p) (Order.transferDataS o).

(** [transferTokens(mining)], with [mining.feeRecipient] as argument. *)
Definition transferTokens (feeRecipient : string) (st : Store) (r : Ring.t)
  : result (list TransferItem.t) :=
  foldM (transferTokensStep feeRecipient st (Ring.participations r))
    (seq 0 (length (Ring.participations r))) [].

End RingMethods.

(** ** ProtocolSimulator ([src/protocol_simulator.ts]) *)

Section Simulator.
Variable ctx : Context.

(** [new BigNumber("F".repeat(64), 16)] *)
Definition cancelledValue : Z := 2 ^ 256 - 1.

(** One pass of the loop of [batchGetFilledAndCheckCancelled] over
    [orders.entries()], given the array [fills] that the trade delegate
    returned.  When [fills[i]] is missing, [order.filledAmountS] becomes
    [undefined], and [fills[i].equals] is only evaluated, and raises, for an
    order that is still valid ([&&] does not evaluate its right operand for
    an invalid one): the loop then goes on, and the flag records that an
    order holds [undefined]. *)
Definition batchGetFilledAndCheckCancelledStep (fills : list Z)
    (s : list Order.t * bool) (i : nat) : result (list Order.t * bool) :=
  let '(orders, undefinedFilled) := s in
  order ← deref orders i;
  match fills !! i with
  | Some fill =>
      let order := Order.set_filledAmountS fill order in
      let order := Order.set_valid
        (Order.valid order &&
         ensure (negb (fill =? cancelledValue)) "order is cancelled") order in
      Ok (<[i := order]> orders, undefinedFilled)
  | None =>
      if Order.valid order then Throw TypeError
      else Ok (orders, true)
  end.

(** [batchGetFilledAndCheckCancelled], after the call of the trade
    delegate. *)
Definition batchGetFilledAndCheckCancelled (fills : list Z) (orders : list Order.t)
  : result (list Order.t) :=
  '(orders, undefinedFilled) ←
    foldM (batchGetFilledAndCheckCancelledStep fills)
      (seq 0 (length orders)) (orders, false);
  if (undefinedFilled : bool) then Throw UndefinedValue else Ok orders.

(** The loop of [simulateAndReport] that settles the rings one by one. *)
Fixpoint calculateRings (st : Store) (rings : list Ring.t)
  : result (Store * list Ring.t) :=
  match rings with
  | [] => Ok (st, [])
  | ring :: rest =>
      ring ← checkOrdersValid st ring;
      ring ← checkForSubRings st ring;
      '(st, ring) ← calculateFillAmountAndFee ctx st ring;
      st ← (if Ring.valid ring then adjustOrderStates st ring else Ok st);
      '(st, rest) ← calculateRings st rest;
      Ok (st, ring :: rest)
  end.

(** The first [for] of the body of the [while] in [checkRings]. *)
Fixpoint checkAllOrNone (orders : list Order.t) (reevaluateRings : bool)
  : list Order.t * bool :=
  match orders with
  | [] => ([], reevaluateRings)
  | order :: rest =>
      if Order.allOrNone order then
        let validBefore := Order.valid order in
        let order := OrderUtil.validateAllOrNone order in
        let reevaluateRings :=
          reevaluateRings || negb (eqb validBefore (Order.valid order)) in
        let '(rest, reevaluateRings) := checkAllOrNone rest reevaluateRings in
        (order :: rest, reevaluateRings)
      else
        let '(rest, reevaluateRings) := checkAllOrNone rest reevaluateRings in
        (order :: rest, reevaluateRings)
  end.

(** The second [for] of the body: every ring is checked again and a ring
    that has just become invalid gives back its fills. *)
Fixpoint recheckRings (st : Store) (rings : list Ring.t)
  : result (Store * list Ring.t) :=
  match rings with
  | [] => Ok (st, [])
  | ring :: rest =>
      let validBefore := Ring.valid ring in
      ring ← checkOrdersValid st ring;
      st ← (if negb (Ring.valid ring) && validBefore
            then revertOrderStats st ring else Ok st);
      '(st, rest) ← recheckRings st rest;
      Ok (st, ring :: rest)
  end.

(** [checkRings]: the [while (reevaluateRings)] loop.  [fuel] bounds the
    number of passes that may be unfolded ([None]: not enough fuel); the
    second component counts the passes of the loop body that were run.
    ([simulateAndReport] calls it without [await]: it runs to its end before
    the caller goes on, and a failed assertion rejects a promise that nobody
    looks at.) *)
Fixpoint checkRings (fuel : nat) (st : Store) (rings : list Ring.t)
  : option (result (Store * list Ring.t) * nat) :=
  match fuel with
  | O => None
  | S fuel =>
      let '(orders, reevaluateRings) := checkAllOrNone (orders st) false in
      let st := set_orders orders st in
      if reevaluateRings then
        match recheckRings st rings with
        | Ok (st, rings) =>
            '(out, passes) ← checkRings fuel st rings; Some (out, S passes)
        | Throw e => Some (Throw e, 1%nat)
        end
      else Some (Ok (st, rings), 1%nat)
  end.


(** The amount the transfers move out of [(from, token, fromTranche)]. *)
Definition amountTransferred (items : list TransferItem.t)
    (from token fromTranche : string) : Z :=
  fold_left (λ acc transfer,
      if bool_decide (TransferItem.from transfer = from) &&
         bool_decide (TransferItem.token transfer = token) &&
         bool_decide (TransferItem.fromTranche transfer = fromTranche)
      then acc + TransferItem.amount transfer else acc)
    items 0.


End Simulator.

(** ** Vocabulary of the statements *)


(** Number of times [tok] occurs in a list of tokens. *)
Definition occurrences (tok : string) (l : list string) : nat :=
  length (filter (λ x, x = tok) l).

(** [owner] has an entry for [tok] in the book. *)
Definition holds (b : BalanceBook.t) (owner tok : string) : Prop :=
  ∃ toks, obj_get b owner = Some toks ∧ tok ∈ obj_keys toks.

(** Keys are unique at the two outer levels of a book. *)
Definition uniqueKeys (b : BalanceBook.t) : Prop :=
  NoDup (obj_keys b) ∧ Forall (λ e, NoDup (obj_keys e.2)) b.

(** [filledAmountS] moved by [d]. *)
Definition addFilled (d : Z) (o : Order.t) : Order.t :=
  Order.set_filledAmountS (Order.filledAmountS o + d) o.

(** What the participations of a ring sell, margin included, of the order
    with index [j]. *)
Fixpoint totalFill (ps : list Participation.t) (j : nat) : Z :=
  match ps with
  | [] => 0
  | p :: ps' =>
      (if decide (Participation.order p = j)
       then Participation.fillAmountS p + Participation.splitS p else 0)
      + totalFill ps' j
  end.

(** Number of orders whose [valid] flag is set. *)
Definition countValid (os : list Order.t) : nat :=
  length (filter (λ b, b = true) (Order.valid <$> os)).

(** The matching fee of a participation: [order.feeAmount] in proportion to
    what it sells of the order, margin included ([fee] in
    [validateSettlement]; [calculateFees] computes it from the [fillAmountS]
    it starts with, which it then divides into [fillAmountS] and
    [splitS]). *)
Definition matchingFee (o : Order.t) (p : Participation.t) : Z :=
  Z.quot
    (Order.feeAmount o * (Participation.fillAmountS p + Participation.splitS p))
    (Order.amountS o).

(** The condition under which [calculateFees] takes the matching fee from
    the bought tokens. *)
Definition paidInTokenB (o : Order.t) (p : Participation.t) : bool :=
  bool_decide (Order.feeToken o = Order.tokenB o) &&
  bool_decide (Order.owner o = Order.tokenRecipient o) &&
  (matchingFee o p <=? Participation.fillAmountB p).

(** What holds of participation [i] once its pair has been settled, in terms
    of the participations [ps0] and the orders [os] the loop started from. *)
Definition settled (os : list Order.t) (ps0 : list Participation.t)
    (i : nat) (p : Participation.t) : Prop :=
  (∀ q, ps0 !! prevIndex i (length ps0) = Some q →
     Participation.fillAmountS p - Participation.feeAmountS p =
       Participation.fillAmountB q) ∧
  (∀ o, os !! Participation.order p = Some o → Order.P2P o = false →
     Participation.feeAmountS p = 0 ∧
     Participation.feeAmount p =
       (if paidInTokenB o p then 0 else matchingFee o p) ∧
     Participation.feeAmountB p =
       (if paidInTokenB o p then matchingFee o p else 0)).

(** ** Scenarios

    Concrete batches, after the boundary scenarios of the specification, on
    which the statements below are exercised. *)

Module Scenario.

(** The amount a table of [(owner, token, spendable)] gives an owner for a
    token; nothing when there is no entry. *)
Fixpoint spendableOf (table : list (string * string * Z)) (owner token : string)
  : Z :=
  match table with
  | [] => 0
  | (o, t, v) :: rest =>
      if bool_decide (o = owner) && bool_decide (t = token) then v
      else spendableOf rest owner token
  end.

(** A chain snapshot given by such a table; every ERC1400 probe succeeds and
    keeps the tranche. *)
Definition chain (table : list (string * string * Z)) : Context :=
  mkContext 1000 "0xFEE"
    (λ _ token _ owner, spendableOf table owner token)
    (λ _ _ _ _, 0)
    (λ _ _ _ fromTranche _ _, ("0xa0", fromTranche)).

(** An order without broker, wallet or P2P percentages, whose owner receives
    the bought tokens. *)
Definition order (owner tokenS tokenB feeToken : string)
    (amountS amountB feeAmount : Z) (tokenTypeS tokenTypeB : TokenType)
    (allOrNone : bool) (filledAmountS : Z) (spendableS spendableFee : nat)
  : Order.t :=
  Order.mk owner owner "" None None tokenS tokenB feeToken
    amountS amountB feeAmount zeroAddress zeroAddress zeroAddress
    tokenTypeS tokenTypeB ERC20 None allOrNone false
    0 0 0 0 0 true filledAmountS spendableS spendableFee 0 0.

(** A spendable record that has not been queried yet. *)
Definition unqueried : Spendable.t := Spendable.mk false 0 0 0.

(** S1: two orders of 1000 against 1000, no fees. *)
Definition s1_chain : Context :=
  chain [("0xA", "0xX", 1000); ("0xB", "0xY", 1000)].
Definition s1_store : Store :=
  mkStore
    [order "0xA" "0xX" "0xY" "0xL" 1000 1000 0 ERC20 ERC20 false 0 0 1;
     order "0xB" "0xY" "0xX" "0xL" 1000 1000 0 ERC20 ERC20 false 0 2 3]
    [unqueried; unqueried; unqueried; unqueried].

(** S1 after [calculateFillAmountAndFee], and after [adjustOrderStates]. *)
Definition s1_settled : Store :=
  mkStore (orders s1_store)
    [Spendable.mk true 1000 0 1000; Spendable.mk true 0 0 0;
     Spendable.mk true 1000 0 1000; Spendable.mk true 0 0 0].
Definition s1_ring : Ring.t :=
  Ring.mk
    [Participation.mk 0 0 0 0 0 0 0 0 1000 1000 1000 0;
     Participation.mk 1 0 0 0 0 0 0 0 1000 1000 1000 0]
    true 0 BalanceBook.empty.
Definition s1_adjusted : Store :=
  mkStore
    [order "0xA" "0xX" "0xY" "0xL" 1000 1000 0 ERC20 ERC20 false 1000 0 1;
     order "0xB" "0xY" "0xX" "0xL" 1000 1000 0 ERC20 ERC20 false 1000 2 3]
    [Spendable.mk true 0 0 1000; Spendable.mk true 0 0 0;
     Spendable.mk true 0 0 1000; Spendable.mk true 0 0 0].

(** S2: the first order offers 1100 for 1000, the margin is 100. *)
Definition s2_chain : Context :=
  chain [("0xA", "0xX", 1100); ("0xB", "0xY", 1000)].
Definition s2_store : Store :=
  mkStore
    [order "0xA" "0xX" "0xY" "0xL" 1100 1000 0 ERC20 ERC20 false 0 0 1;
     order "0xB" "0xY" "0xX" "0xL" 1000 1000 0 ERC20 ERC20 false 0 2 3]
    [unqueried; unqueried; unqueried; unqueried].

(** S3: the fee is paid in [tokenS] and the owner holds 600 of it; the order
    uses one spendable record in both roles. *)
Definition s3_chain : Context :=
  chain [("0xA", "0xX", 600); ("0xB", "0xY", 1000)].
Definition s3_store : Store :=
  mkStore
    [order "0xA" "0xX" "0xY" "0xX" 1000 1000 100 ERC20 ERC20 false 0 0 0;
     order "0xB" "0xY" "0xX" "0xL" 1000 1000 0 ERC20 ERC20 false 0 1 2]
    [unqueried; unqueried; unqueried].

(** The store of S3 once the spendable of the first order has been read. *)
Definition s3_queried : Store :=
  mkStore (orders s3_store) [Spendable.mk true 600 0 600; unqueried; unqueried].
Definition s3_order : Order.t :=
  order "0xA" "0xX" "0xY" "0xX" 1000 1000 100 ERC20 ERC20 false 0 0 0.

(** S2 with a security token: the first order sells an ERC1400 token. *)
Definition s7_store : Store :=
  mkStore
    [order "0xA" "0xX" "0xY" "0xL" 1100 1000 0 ERC1400 ERC20 false 0 0 1;
     order "0xB" "0xY" "0xX" "0xL" 1000 1000 0 ERC20 ERC1400 false 0 2 3]
    [unqueried; unqueried; unqueried; unqueried].

(** Two all-or-none orders in one ring: the first asks for 1000 but the
    second only trades 500, so the first is filled by half. *)
Definition aon_chain : Context :=
  chain [("0xA", "0xX", 1000); ("0xB", "0xY", 500)].
Definition aon_store : Store :=
  mkStore
    [order "0xA" "0xX" "0xY" "0xL" 1000 1000 0 ERC20 ERC20 true 0 0 1;
     order "0xB" "0xY" "0xX" "0xL" 500 500 0 ERC20 ERC20 true 0 2 3]
    [unqueried; unqueried; unqueried; unqueried].

(** The ring of the two orders of a batch. *)
Definition ring01 : Ring.t := newRing [0; 1]%nat.

(** The all-or-none batch once its ring has been settled
    ([calculateRings]), and once the all-or-none loop has run. *)
Definition aon_settled : Store * list Ring.t :=
  Eval cbv in
    match calculateRings aon_chain aon_store [ring01] with
    | Ok s => s
    | Throw _ => (aon_store, [])
    end.
Definition aon_final : Store * list Ring.t :=
  Eval cbv in
    match checkRings 10 aon_settled.1 aon_settled.2 with
    | Some (Ok s, _) => s
    | _ => aon_settled
    end.

(** The first order of the batch in its final state. *)
Definition aon_first : Order.t :=
  Eval cbv in default s3_order (orders aon_final.1 !! 0%nat).

End Scenario.

(** ** Books of balances: further vocabulary *)

(** The sum of the amounts a run of [addBalance] calls wrote for a triple. *)
Definition writtenAmount (trace : list BalanceBook.Balance)
    (owner token tranche : string) : Z :=
  fold_right (λ x acc,
      if bool_decide (BalanceBook.owner x = owner) &&
         bool_decide (BalanceBook.token x = token) &&
         bool_decide (BalanceBook.tranche x = tranche)
      then BalanceBook.amount x + acc else acc)
    0 trace.

(** The sum of all balances held in [tok], over every owner and tranche. *)
Definition tokenTotal (b : BalanceBook.t) (tok : string) : Z :=
  fold_right (λ x acc,
      if bool_decide (BalanceBook.token x = tok)
      then BalanceBook.amount x + acc else acc)
    0 (BalanceBook.getAllBalances b).

(** The loop that replays transfers on a book: in [collectReport]
    ([balancesAfter]) and in [validateSettlement] ([balances]). *)
Definition applyTransfers (b : BalanceBook.t) (transfers : list TransferItem.t)
  : BalanceBook.t :=
  fold_left (λ b transfer,
      let b := BalanceBook.addBalance b (TransferItem.from transfer)
                 (TransferItem.token transfer) (TransferItem.fromTranche transfer)
                 (- TransferItem.amount transfer) in
      BalanceBook.addBalance b (TransferItem.to transfer)
        (TransferItem.token transfer) (TransferItem.toTranche transfer)
        (TransferItem.amount transfer))
    transfers b.

(** The triple a balance is filed under. *)
Definition tripleOf (x : BalanceBook.Balance) : string * string * string :=
  (BalanceBook.owner x, BalanceBook.token x, BalanceBook.tranche x).

(** A book as [addBalance] keeps it: keys are unique at the three levels and
    no owner or token is left without an entry below it. *)
Definition wellFormed (b : BalanceBook.t) : Prop :=
  NoDup (obj_keys b) ∧
  Forall (λ e,
      e.2 ≠ [] ∧ NoDup (obj_keys e.2) ∧
      Forall (λ f, f.2 ≠ [] ∧ NoDup (obj_keys f.2)) e.2)
    b.

(** The sum of [m key value] over the entries of an object. *)
Definition sumObj {V} (m : string → V → Z) (o : list (string * V)) : Z :=
  fold_right (λ e acc, m e.1 e.2 + acc) 0 o.

(** The book after a run of [addBalance] calls on [b]. *)
Definition addAll (xs : list BalanceBook.Balance) (b : BalanceBook.t)
  : BalanceBook.t :=
  fold_left (λ acc x,
      BalanceBook.addBalance acc (BalanceBook.owner x) (BalanceBook.token x)
        (BalanceBook.tranche x) (BalanceBook.amount x))
    xs b.

(** ** Rings: further vocabulary *)

(** [os] lists the orders of the participations [ps], in ring order. *)
Definition ordersOf (st : Store) (ps : list Participation.t)
    (os : list Order.t) : Prop :=
  Forall2 (λ p o, orders st !! Participation.order p = Some o) ps os.

(** Order [o] follows [oq] in a ring: it is valid and sells what [oq] buys. *)
Definition follows (o oq : Order.t) : Prop :=
  Order.valid o = true ∧
  Order.tokenS o = Order.tokenB oq ∧
  Order.tokenTypeS o = Order.tokenTypeB oq.

(** ** Transfers: further vocabulary *)

(** What every transfer that [addTokenTransfer] records looks like: a
    positive amount between two different addresses; an ERC20 transfer
    carries no tranche and no data, an ERC1400 transfer carries data and the
    destination tranche of a successful [canSend] probe. *)
Definition properTransfer (ctx : Context) (x : TransferItem.t) : Prop :=
  0 < TransferItem.amount x ∧
  TransferItem.from x ≠ TransferItem.to x ∧
  match TransferItem.tokenType x with
  | ERC20 =>
      TransferItem.fromTranche x = zeroAddress ∧
      TransferItem.toTranche x = zeroAddress ∧
      TransferItem.data x = None
  | ERC1400 =>
      ∃ d, TransferItem.data x = Some d ∧ d ≠ "" ∧
           isSuccessCode
             (canSend ctx (TransferItem.token x) (TransferItem.from x)
                (TransferItem.to x) (TransferItem.fromTranche x)
                (TransferItem.amount x) d).1 = true ∧
           TransferItem.toTranche x =
             (canSend ctx (TransferItem.token x) (TransferItem.from x)
                (TransferItem.to x) (TransferItem.fromTranche x)
                (TransferItem.amount x) d).2
  end.

(** ** Further scenarios *)

Module Settled.

(** S2 once its ring has been settled ([calculateFillAmountAndFee]). *)
Definition s2 : Store * Ring.t :=
  Eval cbv in
    match calculateFillAmountAndFee Scenario.s2_chain Scenario.s2_store
            Scenario.ring01 with
    | Ok s => s
    | Throw _ => (Scenario.s2_store, Scenario.ring01)
    end.

(** The transfers of that ring, with the margin going to ["0xMINER"]. *)
Definition s2_transfers : list TransferItem.t :=
  Eval cbv in
    match transferTokens Scenario.s2_chain "0xMINER" s2.1 s2.2 with
    | Ok items => items
    | Throw _ => []
    end.

End Settled.

(** ** Fill amounts: further vocabulary *)

(** What a participation hands to the buyer once the fee taken from
    [tokenS] is paid ([postFeeFillAmountS] in [resize]). *)
Definition postFeeFillAmountS (ctx : Context) (o : Order.t)
    (p : Participation.t) : Z :=
  if 0 <? Order.tokenSFeePercentage o then
    Participation.fillAmountS p -
      (Participation.fillAmountS p * Order.tokenSFeePercentage o)
        `quot` feePercentageBase ctx
  else Participation.fillAmountS p.

Module Resizing.

(** The participations of S2 after [setMaxFillAmounts], had the second
    order only 500 to sell. *)
Definition ps : list Participation.t :=
  [Participation.mk 0 0 0 0 0 0 0 0 1100 1000 1100 0;
   Participation.mk 1 0 0 0 0 0 0 0 500 500 500 0].

(** The same once [resize(1, 0)] has scaled the first one down. *)
Definition resized : list Participation.t :=
  [Participation.mk 0 0 0 0 0 0 0 0 550 500 1100 0;
   Participation.mk 1 0 0 0 0 0 0 0 500 500 500 0].

End Resizing.

(** ** The all-or-none loop: further vocabulary *)

(** [r'] is [r] with its [valid] flag possibly cleared. *)
Definition ringCleared (r r' : Ring.t) : Prop :=
  ∃ v, r' = Ring.set_valid v r ∧ (v = true → Ring.valid r = true).

(** [o'] is [o] with its [valid] flag possibly cleared and another
    [filledAmountS]. *)
Definition orderReverted (o o' : Order.t) : Prop :=
  ∃ v f, o' = Order.set_valid v (Order.set_filledAmountS f o) ∧
         (v = true → Order.valid o = true).

Module Margin.

(** The first participation of S2 after the resize sweeps, and its
    predecessor. *)
Definition p : Participation.t :=
  Participation.mk 0 0 0 0 0 0 0 0 1100 1000 1100 0.
Definition prevP : Participation.t :=
  Participation.mk 1 0 0 0 0 0 0 0 1000 1000 1000 0.

(** What [calculateFees] makes of them. *)
Definition after : Store * Participation.t * bool :=
  Eval cbv in
    match calculateFees Scenario.s2_chain Scenario.s2_store p prevP with
    | Ok s => s
    | Throw _ => (Scenario.s2_store, p, false)
    end.

End Margin.

(** ** Fee payments ([payFees], [payFeesAndBurn], [addFeePayment]) *)

Definition set_rebateFee (v : Z) (p : Participation.t) : Participation.t :=
  Participation.mk (Participation.order p) (Participation.splitS p)
    (Participation.feeAmount p) (Participation.feeAmountS p)
    (Participation.feeAmountB p) v (Participation.rebateS p)
    (Participation.rebateB p) (Participation.fillAmountS p)
    (Participation.fillAmountB p) (Participation.ringSpendableS p)
    (Participation.ringSpendableFee p).
Definition set_rebateS (v : Z) (p : Participation.t) : Participation.t :=
  Participation.mk (Participation.order p) (Participation.splitS p)
    (Participation.feeAmount p) (Participation.feeAmountS p)
    (Participation.feeAmountB p) (Participation.rebateFee p) v
    (Participation.rebateB p) (Participation.fillAmountS p)
    (Participation.fillAmountB p) (Participation.ringSpendableS p)
    (Participation.ringSpendableFee p).
Definition set_rebateB (v : Z) (p : Participation.t) : Participation.t :=
  Participation.mk (Participation.order p) (Participation.splitS p)
    (Participation.feeAmount p) (Participation.feeAmountS p)
    (Participation.feeAmountB p) (Participation.rebateFee p)
    (Participation.rebateS p) v (Participation.fillAmountS p)
    (Participation.fillAmountB p) (Participation.ringSpendableS p)
    (Participation.ringSpendableFee p).
Definition set_feeBalances (v : BalanceBook.t) (r : Ring.t) : Ring.t :=
  Ring.mk (Ring.participations r) (Ring.valid r)
    (Ring.minerFeesToOrdersPercentage r) v.

(** [ToInt32], which the operators [>>] and [&] apply to their operands. *)
Definition toInt32 (x : Z) : Z := (x + 2 ^ 31) `mod` 2 ^ 32 - 2 ^ 31.

Section Fees.
Variable ctx : Context.
(** [this.context.burnRateTable.getBurnRate(token)] as a number (the table
    packs two 16-bit rates into a 32-bit value, which [toNumber] gives
    exactly) *)
Variable getBurnRate : string → Z.

(** [addFeePayment]: the guard [!amount] never holds, a [BigNumber] is an
    object. *)
Definition addFeePayment (feeBalances : BalanceBook.t) (token : string)
    (to : option string) (amount : Z) : BalanceBook.t :=
  if negb (truthy (Some token)) || negb (truthy to) then feeBalances
  else BalanceBook.addBalance feeBalances (default "" to) token zeroAddress amount.

(** The loop of [payFeesAndBurn] that pays the miner's fee out to the orders
    with a negative [waiveFeePercentage]. *)
Definition payFeesToOrders (st : Store) (ps : list Participation.t)
    (token : string) (minerFee : Z) (feeBalances : BalanceBook.t)
  : result BalanceBook.t :=
  foldM (λ feeBalances otherP,
      otherO ← orderOf st otherP;
      if Order.waiveFeePercentage otherO <? 0 then
        feeToOwner ← dividedToIntegerBy
          (minerFee * - Order.waiveFeePercentage otherO) (feePercentageBase ctx);
        Ok (addFeePayment feeBalances token (Some (Order.owner otherO)) feeToOwner)
      else Ok feeBalances)
    ps feeBalances.

(** [payFeesAndBurn(mining, p, token, totalAmount, walletSplitPercentage)]
    with [mining.feeRecipient] as argument; the diagnostics are left out.
    The result is the ring with its new [feeBalances] and the rebate. *)
Definition payFeesAndBurn (feeRecipient : string) (st : Store) (r : Ring.t)
    (p : Participation.t) (token : string) (totalAmount : Z)
    (walletSplitPercentage : Z) : result (Ring.t * Z) :=
  if totalAmount =? 0 then Ok (r, 0)
  else
    o ← orderOf st p;
    let amount :=
      if Order.P2P o && negb (truthy (Order.walletAddr o)) then 0
      else totalAmount in
    let burnAddress := feeHolder ctx in
    walletFee ← dividedToIntegerBy (amount * walletSplitPercentage) 100;
    let minerFee := amount - walletFee in
    minerFee ←
      (if 0 <? Order.waiveFeePercentage o then
         dividedToIntegerBy
           (minerFee * (feePercentageBase ctx - Order.waiveFeePercentage o))
           (feePercentageBase ctx)
       else if Order.waiveFeePercentage o <? 0 then Ok 0
       else Ok minerFee);
    let burnRateToken := getBurnRate token in
    let burnRate :=
      if Order.P2P o then Z.shiftr (toInt32 burnRateToken) 16
      else Z.land (toInt32 burnRateToken) 65535 in
    let rebateRate := 0 in
    minerBurn ← dividedToIntegerBy (minerFee * burnRate) (feePercentageBase ctx);
    minerRebate ← dividedToIntegerBy (minerFee * rebateRate) (feePercentageBase ctx);
    let minerFee := minerFee - minerBurn - minerRebate in
    walletBurn ← dividedToIntegerBy (walletFee * burnRate) (feePercentageBase ctx);
    walletRebate ← dividedToIntegerBy (walletFee * rebateRate) (feePercentageBase ctx);
    let feeToWallet := walletFee - walletBurn - walletRebate in
    '(feeBalances, feeToMiner) ←
      (if (0 <? Ring.minerFeesToOrdersPercentage r) && (0 <? minerFee) then
         feeBalances ← payFeesToOrders st (Ring.participations r) token minerFee
                         (Ring.feeBalances r);
         feeToMiner ← dividedToIntegerBy
           (minerFee *
              (feePercentageBase ctx - Ring.minerFeesToOrdersPercentage r))
           (feePercentageBase ctx);
         Ok (feeBalances, feeToMiner)
       else Ok (Ring.feeBalances r, minerFee));
    let feeBalances := addFeePayment feeBalances token (Order.walletAddr o) feeToWallet in
    let feeBalances := addFeePayment feeBalances token (Some feeRecipient) feeToMiner in
    let feeBalances :=
      addFeePayment feeBalances token (Some burnAddress) (minerBurn + walletBurn) in
    let totalFeePaid := feeToWallet + minerFee + (minerBurn + walletBurn) in
    _ ← assert (totalFeePaid <=? totalAmount)
          "Total fee paid cannot exceed the total fee amount";
    Ok (set_feeBalances feeBalances r, totalAmount - totalFeePaid).

(** [walletPercentage] in [payFees]. *)
Definition walletPercentage (o : Order.t) : Z :=
  if Order.P2P o then 100
  else if truthy (Order.walletAddr o) then Order.walletSplitPercentage o
  else 0.

(** One pass of the loop of [payFees]: the three rebates of participation
    [i] are written into it.  ([payFeesAndBurn] reads of the participations
    only their orders, so the participation is put back into the ring once,
    after the third call.) *)
Definition payFeesStep (feeRecipient : string) (st : Store) (r : Ring.t)
    (i : nat) : result Ring.t :=
  p ← deref (Ring.participations r) i; o ← orderOf st p;
  '(r, rebateFee) ← payFeesAndBurn feeRecipient st r p (Order.feeToken o)
                      (Participation.feeAmount p) (walletPercentage o);
  let p := set_rebateFee rebateFee p in
  '(r, rebateS) ← payFeesAndBurn feeRecipient st r p (Order.tokenS o)
                    (Participation.feeAmountS p) (walletPercentage o);
  let p := set_rebateS rebateS p in
  '(r, rebateB) ← payFeesAndBurn feeRecipient st r p (Order.tokenB o)
                    (Participation.feeAmountB p) (walletPercentage o);
  let p := set_rebateB rebateB p in
  Ok (Ring.set_participations (<[i := p]> (Ring.participations r)) r).

Definition payFees (feeRecipient : string) (st : Store) (r : Ring.t)
  : result Ring.t :=
  foldM (payFeesStep feeRecipient st)
    (seq 0 (length (Ring.participations r))) r.

End Fees.

(** What the orders of the ring with a negative [waiveFeePercentage] receive
    of the miner's fee, in units of [feePercentageBase]. *)
Fixpoint sharesOf (st : Store) (ps : list Participation.t) : Z :=
  match ps with
  | [] => 0
  | p :: ps' =>
      match orders st !! Participation.order p with
      | Some o =>
          if Order.waiveFeePercentage o <? 0
          then - Order.waiveFeePercentage o + sharesOf st ps'
          else sharesOf st ps'
      | None => sharesOf st ps'
      end
  end.

Module FeeScenario.

(** A burn rate table that burns 5% of every matching fee and nothing of a
    P2P fee. *)
Definition getBurnRate (token : string) : Z := 50.

(** The first order of S3 pays its fee of 54 in ["0xX"]. *)
Definition paid : Ring.t * Z :=
  Eval cbv in
    match payFeesAndBurn Scenario.s3_chain getBurnRate "0xMINER"
            Scenario.s3_store Scenario.ring01 (Participation.init 0)
            "0xX" 54 0 with
    | Ok s => s
    | Throw _ => (Scenario.ring01, 0)
    end.

(** A P2P order without wallet that pays 10% of what it sells. *)
Definition p2p_order : Order.t :=
  Order.mk "0xA" "0xA" "" None None "0xX" "0xY" "0xL"
    1000 1000 0 zeroAddress zeroAddress zeroAddress
    ERC20 ERC20 ERC20 None false true
    0 100 0 0 0 true 0 0 1 0 0.
Definition p2p_store : Store :=
  mkStore [p2p_order] [Scenario.unqueried; Scenario.unqueried].

(** S3 once its ring has been settled, and the ring after [payFees]. *)
Definition s3_settled : Store * Ring.t :=
  Eval cbv in
    match calculateFillAmountAndFee Scenario.s3_chain Scenario.s3_store
            Scenario.ring01 with
    | Ok s => s
    | Throw _ => (Scenario.s3_store, Scenario.ring01)
    end.
Definition s3_paid : Ring.t :=
  Eval cbv in
    match payFees Scenario.s3_chain getBurnRate "0xMINER"
            s3_settled.1 s3_settled.2 with
    | Ok r => r
    | Throw _ => s3_settled.2
    end.

End FeeScenario.

(** [p'] is [p] with the three rebates [payFees] gave it. *)
Definition rebated (p p' : Participation.t) : Prop :=
  ∃ rebateFee rebateS rebateB,
    p' = set_rebateB rebateB (set_rebateS rebateS (set_rebateFee rebateFee p)) ∧
    0 ≤ rebateFee ∧ 0 ≤ rebateS ∧ 0 ≤ rebateB ∧
    (Participation.feeAmount p = 0 → rebateFee = 0) ∧
    (Participation.feeAmountS p = 0 → rebateS = 0) ∧
    (Participation.feeAmountB p = 0 → rebateB = 0).

(** ** Broker spendables ([updateBrokerSpendables]) *)

Definition set_brokerSpendableS (v : nat) (o : Order.t) : Order.t :=
  Order.mk (Order.owner o) (Order.tokenRecipient o) (Order.broker o)
    (Order.brokerInterceptor o) (Order.walletAddr o)
    (Order.tokenS o) (Order.tokenB o) (Order.feeToken o)
    (Order.amountS o) (Order.amountB o) (Order.feeAmount o)
    (Order.trancheS o) (Order.trancheB o) (Order.trancheFee o)
    (Order.tokenTypeS o) (Order.tokenTypeB o) (Order.tokenTypeFee o)
    (Order.transferDataS o) (Order.allOrNone o) (Order.P2P o)
    (Order.feePercentage o) (Order.tokenSFeePercentage o)
    (Order.tokenBFeePercentage o) (Order.walletSplitPercentage o)
    (Order.waiveFeePercentage o) (Order.valid o) (Order.filledAmountS o)
    (Order.tokenSpendableS o) (Order.tokenSpendableFee o)
    v (Order.brokerSpendableFee o).
Definition set_brokerSpendableFee (v : nat) (o : Order.t) : Order.t :=
  Order.mk (Order.owner o) (Order.tokenRecipient o) (Order.broker o)
    (Order.brokerInterceptor o) (Order.walletAddr o)
    (Order.tokenS o) (Order.tokenB o) (Order.feeToken o)
    (Order.amountS o) (Order.amountB o) (Order.feeAmount o)
    (Order.trancheS o) (Order.trancheB o) (Order.trancheFee o)
    (Order.tokenTypeS o) (Order.tokenTypeB o) (Order.tokenTypeFee o)
    (Order.transferDataS o) (Order.allOrNone o) (Order.P2P o)
    (Order.feePercentage o) (Order.tokenSFeePercentage o)
    (Order.tokenBFeePercentage o) (Order.walletSplitPercentage o)
    (Order.waiveFeePercentage o) (Order.valid o) (Order.filledAmountS o)
    (Order.tokenSpendableS o) (Order.tokenSpendableFee o)
    (Order.brokerSpendableS o) v.

(** [interface BrokerSpendable]; [spendable] is a reference into the store
    of spendables. *)
Record BrokerSpendable := mkBrokerSpendable
  { bsBroker : string; bsOwner : string; bsToken : string; bsSpendable : nat }.

(** The record a broker spendable starts as. *)
Definition newSpendable : Spendable.t := Spendable.mk false 0 0 0.

(** The search loop of [addBrokerSpendable]: the first entry for the
    triple. *)
Fixpoint findBrokerSpendable (brokerSpendables : list BrokerSpendable)
    (broker owner token : string) : option nat :=
  match brokerSpendables with
  | [] => None
  | spendable :: rest =>
      if bool_decide (bsBroker spendable = broker) &&
         bool_decide (bsOwner spendable = owner) &&
         bool_decide (bsToken spendable = token)
      then Some (bsSpendable spendable)
      else findBrokerSpendable rest broker owner token
  end.

(** [addBrokerSpendable(broker, owner, token)]: the spendable found, or a new
    one allocated at the end of the store. *)
Definition addBrokerSpendable (spendables : list Spendable.t)
    (brokerSpendables : list BrokerSpendable) (broker owner token : string)
  : list Spendable.t * list BrokerSpendable * nat :=
  match findBrokerSpendable brokerSpendables broker owner token with
  | Some spendable => (spendables, brokerSpendables, spendable)
  | None =>
      let spendable := length spendables in
      (spendables ++ [newSpendable],
       brokerSpendables ++ [mkBrokerSpendable broker owner token spendable],
       spendable)
  end.

(** The loop of [updateBrokerSpendables] over the orders. *)
Fixpoint updateBrokerSpendablesLoop (orders : list Order.t)
    (spendables : list Spendable.t) (brokerSpendables : list BrokerSpendable)
  : list Order.t * list Spendable.t :=
  match orders with
  | [] => ([], spendables)
  | order :: rest =>
      if truthy (Order.brokerInterceptor order) then
        let '(spendables, brokerSpendables, spendableS) :=
          addBrokerSpendable spendables brokerSpendables
            (Order.broker order) (Order.owner order) (Order.tokenS order) in
        let order := set_brokerSpendableS spendableS order in
        let '(spendables, brokerSpendables, spendableFee) :=
          addBrokerSpendable spendables brokerSpendables
            (Order.broker order) (Order.owner order) (Order.feeToken order) in
        let order := set_brokerSpendableFee spendableFee order in
        let '(rest, spendables) :=
          updateBrokerSpendablesLoop rest spendables brokerSpendables in
        (order :: rest, spendables)
      else
        let '(rest, spendables) :=
          updateBrokerSpendablesLoop rest spendables brokerSpendables in
        (order :: rest, spendables)
  end.

Definition updateBrokerSpendables (st : Store) : Store :=
  let '(orders, spendables) :=
    updateBrokerSpendablesLoop (orders st) (spendables st) [] in
  mkStore orders spendables.

(** The broker spendables the orders refer to, each with the triple it is
    meant for. *)
Definition brokerRefs (orders : list Order.t)
  : list (string * string * string * nat) :=
  flat_map (λ o,
      if truthy (Order.brokerInterceptor o) then
        [(Order.broker o, Order.owner o, Order.tokenS o, Order.brokerSpendableS o);
         (Order.broker o, Order.owner o, Order.feeToken o, Order.brokerSpendableFee o)]
      else [])
    orders.

(** ** Merging the transfers of the rings ([simulateAndReport]) *)

Definition set_amount (v : Z) (x : TransferItem.t) : TransferItem.t :=
  TransferItem.mk (TransferItem.token x) (TransferItem.from x)
    (TransferItem.to x) v (TransferItem.tokenType x)
    (TransferItem.fromTranche x) (TransferItem.toTranche x)
    (TransferItem.data x).

(** The test of the merging loop: [toTranche] is not compared. *)
Definition sameTransfer (transferItem ringTransferItem : TransferItem.t) : bool :=
  bool_decide (TransferItem.token transferItem = TransferItem.token ringTransferItem) &&
  bool_decide (TransferItem.from transferItem = TransferItem.from ringTransferItem) &&
  bool_decide (TransferItem.to transferItem = TransferItem.to ringTransferItem) &&
  bool_decide (TransferItem.tokenType transferItem =
               TransferItem.tokenType ringTransferItem) &&
  bool_decide (TransferItem.fromTranche transferItem =
               TransferItem.fromTranche ringTransferItem) &&
  bool_decide (TransferItem.data transferItem = TransferItem.data ringTransferItem).

(** The inner loop: every item that passes the test takes the amount (the
    loop has no [break]); the answer is the list and [addNew]. *)
Fixpoint mergeInto (transferItems : list TransferItem.t)
    (ringTransferItem : TransferItem.t) (addNew : bool)
  : list TransferItem.t * bool :=
  match transferItems with
  | [] => ([], addNew)
  | transferItem :: rest =>
      if sameTransfer transferItem ringTransferItem then
        let transferItem :=
          set_amount (TransferItem.amount transferItem +
                      TransferItem.amount ringTransferItem) transferItem in
        let '(rest, addNew) := mergeInto rest ringTransferItem false in
        (transferItem :: rest, addNew)
      else
        let '(rest, addNew) := mergeInto rest ringTransferItem addNew in
        (transferItem :: rest, addNew)
  end.

(** The loop over the transfers of one ring. *)
Definition mergeTransferItems (transferItems ringTransferItems : list TransferItem.t)
  : list TransferItem.t :=
  fold_left (λ transferItems ringTransferItem,
      let '(transferItems, addNew) :=
        mergeInto transferItems ringTransferItem true in
      if addNew then transferItems ++ [ringTransferItem] else transferItems)
    ringTransferItems transferItems.

(** What the merging loop compares of a transfer. *)
Definition routeOf (x : TransferItem.t)
  : string * string * string * TokenType * string * option string :=
  (TransferItem.token x, TransferItem.from x, TransferItem.to x,
   TransferItem.tokenType x, TransferItem.fromTranche x, TransferItem.data x).

(** The amount a list of transfers moves along the routes that [P]
    selects. *)
Definition routeSum
    (P : string * string * string * TokenType * string * option string → bool)
    (items : list TransferItem.t) : Z :=
  fold_right (λ x acc,
      if P (routeOf x) then TransferItem.amount x + acc else acc)
    0 items.

(** ** The fills of a batch *)

(** What the valid rings of a batch sell, margins included, of the order
    with index [j]. *)
Fixpoint batchFill (rings : list Ring.t) (j : nat) : Z :=
  match rings with
  | [] => 0
  | ring :: rest =>
      (if Ring.valid ring then totalFill (Ring.participations ring) j else 0)
      + batchFill rest j
  end.

Module Filling.

(** What [setMaxFillAmounts] makes of the first participation of S3. *)
Definition s3_max : Store * Participation.t :=
  Eval cbv in
    match setMaxFillAmounts Scenario.s3_chain Scenario.s3_store
            (Participation.init 0) with
    | Ok s => s
    | Throw _ => (Scenario.s3_store, Participation.init 0)
    end.

End Filling.


(** ** The all-or-none loop: rings and their orders *)


Module Globality.









End Globality.
(** * Properties *)

(** ** Reasoning about runs *)

Lemma bind_Ok {A B} (m : result A) (k : A → result B) (b : B) :
  m ≫= k = Ok b → ∃ a, m = Ok a ∧ k a = Ok b.
Proof. destruct m as [a|e]; [by exists a|done]. Qed.

Lemma Ok_bind {A B} (a : A) (f : A → result B) : Ok a ≫= f = f a.
Proof. done. Qed.

Lemma assert_Ok (c : bool) (msg : string) (u : unit) :
  assert c msg = Ok u → c = true.
Proof. by destruct c. Qed.

Lemma deref_Ok {A} (xs : list A) (i : nat) (a : A) :
  deref xs i = Ok a ↔ xs !! i = Some a.
Proof. unfold deref. destruct (xs !! i); split; congruence. Qed.

Lemma dividedToIntegerBy_Ok (x y q : Z) :
  dividedToIntegerBy x y = Ok q → y ≠ 0 ∧ q = Z.quot x y.
Proof. unfold dividedToIntegerBy. case_decide; [done|]. by intros [= <-]. Qed.

Lemma bigNumber_Ok (n m : Z) :
  bigNumber n = Ok m → m = n ∧ tooManyDigits n = false.
Proof. unfold bigNumber. destruct (tooManyDigits n); [done|]. by intros [= <-]. Qed.


Lemma bigNumber_tooManyDigits (n : Z) :
  tooManyDigits n = true → bigNumber n = Throw BigNumberError.
Proof. unfold bigNumber. by intros ->. Qed.

(** Splits every successful bind in the hypotheses into its two runs. *)
Ltac inv_run :=
  repeat match goal with
  | H : _ ≫= _ = Ok _ |- _ =>
      let a := fresh "a" in let Ha := fresh "Hrun" in
      apply bind_Ok in H as (a & Ha & H)
  | H : Ok _ = Ok _ |- _ => injection H as H; try subst
  | H : Throw _ = Ok _ |- _ => discriminate H
  | H : assert _ _ = Ok _ |- _ => apply assert_Ok in H
  | H : deref _ _ = Ok _ |- _ => apply deref_Ok in H
  | H : bigNumber _ = Ok _ |- _ => apply bigNumber_Ok in H as [-> _]
  | a : (_ * _)%type |- _ => destruct a
  | a : unit |- _ => destruct a
  end.

(** A loop over [full]: an invariant that holds of the elements handled so
    far carries over to the whole run. *)
Lemma foldM_invariant {S X} (body : S → X → result S)
    (Inv : list X → S → Prop) (full : list X) (s0 s' : S) :
  Inv [] s0 →
  (∀ pre x post s t, full = pre ++ x :: post → Inv pre s →
     body s x = Ok t → Inv (pre ++ [x]) t) →
  foldM body full s0 = Ok s' →
  Inv full s'.
Proof.
  intros H0 Hstep.
  enough (G : ∀ rest pre s, full = pre ++ rest → Inv pre s →
                foldM body rest s = Ok s' → Inv full s').
  { apply (G full [] s0); [done|done]. }
  induction rest as [|x rest IH]; intros pre s Hfull Hinv Hrun.
  - simpl in Hrun. rewrite app_nil_r in Hfull. by simplify_eq.
  - simpl in Hrun. apply bind_Ok in Hrun as (t & Hx & Hrun).
    apply (IH (pre ++ [x]) t); [by rewrite <- app_assoc|eauto|done].
Qed.

(** The same for a loop whose passes all succeed. *)
Lemma foldM_total {S X} (body : S → X → result S)
    (Inv : list X → S → Prop) (full : list X) (s0 : S) :
  Inv [] s0 →
  (∀ pre x post s, full = pre ++ x :: post → Inv pre s →
     ∃ t, body s x = Ok t ∧ Inv (pre ++ [x]) t) →
  ∃ s', foldM body full s0 = Ok s' ∧ Inv full s'.
Proof.
  intros H0 Hstep.
  enough (G : ∀ rest pre s, full = pre ++ rest → Inv pre s →
                ∃ s', foldM body rest s = Ok s' ∧ Inv full s').
  { apply (G full [] s0); [done|done]. }
  induction rest as [|x rest IH]; intros pre s Hfull Hinv.
  - exists s. rewrite app_nil_r in Hfull. by subst.
  - destruct (Hstep pre x rest s Hfull Hinv) as (t & Hx & Ht).
    simpl. rewrite Hx. simpl.
    apply (IH (pre ++ [x]) t); [by rewrite <- app_assoc|done].
Qed.

(** Position of an element in a counting loop. *)
Lemma seq_split (n x : nat) (pre post : list nat) :
  seq 0 n = pre ++ x :: post →
  pre = seq 0 x ∧ (x < n)%nat ∧ x ∉ pre.
Proof.
  intros Heq.
  assert (Hlen : x = length pre).
  { assert (Hx : seq 0 n !! length pre = Some x).
    { rewrite Heq. by rewrite list_lookup_middle. }
    apply lookup_seq in Hx. lia. }
  assert (Hpre : pre = seq 0 x).
  { assert (Ht : take x (seq 0 n) = pre).
    { rewrite Heq, Hlen. by rewrite take_app_length. }
    rewrite <- Ht. rewrite take_seq. f_equal.
    assert (length (seq 0 n) = length (pre ++ x :: post)) as Hl by by rewrite Heq.
    rewrite length_seq, length_app in Hl. simpl in Hl. lia. }
  split; [done|]. split.
  - assert (length (seq 0 n) = length (pre ++ x :: post)) as Hl by by rewrite Heq.
    rewrite length_seq, length_app in Hl. simpl in Hl. lia.
  - rewrite Hpre. intros Hin%elem_of_seq. lia.
Qed.

(** ** JavaScript objects *)

Section JsObjectFacts.
Context {V : Type}.
Implicit Types o : list (string * V).

Lemma obj_get_set o k v k' :
  obj_get (obj_set o k v) k' = if decide (k = k') then Some v else obj_get o k'.
Proof.
  induction o as [|[k0 v0] o IH]; simpl.
  - by destruct (decide (k = k')).
  - destruct (decide (k0 = k)) as [->|Hne]; simpl.
    + by destruct (decide (k = k')).
    + destruct (decide (k0 = k')) as [->|]; [|done].
      by rewrite decide_False.
Qed.

Lemma obj_get_Some_keys o k : is_Some (obj_get o k) ↔ k ∈ obj_keys o.
Proof.
  unfold obj_keys. induction o as [|[k0 v0] o IH]; simpl.
  - split; [by intros [? ?]|by intros ?%elem_of_nil].
  - destruct (decide (k0 = k)) as [->|Hne].
    + split; [intros _; apply list_elem_of_here|by eauto].
    + rewrite IH. split; [apply list_elem_of_further|].
      intros [?|?]%elem_of_cons; [congruence|done].
Qed.

Lemma obj_keys_set o k v :
  obj_keys (obj_set o k v) =
    if decide (k ∈ obj_keys o) then obj_keys o else obj_keys o ++ [k].
Proof.
  unfold obj_keys. induction o as [|[k0 v0] o IH].
  - cbn [obj_set map fst]. case_decide as Hin; [|done].
    by apply elem_of_nil in Hin.
  - cbn [obj_set]. destruct (decide (k0 = k)) as [->|Hne]; cbn [map fst].
    + rewrite decide_True; [done|apply list_elem_of_here].
    + rewrite IH. destruct (decide (k ∈ map fst o)) as [Hin|Hnin].
      * rewrite decide_True; [done|by apply list_elem_of_further].
      * rewrite decide_False; [done|].
        intros [?|?]%elem_of_cons; [congruence|done].
Qed.

End JsObjectFacts.

(** ** BalanceBook: the tokens of a book *)

Section BalanceBookFacts.
Import BalanceBook.

Lemma obj_set_NoDup {V} (o : list (string * V)) k v :
  NoDup (obj_keys o) → NoDup (obj_keys (obj_set o k v)).
Proof.
  intros Hnd. rewrite obj_keys_set. case_decide as Hin; [done|].
  apply NoDup_app. split; [done|]. split; [|apply NoDup_singleton].
  intros x Hx ->%list_elem_of_singleton. done.
Qed.

Lemma obj_set_elem {V} (o : list (string * V)) k v e :
  e ∈ obj_set o k v → e = (k, v) ∨ e ∈ o.
Proof.
  induction o as [|[k0 v0] o IH]; simpl.
  - intros ->%list_elem_of_singleton. by left.
  - destruct (decide (k0 = k)) as [->|Hne].
    + intros [->|?]%elem_of_cons; [by left|right; by apply list_elem_of_further].
    + intros [->|?]%elem_of_cons; [right; apply list_elem_of_here|].
      destruct (IH H) as [->|?]; [by left|right; by apply list_elem_of_further].
Qed.

Lemma obj_get_elem {V} (o : list (string * V)) k v :
  obj_get o k = Some v → (k, v) ∈ o.
Proof.
  induction o as [|[k0 v0] o IH]; simpl; [done|].
  destruct (decide (k0 = k)) as [->|Hne].
  - intros [= ->]. apply list_elem_of_here.
  - intros ?. apply list_elem_of_further. eauto.
Qed.

Lemma obj_elem_get {V} (o : list (string * V)) k v :
  NoDup (obj_keys o) → (k, v) ∈ o → obj_get o k = Some v.
Proof.
  unfold obj_keys. induction o as [|[k0 v0] o IH]; simpl.
  - by intros _ ?%elem_of_nil.
  - intros [Hnin Hnd]%NoDup_cons [Heq|Hin]%elem_of_cons.
    + simplify_eq. by rewrite decide_True.
    + destruct (decide (k0 = k)) as [->|Hne]; [|by apply IH].
      exfalso. apply Hnin. apply list_elem_of_fmap. by exists (k, v).
Qed.

Lemma addBalance_uniqueKeys b owner token tranche amount :
  uniqueKeys b → uniqueKeys (addBalance b owner token tranche amount).
Proof.
  intros [Hout Hin]. unfold addBalance. split.
  - by apply obj_set_NoDup.
  - apply Forall_forall. intros e [->|He]%obj_set_elem.
    + simpl. apply obj_set_NoDup.
      destruct (obj_get b owner) as [toks|] eqn:Hget; simpl; [|apply NoDup_nil_2].
      apply obj_get_elem in Hget.
      by apply (proj1 (Forall_forall _ _) Hin _ Hget).
    + by apply (proj1 (Forall_forall _ _) Hin _ He).
Qed.

Lemma written_snoc trace x :
  written (trace ++ [x]) =
    addBalance (written trace) (owner x) (token x) (tranche x) (amount x).
Proof. unfold written. by rewrite fold_left_app. Qed.

Lemma written_uniqueKeys trace : uniqueKeys (written trace).
Proof.
  induction trace as [|x trace IH] using rev_ind.
  - split; [apply NoDup_nil_2|apply Forall_nil_2].
  - rewrite written_snoc. by apply addBalance_uniqueKeys.
Qed.

Lemma addBalance_holds b owner token tranche amount o' t' :
  holds (addBalance b owner token tranche amount) o' t' ↔
  holds b o' t' ∨ (o' = owner ∧ t' = token).
Proof.
  unfold holds, addBalance. split.
  - intros (toks & Hget & Hin). rewrite obj_get_set in Hget.
    destruct (decide (owner = o')) as [->|Hne]; [|left; eauto].
    injection Hget as <-. rewrite obj_keys_set in Hin.
    destruct (obj_get b o') as [toks|] eqn:Hb; cbn [default] in Hin.
    + case_decide as Hk; [left; eauto|].
      apply elem_of_app in Hin as [?| ->%list_elem_of_singleton]; [left; eauto|by right].
    + case_decide as Hk; [by apply elem_of_nil in Hk|].
      apply elem_of_app in Hin as [?%elem_of_nil| ->%list_elem_of_singleton];
        [done|by right].
  - intros [(toks & Hget & Hin)|[-> ->]].
    + rewrite obj_get_set. destruct (decide (owner = o')) as [->|Hne]; [|eauto].
      eexists. split; [done|]. rewrite Hget. simpl. rewrite obj_keys_set.
      case_decide; [done|]. apply elem_of_app. by left.
    + rewrite obj_get_set, decide_True by done.
      eexists. split; [done|]. rewrite obj_keys_set.
      case_decide; [done|]. apply elem_of_app. right. apply list_elem_of_here.
Qed.

Lemma written_holds trace o t :
  holds (written trace) o t ↔ ∃ x, x ∈ trace ∧ owner x = o ∧ token x = t.
Proof.
  induction trace as [|x trace IH] using rev_ind.
  - split.
    + by intros (toks & Hget & _).
    + by intros (x & ?%elem_of_nil & _).
  - rewrite written_snoc, addBalance_holds, IH. split.
    + intros [(y & Hy & ? & ?)|[-> ->]].
      * exists y. split; [apply elem_of_app; by left|done].
      * exists x. split; [apply elem_of_app; right; apply list_elem_of_here|done].
    + intros (y & [Hy| ->%list_elem_of_singleton]%elem_of_app & Ho & Ht).
      * left. eauto.
      * right. by subst.
Qed.

Lemma getAllTokens_elem b tok :
  uniqueKeys b → tok ∈ getAllTokens b ↔ ∃ o, holds b o tok.
Proof.
  intros [Hout _]. unfold getAllTokens, holds. rewrite list_elem_of_In, in_flat_map.
  split.
  - intros ([o toks] & He & Hin). exists o, toks. simpl in Hin.
    split; [|by apply list_elem_of_In].
    apply obj_elem_get; [done|by apply list_elem_of_In].
  - intros (o & toks & Hget & Hin). exists (o, toks).
    split; [by apply list_elem_of_In, obj_get_elem|by apply list_elem_of_In].
Qed.

Lemma ownersHolding_elem b tok o :
  uniqueKeys b → o ∈ ownersHolding b tok ↔ holds b o tok.
Proof.
  intros [Hout _]. unfold ownersHolding, holds, obj_keys at 1.
  rewrite list_elem_of_fmap. split.
  - intros ([o' toks] & -> & [Hin He]%list_elem_of_filter). simpl in *.
    exists toks. split; [by apply obj_elem_get|done].
  - intros (toks & Hget & Hin). exists (o, toks). split; [done|].
    apply list_elem_of_filter. split; [done|by apply obj_get_elem].
Qed.

Lemma occurrences_app tok l1 l2 :
  occurrences tok (l1 ++ l2) = (occurrences tok l1 + occurrences tok l2)%nat.
Proof. unfold occurrences. by rewrite filter_app, length_app. Qed.

Lemma occurrences_NoDup tok l :
  NoDup l → occurrences tok l = if decide (tok ∈ l) then 1%nat else 0%nat.
Proof.
  unfold occurrences. induction l as [|x l IH]; intros Hnd.
  - by rewrite decide_False by apply not_elem_of_nil.
  - apply NoDup_cons in Hnd as [Hx Hnd]. rewrite filter_cons.
    destruct (decide (x = tok)) as [->|Hne]; simpl.
    + rewrite IH by done. rewrite (decide_False (P := tok ∈ l)) by done.
      by rewrite decide_True by apply list_elem_of_here.
    + rewrite IH by done. destruct (decide (tok ∈ l)) as [Hin|Hnin].
      * by rewrite decide_True by by apply list_elem_of_further.
      * rewrite decide_False; [done|].
        intros [?|?]%elem_of_cons; congruence.
Qed.

Lemma getAllTokens_occurrences b tok :
  Forall (λ e, NoDup (obj_keys e.2)) b →
  occurrences tok (getAllTokens b) = length (ownersHolding b tok).
Proof.
  unfold getAllTokens, ownersHolding.
  induction b as [|e b IH]; intros Hin; [done|].
  apply Forall_cons in Hin as [He Hin]. cbn [flat_map].
  rewrite occurrences_app, occurrences_NoDup, IH by done.
  cbn [filter list_filter].
  destruct (decide (tok ∈ obj_keys e.2)); unfold obj_keys; simpl; done.
Qed.

Lemma ownersHolding_NoDup b tok :
  NoDup (obj_keys b) → NoDup (ownersHolding b tok).
Proof.
  unfold ownersHolding, obj_keys. intros Hnd.
  apply (sublist_NoDup _ (map fst b)); [exact Hnd|].
  apply (fmap_sublist fst), sublist_filter.
Qed.

End BalanceBookFacts.

(** C9, as stated, fails: two owners holding the same token make
    [getAllTokens] list that token twice. *)
Lemma getAllTokens_lists_token_twice :
  let b := BalanceBook.written
             [BalanceBook.mkBalance "0xA" "0xT" zeroAddress 1;
              BalanceBook.mkBalance "0xB" "0xT" zeroAddress 1] in
  BalanceBook.getAllTokens b = ["0xT"; "0xT"] ∧
  ¬ NoDup (BalanceBook.getAllTokens b).
Proof.
  split; [reflexivity|].
  intros [Hnin _]%NoDup_cons. apply Hnin, list_elem_of_here.
Qed.

(** C9 (amended): in a book built by [addBalance] calls, [getAllTokens]
    lists exactly the tokens that were written, and lists a token once for
    every distinct owner holding a balance in it (the owners holding the token
    are the owners it was written for). *)
Theorem getAllTokens_once_per_owner
    (trace : list BalanceBook.Balance) (tok : string) :
  let b := BalanceBook.written trace in
  (tok ∈ BalanceBook.getAllTokens b ↔
     ∃ x, x ∈ trace ∧ BalanceBook.token x = tok) ∧
  occurrences tok (BalanceBook.getAllTokens b) =
    length (BalanceBook.ownersHolding b tok) ∧
  NoDup (BalanceBook.ownersHolding b tok) ∧
  (∀ o, o ∈ BalanceBook.ownersHolding b tok ↔
     ∃ x, x ∈ trace ∧ BalanceBook.owner x = o ∧ BalanceBook.token x = tok).
Proof.
  intros b. pose proof (written_uniqueKeys trace) as Hu.
  fold b in Hu. split; [|split; [|split]].
  - rewrite getAllTokens_elem by done. split.
    + intros (o & (x & ? & ? & ?)%written_holds). eauto.
    + intros (x & ? & ?). exists (BalanceBook.owner x).
      apply written_holds. eauto.
  - apply getAllTokens_occurrences, Hu.
  - apply ownersHolding_NoDup, Hu.
  - intros o. rewrite ownersHolding_elem by done. apply written_holds.
Qed.

(** ** An invalid ring is left alone *)

(** The participations of a ring as constructed: every amount is zero. *)
Lemma newRing_fresh (indexes : list nat) :
  Forall (λ p, p = Participation.init (Participation.order p))
    (Ring.participations (newRing indexes)) ∧
  Ring.minerFeesToOrdersPercentage (newRing indexes) = 0.
Proof.
  split; [|done]. unfold newRing. simpl.
  apply Forall_forall. intros p (i & -> & _)%list_elem_of_fmap. done.
Qed.

(** C10: when the ring is not valid, [calculateFillAmountAndFee] returns at
    once: the store (orders and spendables, hence every reservation) and the
    ring (participations, [minerFeesToOrdersPercentage]) are the ones it was
    given. *)
Theorem calculateFillAmountAndFee_invalid_ring
    (ctx : Context) (st : Store) (r : Ring.t) :
  Ring.valid r = false →
  calculateFillAmountAndFee ctx st r = Ok (st, r).
Proof. intros Hv. unfold calculateFillAmountAndFee. by rewrite Hv. Qed.

(** A ring of scenario S1 that a check has marked invalid before the call:
    it comes back as constructed, all amounts zero. *)
Lemma calculateFillAmountAndFee_invalid_ring_witness :
  calculateFillAmountAndFee Scenario.s1_chain Scenario.s1_store
    (Ring.set_valid false (newRing [0; 1]%nat)) =
  Ok (Scenario.s1_store,
      Ring.mk [Participation.init 0; Participation.init 1] false 0
        BalanceBook.empty).
Proof.
  apply (calculateFillAmountAndFee_invalid_ring Scenario.s1_chain
           Scenario.s1_store (Ring.set_valid false (newRing [0; 1]%nat))).
  reflexivity.
Defined.

(** ** The store during a ring calculation: orders are only read *)

Lemma withSpendable_orders st i f st' :
  withSpendable st i f = Ok st' → orders st' = orders st.
Proof. unfold withSpendable. intros H. by inv_run. Qed.

Lemma getSpendable_orders ctx st tt tok tr ow br bi ts bs st' v :
  OrderUtil.getSpendable ctx st tt tok tr ow br bi ts bs = Ok (st', v) →
  orders st' = orders st.
Proof.
  unfold OrderUtil.getSpendable. intros H. inv_run.
  apply withSpendable_orders in Hrun.
  destruct (truthy bi); inv_run; [|congruence].
  apply withSpendable_orders in Hrun1. congruence.
Qed.

Lemma reserveAmountFee_orders st o a st' :
  OrderUtil.reserveAmountFee st o a = Ok st' → orders st' = orders st.
Proof.
  unfold OrderUtil.reserveAmountFee. intros H. inv_run.
  apply withSpendable_orders in Hrun.
  destruct (truthy _); inv_run; [|congruence].
  apply withSpendable_orders in H. congruence.
Qed.

Lemma reserveAmountS_orders st o a st' :
  OrderUtil.reserveAmountS st o a = Ok st' → orders st' = orders st.
Proof.
  unfold OrderUtil.reserveAmountS. intros H. inv_run.
  apply withSpendable_orders in Hrun.
  destruct (truthy _); inv_run; [|congruence].
  apply withSpendable_orders in H. congruence.
Qed.

Lemma resetReservations_orders st o st' :
  OrderUtil.resetReservations st o = Ok st' → orders st' = orders st.
Proof.
  unfold OrderUtil.resetReservations. intros H. inv_run.
  apply withSpendable_orders in Hrun, Hrun0.
  destruct (truthy _); inv_run; [|congruence].
  apply withSpendable_orders in Hrun1, H. congruence.
Qed.

(** ** [calculateFees] on one pair *)

Lemma takeMargin_post p prevP p' ok :
  takeMargin p prevP = (p', ok) →
  Participation.order p' = Participation.order p ∧
  Participation.fillAmountB p' = Participation.fillAmountB p ∧
  Participation.feeAmount p' = Participation.feeAmount p ∧
  Participation.feeAmountS p' = Participation.feeAmountS p ∧
  Participation.feeAmountB p' = Participation.feeAmountB p ∧
  (ok = true →
   Participation.fillAmountS p' - Participation.feeAmountS p' =
     Participation.fillAmountB prevP).
Proof.
  unfold takeMargin. case_match; intros [= <- <-]; simpl; [|done].
  repeat split; try done. intros _. lia.
Qed.

Lemma takeMargin_sum p prevP p' :
  takeMargin p prevP = (p', true) →
  Participation.fillAmountS p' + Participation.splitS p' =
    Participation.fillAmountS p.
Proof.
  unfold takeMargin. case_match; intros [= <-]; simpl. lia.
Qed.

(** What a pass of [calculateFees] leaves behind: the orders and the bought
    amount are untouched; when it answers [true] the pair is closed and the
    matching fee of an order that is not P2P is charged in one place only. *)
Lemma calculateFees_post ctx st p prevP st' p' ok :
  calculateFees ctx st p prevP = Ok (st', p', ok) →
  orders st' = orders st ∧
  Participation.order p' = Participation.order p ∧
  Participation.fillAmountB p' = Participation.fillAmountB p ∧
  (ok = true →
   Participation.fillAmountS p' - Participation.feeAmountS p' =
     Participation.fillAmountB prevP ∧
   ∀ o, orders st !! Participation.order p = Some o → Order.P2P o = false →
     Participation.feeAmountS p' = 0 ∧
     Participation.feeAmount p' =
       (if paidInTokenB o p' then 0 else matchingFee o p') ∧
     Participation.feeAmountB p' =
       (if paidInTokenB o p' then matchingFee o p' else 0)).
Proof.
  unfold calculateFees, orderOf. intros H.
  apply bind_Ok in H as (a & Ha%deref_Ok & H).
  destruct (Order.P2P a) eqn:HP2P.
  - inv_run.
    destruct (takeMargin _ prevP) as [q okq] eqn:Hm. inv_run.
    apply takeMargin_post in Hm as (Ho & HB & _ & _ & _ & Hclose).
    simpl in *. split; [done|]. split; [done|]. split; [done|].
    intros Hok. split; [by apply Hclose|].
    intros o Ho' HP. congruence.
  - apply bind_Ok in H as (? & [-> _]%bigNumber_Ok & H).
    apply bind_Ok in H as (? & [-> _]%bigNumber_Ok & H).
    apply bind_Ok in H as (fee & [_ Hfee]%dividedToIntegerBy_Ok & H).
    apply bind_Ok in H as ([st1 sf] & HO1%getSpendable_orders & H).
    match type of H with
    | (if ?c then _ else _) = _ => destruct c
    end.
    + inv_run. split; [done|].
      split; [by match goal with |- context [if ?c then _ else _] => destruct c end|].
      split; [by match goal with |- context [if ?c then _ else _] => destruct c end|].
      done.
    + apply bind_Ok in H as (st2 & HO2%reserveAmountFee_orders & H).
      destruct (takeMargin _ prevP) as [q okq] eqn:Hm. inv_run.
      pose proof Hm as Hm'.
      apply takeMargin_post in Hm as (Ho & HB & HF & HFS & HFB & Hclose).
      split; [congruence|]. split.
      { rewrite Ho. by match goal with |- context [if ?c then _ else _] => destruct c end. }
      split.
      { rewrite HB. by match goal with |- context [if ?c then _ else _] => destruct c end. }
      intros ->. split; [by apply Hclose|].
      intros o Ho' _. assert (o = a) as -> by congruence.
      apply takeMargin_sum in Hm'.
      assert (Hsum : Participation.fillAmountS p' + Participation.splitS p' =
                     Participation.fillAmountS p).
      { rewrite Hm'.
        by match goal with |- context [if ?c then _ else _] => destruct c end. }
      assert (HB' : Participation.fillAmountB p' = Participation.fillAmountB p).
      { rewrite HB.
        by match goal with |- context [if ?c then _ else _] => destruct c end. }
      unfold paidInTokenB, matchingFee. rewrite Hsum, HB'.
      rewrite HFS, HF, HFB. simpl.
      by match goal with |- context [if ?c then _ else _] => destruct c end.
Qed.

(** A quantity that every pass of a loop preserves is preserved by the
    loop. *)
Lemma foldM_preserves {S X A} (f : S → A) (body : S → X → result S) xs s s' :
  (∀ s x t, body s x = Ok t → f t = f s) →
  foldM body xs s = Ok s' → f s' = f s.
Proof.
  intros Hbody. revert s. induction xs as [|x xs IH]; intros s H; simpl in H.
  - by inv_run.
  - apply bind_Ok in H as (t & Hx & H). rewrite (IH _ H). eauto.
Qed.

(** Turns every run of a helper that only reads the orders into the equation
    between the orders before and after. *)
Ltac orders_frame :=
  repeat match goal with
  | H : withSpendable _ _ _ = Ok _ |- _ => apply withSpendable_orders in H
  | H : OrderUtil.getSpendableS _ _ _ = Ok _ |- _ => apply getSpendable_orders in H
  | H : OrderUtil.getSpendableFee _ _ _ = Ok _ |- _ => apply getSpendable_orders in H
  | H : OrderUtil.reserveAmountFee _ _ _ = Ok _ |- _ => apply reserveAmountFee_orders in H
  | H : OrderUtil.reserveAmountS _ _ _ = Ok _ |- _ => apply reserveAmountS_orders in H
  | H : OrderUtil.resetReservations _ _ = Ok _ |- _ => apply resetReservations_orders in H
  end.

Lemma limitFillByFee_orders ctx st o p st' f a :
  limitFillByFee ctx st o p = Ok (st', f, a) → orders st' = orders st.
Proof.
  unfold limitFillByFee. intros H. inv_run.
  destruct (0 <? _); [|by inv_run].
  inv_run. orders_frame.
  repeat case_match; by inv_run.
Qed.

Lemma setMaxFillAmounts_orders ctx st p st' p' :
  setMaxFillAmounts ctx st p = Ok (st', p') → orders st' = orders st.
Proof.
  unfold setMaxFillAmounts. intros H. inv_run. orders_frame.
  case_match; inv_run; [|congruence].
  match goal with
  | H : limitFillByFee _ _ _ _ = Ok _ |- _ => apply limitFillByFee_orders in H
  end. congruence.
Qed.

Lemma forEachParticipation_orders body st ps st' ps' :
  (∀ st p st' p', body st p = Ok (st', p') → orders st' = orders st) →
  forEachParticipation body st ps = Ok (st', ps') → orders st' = orders st.
Proof.
  intros Hbody. revert st st' ps'.
  induction ps as [|p ps IH]; intros st st' ps' H; simpl in H; inv_run; [done|].
  apply Hbody in Hrun. apply IH in Hrun0. congruence.
Qed.

(** ** The fee loop of [calculateFillAmountAndFee] *)

Lemma feeStep_post ctx st r i st' r' :
  feeStep ctx (st, r) i = Ok (st', r') →
  ∃ p prevP p' ok,
    Ring.participations r !! i = Some p ∧
    Ring.participations r !!
      prevIndex i (length (Ring.participations r)) = Some prevP ∧
    calculateFees ctx st p prevP = Ok (st', p', ok) ∧
    Ring.participations r' = <[i := p']> (Ring.participations r) ∧
    (Ring.valid r' = true → Ring.valid r = true ∧ ok = true).
Proof.
  unfold feeStep. intros H. inv_run.
  do 4 eexists. split; [eassumption|]. split; [eassumption|].
  split; [eassumption|]. split; [done|].
  cbn [Ring.valid]. unfold ensure. intros [Hv ->]%andb_prop. split; [|done].
  match goal with
  | H : (if ?c then _ else _) = Ok _ |- _ => destruct c
  end; inv_run; [|done].
  destruct (canSend _ _ _ _ _ _ _) as [ESC dest]. inv_run.
  unfold ensure in Hv. by apply andb_prop in Hv as [[? _]%andb_prop _].
Qed.

Lemma feeLoop_post ctx st0 r0 st' r' :
  foldM (feeStep ctx) (seq 0 (length (Ring.participations r0))) (st0, r0)
    = Ok (st', r') →
  orders st' = orders st0 ∧
  length (Ring.participations r') = length (Ring.participations r0) ∧
  (∀ j, Participation.fillAmountB <$> Ring.participations r' !! j =
        Participation.fillAmountB <$> Ring.participations r0 !! j) ∧
  (Ring.valid r' = true →
   ∀ i p, Ring.participations r' !! i = Some p →
     settled (orders st0) (Ring.participations r0) i p).
Proof.
  set (ps0 := Ring.participations r0). set (n := length ps0).
  set (Inv := λ (pre : list nat) (s : Store * Ring.t),
    orders s.1 = orders st0 ∧
    length (Ring.participations s.2) = n ∧
    (∀ j, Participation.fillAmountB <$> Ring.participations s.2 !! j =
          Participation.fillAmountB <$> ps0 !! j) ∧
    (∀ j, Participation.order <$> Ring.participations s.2 !! j =
          Participation.order <$> ps0 !! j) ∧
    (Ring.valid s.2 = true →
     ∀ i p, i ∈ pre → Ring.participations s.2 !! i = Some p →
       settled (orders st0) ps0 i p)).
  intros Hrun.
  assert (HI : Inv (seq 0 n) (st', r')).
  { apply (foldM_invariant (feeStep ctx) Inv (seq 0 n) (st0, r0) (st', r'));
      [| |exact Hrun].
    - split; [done|]. split; [done|]. split; [done|]. split; [done|].
      by intros _ i p ?%elem_of_nil.
    - intros pre x post [st r] [st1 r1] Hsplit (HO & HL & HB & HOr & HS) Hstep.
      apply seq_split in Hsplit as (_ & Hx & Hnin). simpl in *.
      apply feeStep_post in Hstep
        as (p & prevP & p1 & ok & Hp & Hprev & Hfees & Hps & Hvalid).
      apply calculateFees_post in Hfees as (HO1 & Hord & HfB & Hok).
      unfold Inv. cbn [fst snd]. rewrite Hps. split; [|split; [|split; [|split]]].
      + congruence.
      + by rewrite length_insert.
      + intros j. destruct (decide (j = x)) as [->|Hne].
        * rewrite list_lookup_insert_eq by lia. rewrite <- HB, Hp. simpl. congruence.
        * by rewrite list_lookup_insert_ne.
      + intros j. destruct (decide (j = x)) as [->|Hne].
        * rewrite list_lookup_insert_eq by lia. rewrite <- HOr, Hp. simpl. congruence.
        * by rewrite list_lookup_insert_ne.
      + intros Hv i q Hi Hq. destruct (Hvalid Hv) as [Hv0 ->].
        destruct (Hok eq_refl) as [Hclose Hfee].
        apply elem_of_app in Hi as [Hi|Hi%list_elem_of_singleton].
        * rewrite list_lookup_insert_ne in Hq by (intros ->; done).
          by apply (HS Hv0 i q).
        * subst i. rewrite list_lookup_insert_eq in Hq by lia.
          injection Hq as <-. split.
          -- intros q0 Hq0. rewrite Hclose.
             specialize (HB (prevIndex x (length ps0))).
             rewrite HL in Hprev. fold n in Hq0, HB.
             rewrite Hprev, Hq0 in HB. simpl in HB. congruence.
          -- intros o Ho. apply Hfee. rewrite HO.
             by rewrite Hord in Ho. }
  destruct HI as (HO & HL & HB & _ & HS). simpl in *.
  split; [done|]. split; [done|]. split; [done|].
  intros Hv i p Hp. apply (HS Hv i p); [|done].
  apply elem_of_seq. apply lookup_lt_Some in Hp. lia.
Qed.

(** ** [calculateFillAmountAndFee] as a whole *)

Lemma resize_length ctx st ps i smallest ps' smallest' :
  resize ctx st ps i smallest = Ok (ps', smallest') → length ps' = length ps.
Proof.
  unfold resize. intros H. inv_run.
  case_match; inv_run; [|done]. by rewrite length_insert.
Qed.

Lemma resizeLoop_length ctx st (sm : option nat) xs ps k ps' k' :
  foldM (λ '(ps, smallest) i, resize ctx st ps i (default smallest sm)) xs (ps, k)
    = Ok (ps', k') →
  length ps' = length ps.
Proof.
  intros H.
  apply (foldM_preserves (λ s : list Participation.t * nat, length s.1)) in H;
    [done|].
  intros [ps1 k1] x [ps2 k2] Hx. simpl. by apply resize_length in Hx.
Qed.

Lemma calculateFillAmountAndFee_post ctx st r st' r' :
  calculateFillAmountAndFee ctx st r = Ok (st', r') →
  Ring.valid r' = true →
  orders st' = orders st ∧
  ∀ i p, Ring.participations r' !! i = Some p →
    (∀ q, Ring.participations r' !!
            prevIndex i (length (Ring.participations r')) = Some q →
       Participation.fillAmountS p - Participation.feeAmountS p =
         Participation.fillAmountB q) ∧
    (∀ o, orders st !! Participation.order p = Some o → Order.P2P o = false →
       Participation.feeAmountS p = 0 ∧
       Participation.feeAmount p =
         (if paidInTokenB o p then 0 else matchingFee o p) ∧
       Participation.feeAmountB p =
         (if paidInTokenB o p then matchingFee o p else 0)).
Proof.
  unfold calculateFillAmountAndFee. intros H Hv.
  destruct (Ring.valid r) eqn:Hr; simpl in H; [|inv_run; congruence].
  inv_run. cbn [Ring.set_valid Ring.participations Ring.valid] in *.
  apply andb_prop in Hv as [Hv _].
  match goal with
  | H : forEachParticipation _ _ _ = Ok _ |- _ =>
      apply (forEachParticipation_orders _ _ _ _ _
               (setMaxFillAmounts_orders ctx)) in H; rename H into HO1
  end.
  match goal with
  | H : foldM _ (reverse (seq 0 _)) _ = Ok _ |- _ =>
      apply (resizeLoop_length ctx _ None) in H; rename H into HL1
  end.
  match goal with
  | H : foldM _ (reverse (seq _ (_ - _))) _ = Ok _ |- _ =>
      apply (resizeLoop_length ctx _ (Some _)) in H; rename H into HL2
  end.
  match goal with
  | H : foldM _ _ _ = Ok st' |- _ =>
      apply (foldM_preserves orders) in H;
        [rename H into HO4|by intros; inv_run; orders_frame]
  end.
  match goal with
  | H : foldM (feeStep ctx) _ _ = Ok _ |- _ =>
      rewrite <- HL1, <- HL2 in H;
      apply (feeLoop_post ctx _ (Ring.set_participations _ r)) in H
        as (HO3 & HL3 & HB & HS)
  end.
  match goal with
  | H : foldM _ _ _ = Ok _ |- _ =>
      apply (foldM_preserves orders) in H;
        [rename H into HO2|by intros; inv_run; orders_frame]
  end.
  cbn [Ring.set_participations Ring.participations] in *.
  assert (HO : orders st' = orders st) by congruence.
  split; [done|]. intros i p Hp.
  destruct (HS Hv i p Hp) as [Hclose Hfee]. split.
  - intros q Hq. rewrite HL3 in Hq. specialize (HB (prevIndex i (length l1))).
    rewrite Hq in HB. simpl in HB.
    destruct (l1 !! prevIndex i (length l1)) as [q0|] eqn:Hq0; [|done].
    rewrite (Hclose q0 eq_refl). simpl in HB. congruence.
  - intros o Ho. apply Hfee. congruence.
Qed.

(** C1: when [calculateFillAmountAndFee] returns with the ring still valid,
    every participation [p] and its cyclic predecessor [prevP] satisfy
    [p.fillAmountS - p.feeAmountS = prevP.fillAmountB]. *)
Theorem ring_closure (ctx : Context) (st st' : Store) (r r' : Ring.t)
    (i : nat) (p prevP : Participation.t) :
  calculateFillAmountAndFee ctx st r = Ok (st', r') →
  Ring.valid r' = true →
  Ring.participations r' !! i = Some p →
  Ring.participations r' !! prevIndex i (length (Ring.participations r'))
    = Some prevP →
  Participation.fillAmountS p - Participation.feeAmountS p =
    Participation.fillAmountB prevP.
Proof.
  intros Hrun Hv Hp Hq.
  destruct (calculateFillAmountAndFee_post _ _ _ _ _ Hrun Hv) as [_ Hall].
  by apply (Hall i p Hp).
Qed.

(** Scenario S2: the ring stays valid, the first order sells 1000 (1100 less
    the margin of 100) and its predecessor, the second order, buys 1000. *)
Lemma ring_closure_witness :
  ∃ st' r' p prevP,
    calculateFillAmountAndFee Scenario.s2_chain Scenario.s2_store Scenario.ring01
      = Ok (st', r') ∧
    Ring.valid r' = true ∧
    Ring.participations r' !! 0%nat = Some p ∧
    Ring.participations r' !! 1%nat = Some prevP ∧
    Participation.splitS p = 100 ∧
    Participation.fillAmountS p - Participation.feeAmountS p =
      Participation.fillAmountB prevP.
Proof.
  do 4 eexists.
  split; [vm_compute; reflexivity|].
  split; [reflexivity|]. split; [reflexivity|]. split; [reflexivity|].
  split; [reflexivity|].
  eapply (ring_closure Scenario.s2_chain Scenario.s2_store _ Scenario.ring01 _ 0%nat);
    vm_compute; reflexivity.
Defined.

(** C6, as stated, fails: in scenario S1 the orders carry no fee; the ring
    stays valid and its non-P2P participations have [feeAmount] and
    [feeAmountB] both zero. *)
Lemma fee_mode_neither_nonzero :
  ∃ st' r',
    calculateFillAmountAndFee Scenario.s1_chain Scenario.s1_store Scenario.ring01
      = Ok (st', r') ∧
    Ring.valid r' = true ∧
    Forall (λ o, Order.P2P o = false) (orders Scenario.s1_store) ∧
    Forall (λ p, Participation.fillAmountS p = 1000 ∧
                 Participation.feeAmount p = 0 ∧
                 Participation.feeAmountB p = 0)
      (Ring.participations r').
Proof.
  do 2 eexists. split; [vm_compute; reflexivity|]. split; [reflexivity|].
  split; repeat constructor.
Qed.

(** C6 (amended): when [calculateFillAmountAndFee] returns with the ring
    still valid, every participation of a non-P2P order has [feeAmountS = 0];
    [feeAmount] and [feeAmountB] are never both nonzero, and their sum is the
    matching fee [order.feeAmount * (fillAmountS + splitS) / amountS]
    (truncated): exactly one of them is nonzero when that fee is nonzero, and
    both are zero when it is zero.  The fee is in [feeAmountB] exactly when
    [feeToken = tokenB], the owner receives the bought tokens and
    [fillAmountB] covers the fee. *)
Theorem fee_mode_exclusive (ctx : Context) (st st' : Store) (r r' : Ring.t)
    (i : nat) (p : Participation.t) (o : Order.t) :
  calculateFillAmountAndFee ctx st r = Ok (st', r') →
  Ring.valid r' = true →
  Ring.participations r' !! i = Some p →
  orders st' !! Participation.order p = Some o →
  Order.P2P o = false →
  Participation.feeAmountS p = 0 ∧
  (Participation.feeAmount p = 0 ∨ Participation.feeAmountB p = 0) ∧
  Participation.feeAmount p + Participation.feeAmountB p = matchingFee o p ∧
  (Participation.feeAmount p = 0 ∧ Participation.feeAmountB p = 0 ↔
     matchingFee o p = 0) ∧
  Participation.feeAmount p =
    (if paidInTokenB o p then 0 else matchingFee o p) ∧
  Participation.feeAmountB p =
    (if paidInTokenB o p then matchingFee o p else 0).
Proof.
  intros Hrun Hv Hp Ho HP.
  destruct (calculateFillAmountAndFee_post _ _ _ _ _ Hrun Hv) as [HO Hall].
  destruct (Hall i p Hp) as [_ Hfee].
  destruct (Hfee o) as (HS & HF & HB); [by rewrite <- HO|done|].
  split; [done|]. rewrite HF, HB.
  destruct (paidInTokenB o p); (split; [auto|]); (split; [lia|]);
    (split; [lia|done]).
Qed.

(** Scenario S3: the matching fee is 100 * 545 / 1000 = 54; it is charged in
    [feeToken] and nothing in [tokenB]. *)
Lemma fee_mode_exclusive_witness :
  ∃ st' r' p o,
    calculateFillAmountAndFee Scenario.s3_chain Scenario.s3_store Scenario.ring01
      = Ok (st', r') ∧
    Ring.valid r' = true ∧
    Ring.participations r' !! 0%nat = Some p ∧
    orders st' !! Participation.order p = Some o ∧
    Order.P2P o = false ∧
    matchingFee o p = 54 ∧
    Participation.feeAmount p = 54 ∧
    Participation.feeAmountS p = 0 ∧
    (Participation.feeAmount p = 0 ∨ Participation.feeAmountB p = 0) ∧
    Participation.feeAmount p + Participation.feeAmountB p = matchingFee o p ∧
    (Participation.feeAmount p = 0 ∧ Participation.feeAmountB p = 0 ↔
       matchingFee o p = 0) ∧
    Participation.feeAmount p =
      (if paidInTokenB o p then 0 else matchingFee o p) ∧
    Participation.feeAmountB p =
      (if paidInTokenB o p then matchingFee o p else 0).
Proof.
  do 4 eexists.
  split; [vm_compute; reflexivity|].
  split; [reflexivity|]. split; [reflexivity|]. split; [reflexivity|].
  split; [reflexivity|]. split; [reflexivity|]. split; [reflexivity|].
  eapply (fee_mode_exclusive Scenario.s3_chain Scenario.s3_store _
           Scenario.ring01 _ 0%nat);
    vm_compute; reflexivity.
Defined.

(** ** Transfers: the margin of a security token *)

Lemma foldM_ext {S X} (f g : S → X → result S) xs s :
  (∀ s x, f s x = g s x) → foldM f xs s = foldM g xs s.
Proof.
  intros Hfg. revert s. induction xs as [|x xs IH]; intros s; simpl; [done|].
  rewrite Hfg. destruct (g s x); simpl; [apply IH|done].
Qed.

Lemma transferFillAndFees_splitS ctx items o prevO p prevP s :
  transferFillAndFees ctx items o prevO (Participation.set_splitS s p) prevP =
  transferFillAndFees ctx items o prevO p prevP.
Proof. by destruct p. Qed.

Lemma transferFillAndFees_prev_splitS ctx items o prevO p prevP s :
  transferFillAndFees ctx items o prevO p (Participation.set_splitS s prevP) =
  transferFillAndFees ctx items o prevO p prevP.
Proof. by destruct prevP. Qed.

Lemma addTokenTransfer_zero ctx items tokenType fromTranche token from to data :
  addTokenTransfer ctx items tokenType fromTranche token from to 0 data = Ok items.
Proof. unfold addTokenTransfer. by rewrite andb_false_r. Qed.

(** Changing [splitS] of a participation whose order sells an ERC1400 token
    changes no pass of [transferTokens]. *)
Lemma transferTokensStep_splitS ctx feeRecipient st ps items i p o s j :
  ps !! i = Some p →
  orders st !! Participation.order p = Some o →
  Order.tokenTypeS o = ERC1400 →
  transferTokensStep ctx feeRecipient st
    (<[i := Participation.set_splitS s p]> ps) items j =
  transferTokensStep ctx feeRecipient st ps items j.
Proof.
  intros Hp Ho HT. unfold transferTokensStep, deref, orderOf, deref.
  rewrite length_insert. set (k := prevIndex j (length ps)).
  assert (Hlook : ∀ m, <[i := Participation.set_splitS s p]> ps !! m =
            if decide (m = i) then Some (Participation.set_splitS s p)
            else ps !! m).
  { intros m. case_decide as Hm.
    - subst m. apply list_lookup_insert_eq. by apply lookup_lt_Some in Hp.
    - by apply list_lookup_insert_ne. }
  rewrite !Hlook.
  destruct (decide (j = i)) as [->|Hj], (decide (k = i)) as [Hk|Hk].
  - rewrite Hk, Hp. simpl. rewrite Ho. simpl.
    rewrite transferFillAndFees_splitS, transferFillAndFees_prev_splitS.
    unfold marginOf. by rewrite !bool_decide_true.
  - rewrite Hp. simpl. rewrite Ho. simpl.
    destruct (ps !! k) as [q|]; simpl; [|done].
    destruct (orders st !! Participation.order q) as [oq|]; simpl; [|done].
    rewrite transferFillAndFees_splitS.
    unfold marginOf. by rewrite !bool_decide_true.
  - destruct (ps !! j) as [q|]; simpl; [|done].
    destruct (orders st !! Participation.order q) as [oq|]; simpl; [|done].
    rewrite Hk, Hp. simpl. rewrite Ho. simpl.
    by rewrite transferFillAndFees_prev_splitS.
  - done.
Qed.

(** C7: for a participation whose order has [tokenTypeS = ERC1400], the
    margin transfer to [mining.feeRecipient] adds no item whatever [splitS]
    is: the pass of [transferTokens] for it emits the transfers to the buyer
    and to the fee holder only, and the transfers of the whole ring do not
    depend on its [splitS]. *)
Theorem erc1400_margin_suppressed (ctx : Context) (feeRecipient : string)
    (st : Store) (r : Ring.t) (i : nat) (p : Participation.t) (o : Order.t) :
  Ring.participations r !! i = Some p →
  orders st !! Participation.order p = Some o →
  Order.tokenTypeS o = ERC1400 →
  (∀ items,
     addTokenTransfer ctx items (Order.tokenTypeS o) (Order.trancheS o)
       (Order.tokenS o) (Order.owner o) feeRecipient (marginOf o p)
       (Order.transferDataS o) = Ok items) ∧
  (∀ items,
     transferTokensStep ctx feeRecipient st (Ring.participations r) items i =
       prevP ← deref (Ring.participations r)
                 (prevIndex i (length (Ring.participations r)));
       prevO ← orderOf st prevP;
       transferFillAndFees ctx items o prevO p prevP) ∧
  (∀ s,
     transferTokens ctx feeRecipient st
       (Ring.set_participations
          (<[i := Participation.set_splitS s p]> (Ring.participations r)) r) =
     transferTokens ctx feeRecipient st r).
Proof.
  intros Hp Ho HT.
  assert (Hm : marginOf o p = 0) by (unfold marginOf; by rewrite bool_decide_true).
  split; [|split].
  - intros items. rewrite Hm. apply addTokenTransfer_zero.
  - intros items. unfold transferTokensStep.
    rewrite (proj2 (deref_Ok _ _ _) Hp). simpl.
    assert (HoOk : orderOf st p = Ok o) by by apply deref_Ok.
    rewrite HoOk. simpl.
    destruct (deref _ _) as [prevP|]; simpl; [|done].
    destruct (orderOf st prevP) as [prevO|]; simpl; [|done].
    destruct (transferFillAndFees _ _ _ _ _ _) as [items'|]; simpl; [|done].
    rewrite Hm. apply addTokenTransfer_zero.
  - intros s. unfold transferTokens. cbn [Ring.set_participations Ring.participations].
    rewrite length_insert. apply foldM_ext. intros items j.
    by apply (transferTokensStep_splitS ctx feeRecipient st _ items i p o s j).
Qed.

(** Scenario: S2 where the first order sells a security token.  Its margin
    is 100, and the ring emits the two transfers between the owners only. *)
Lemma erc1400_margin_suppressed_witness :
  ∃ st' r' p o,
    calculateFillAmountAndFee Scenario.s2_chain Scenario.s7_store Scenario.ring01
      = Ok (st', r') ∧
    Ring.participations r' !! 0%nat = Some p ∧
    orders st' !! Participation.order p = Some o ∧
    Order.tokenTypeS o = ERC1400 ∧
    Participation.splitS p = 100 ∧
    transferTokens Scenario.s2_chain "0xMINER" st' r' =
      Ok [TransferItem.mk "0xX" "0xA" "0xB" 1000 ERC1400
            zeroAddress zeroAddress (Some "0x");
          TransferItem.mk "0xY" "0xB" "0xA" 1000 ERC20
            zeroAddress zeroAddress None] ∧
    ∀ s,
      transferTokens Scenario.s2_chain "0xMINER" st'
        (Ring.set_participations
           (<[0%nat := Participation.set_splitS s p]> (Ring.participations r')) r') =
      transferTokens Scenario.s2_chain "0xMINER" st' r'.
Proof.
  do 4 eexists.
  split; [vm_compute; reflexivity|].
  split; [reflexivity|]. split; [reflexivity|]. split; [reflexivity|].
  split; [reflexivity|]. split; [vm_compute; reflexivity|].
  eapply (erc1400_margin_suppressed Scenario.s2_chain "0xMINER" _ _ 0%nat);
    reflexivity.
Defined.

(** ** [setMaxFillAmounts]: sharing the balance between sale and fee *)

Lemma dividedToIntegerBy_ne (x y : Z) :
  y ≠ 0 → dividedToIntegerBy x y = Ok (Z.quot x y).
Proof. intros Hy. unfold dividedToIntegerBy. by rewrite decide_False. Qed.

(** A record that has been read is not read again: a second query of the
    same records gives the same answer and leaves the store alone. *)
Lemma getSpendable_again ctx st tt tok tr ow br bi ts bs st1 v tt' tok' tr' :
  OrderUtil.getSpendable ctx st tt tok tr ow br bi ts bs = Ok (st1, v) →
  OrderUtil.getSpendable ctx st1 tt' tok' tr' ow br bi ts bs = Ok (st1, v).
Proof.
  assert (Hid : ∀ (st : Store) i s (f : Spendable.t → Spendable.t),
            spendables st !! i = Some s → f s = s → withSpendable st i f = Ok st).
  { intros st0 i s f Hs Hf. unfold withSpendable, deref. rewrite Hs. simpl.
    rewrite Hf, list_insert_id by done. by destruct st0. }
  assert (Hinit : ∀ (st st' : Store) i (f : Spendable.t → Spendable.t),
            (∀ s, Spendable.initialized (f s) = true) →
            (∀ s, Spendable.initialized s = true → f s = s) →
            withSpendable st i f = Ok st' →
            (∃ s, spendables st' !! i = Some s ∧ Spendable.initialized s = true) ∧
            (∀ j s, spendables st !! j = Some s → Spendable.initialized s = true →
                    spendables st' !! j = Some s)).
  { intros st0 st' i f Hf1 Hf2 H. unfold withSpendable in H. inv_run. simpl.
    match goal with H : spendables st0 !! i = Some ?a |- _ =>
      rename H into Ha; pose proof (lookup_lt_Some _ _ _ Ha) as Hlt end.
    split.
    - eexists. split; [by apply list_lookup_insert_eq|apply Hf1].
    - intros j s Hs Hi. destruct (decide (i = j)) as [->|Hne].
      + rewrite list_lookup_insert_eq by done. simplify_eq. by rewrite Hf2.
      + by rewrite list_lookup_insert_ne. }
  unfold OrderUtil.getSpendable. intros H.
  apply bind_Ok in H as (sta & Hwa & H).
  apply bind_Ok in H as (s & Hs & H). apply deref_Ok in Hs.
  apply Hinit in Hwa as [(s0 & Hs0 & Hi0) _];
    [|by intros [i ? ? ?]; simpl; destruct i|by intros [i ? ? ?] ?; simpl in *; subst].
  assert (s0 = s) as -> by congruence.
  destruct (truthy bi).
  - apply bind_Ok in H as (stb & Hwb & H).
    apply bind_Ok in H as (b & Hb & H). apply deref_Ok in Hb. inv_run.
    apply Hinit in Hwb as [(b0 & Hb0 & Hib) Hkeep];
      [|by intros [i ? ? ?]; simpl; destruct i|by intros [i ? ? ?] ?; simpl in *; subst].
    assert (b0 = b) as -> by congruence.
    pose proof (Hkeep _ _ Hs0 Hi0) as Hs1.
    rewrite (Hid st1 ts s) by (try done; by rewrite Hi0). simpl.
    rewrite (proj2 (deref_Ok _ _ _) Hs1). simpl.
    rewrite (Hid st1 bs b) by (try done; by rewrite Hib). simpl.
    by rewrite (proj2 (deref_Ok _ _ _) Hb0).
  - inv_run. rewrite (Hid st1 ts s) by (try done; by rewrite Hi0). simpl.
    by rewrite (proj2 (deref_Ok _ _ _) Hs0).
Qed.

(** When the fee of an order is paid from the records its sale uses, the
    fee spendable is the sale spendable, as [setMaxFillAmounts] asserts. *)
Lemma getSpendableFee_shared ctx st o st1 v :
  Order.tokenSpendableFee o = Order.tokenSpendableS o →
  Order.brokerSpendableFee o = Order.brokerSpendableS o →
  OrderUtil.getSpendableS ctx st o = Ok (st1, v) →
  OrderUtil.getSpendableFee ctx st1 o = Ok (st1, v).
Proof.
  unfold OrderUtil.getSpendableS, OrderUtil.getSpendableFee.
  intros -> ->. apply getSpendable_again.
Qed.

(** The error path of the conversion: an order whose [amountS] has too many
    digits makes [setMaxFillAmounts] raise at its first statement. *)
Lemma setMaxFillAmounts_too_many_digits ctx st p o :
  orderOf st p = Ok o →
  tooManyDigits (Order.amountS o) = true →
  setMaxFillAmounts ctx st p = Throw BigNumberError.
Proof.
  intros Ho Hd. unfold setMaxFillAmounts. rewrite Ho. simpl.
  by rewrite (bigNumber_tooManyDigits _ Hd).
Qed.



(** ** Filled amounts and cancellations *)

(** C8: when the trade delegate answers with one value per order,
    [batchGetFilledAndCheckCancelled] completes; order [i] gets the [i]-th
    value as [filledAmountS], and its [valid] flag is its previous flag
    cleared exactly when that value is the sentinel [2^256 - 1] (an order that
    was invalid stays invalid).  Nothing else changes. *)
Theorem batch_filled_and_cancelled (fills : list Z) (os : list Order.t) :
  length fills = length os →
  ∃ os',
    batchGetFilledAndCheckCancelled fills os = Ok os' ∧
    length os' = length os ∧
    ∀ i o fill, os !! i = Some o → fills !! i = Some fill →
      ∃ o', os' !! i = Some o' ∧
            o' = Order.set_valid (Order.valid o && negb (fill =? 2 ^ 256 - 1))
                   (Order.set_filledAmountS fill o) ∧
            Order.filledAmountS o' = fill ∧
            (Order.valid o' = false ↔
               Order.valid o = false ∨ fill = 2 ^ 256 - 1).
Proof.
  intros Hlen. unfold batchGetFilledAndCheckCancelled.
  set (upd := λ (fill : Z) (o : Order.t),
    Order.set_valid
      (Order.valid (Order.set_filledAmountS fill o) &&
       ensure (negb (fill =? cancelledValue)) "order is cancelled")
      (Order.set_filledAmountS fill o)).
  set (Inv := λ (pre : list nat) (cur : list Order.t * bool),
    cur.2 = false ∧ length cur.1 = length os ∧
    ∀ i o fill, os !! i = Some o → fills !! i = Some fill →
      cur.1 !! i = Some (if decide (i ∈ pre) then upd fill o else o)).
  destruct (foldM_total (batchGetFilledAndCheckCancelledStep fills)
    Inv (seq 0 (length os)) (os, false)) as ([os' u] & Hrun & Hu & HL & HI).
  - split; [done|]. split; [done|]. intros i o fill Ho _.
    by rewrite decide_False by apply not_elem_of_nil.
  - intros pre x post [cur u] Hsplit (Hu & HL & HI). simpl in Hu, HL, HI.
    apply seq_split in Hsplit as (_ & Hx & Hnin).
    destruct (lookup_lt_is_Some_2 os x Hx) as [o Ho].
    destruct (lookup_lt_is_Some_2 fills x ltac:(lia)) as [fill Hf].
    pose proof (HI x o fill Ho Hf) as Hcur. rewrite decide_False in Hcur by done.
    exists (<[x := upd fill o]> cur, u). split.
    + unfold batchGetFilledAndCheckCancelledStep, deref. rewrite Hcur. simpl.
      by rewrite Hf.
    + split; [done|]. split; [by simpl; rewrite length_insert|]. simpl.
      intros i o1 f1 Ho1 Hf1. destruct (decide (i = x)) as [->|Hne].
      * rewrite list_lookup_insert_eq by lia. simplify_eq.
        rewrite decide_True; [done|]. apply elem_of_app. right.
        apply list_elem_of_here.
      * rewrite list_lookup_insert_ne by done. rewrite (HI i o1 f1 Ho1 Hf1).
        f_equal. destruct (decide (i ∈ pre)) as [Hin|Hin].
        -- rewrite decide_True; [done|]. apply elem_of_app. by left.
        -- rewrite decide_False; [done|].
           intros [?|?%list_elem_of_singleton]%elem_of_app; done.
  - simpl in Hu, HL, HI. subst u.
    exists os'. split; [by rewrite Hrun|]. split; [done|].
    intros i o fill Ho Hf. exists (upd fill o).
    rewrite (HI i o fill Ho Hf). rewrite decide_True.
    2:{ apply elem_of_seq. apply lookup_lt_Some in Ho. lia. }
    split; [done|]. split; [by destruct o|]. split; [by destruct o|].
    unfold upd, ensure, cancelledValue. destruct o; simpl.
    rewrite andb_false_iff, negb_false_iff, Z.eqb_eq. done.
Qed.

(** Two orders; the delegate reports 300 filled for the first and the
    sentinel for the second. *)
Lemma batch_filled_and_cancelled_witness :
  ∃ os',
    batchGetFilledAndCheckCancelled [300; 2 ^ 256 - 1]
      (orders Scenario.s1_store) = Ok os' ∧
    (Order.filledAmountS <$> os') = [300; 2 ^ 256 - 1] ∧
    (Order.valid <$> os') = [true; false].
Proof.
  destruct (batch_filled_and_cancelled [300; 2 ^ 256 - 1]
              (orders Scenario.s1_store) eq_refl) as (os' & Hrun & _ & _).
  exists os'. split; [exact Hrun|].
  vm_compute in Hrun. injection Hrun as <-. split; reflexivity.
Defined.

(** ** Adjusting and reverting the order state *)

Lemma addFilled_addFilled d1 d2 o :
  addFilled d1 (addFilled d2 o) = addFilled (d2 + d1) o.
Proof. unfold addFilled. destruct o; simpl. by rewrite Z.add_assoc. Qed.

Lemma addFilled_0 o : addFilled 0 o = o.
Proof. unfold addFilled. destruct o; simpl. by rewrite Z.add_0_r. Qed.

Lemma withOrder_post st i f st' :
  withOrder st i f = Ok st' →
  ∃ o, orders st !! i = Some o ∧
       orders st' = <[i := f o]> (orders st) ∧
       spendables st' = spendables st.
Proof. unfold withOrder. intros H. inv_run. eauto. Qed.

Lemma adjustOrderState_orders st p st' :
  adjustOrderState st p = Ok st' →
  ∃ o, orders st !! Participation.order p = Some o ∧
       orders st' =
         <[Participation.order p :=
             addFilled (Participation.fillAmountS p + Participation.splitS p) o]>
           (orders st).
Proof.
  unfold adjustOrderState. intros H.
  apply bind_Ok in H as (st1 & Hw & H).
  apply withOrder_post in Hw as (o & Ho & Hos & _).
  exists o. split; [done|].
  assert (HO : orders st' = orders st1).
  { inv_run. orders_frame.
    match goal with
    | H : (if ?c then _ else _) = Ok _ |- _ => destruct c
    end; inv_run; orders_frame; congruence. }
  rewrite HO, Hos. unfold addFilled. do 2 f_equal; lia.
Qed.

Lemma adjustOrderStates_orders ps st st' :
  foldM adjustOrderState ps st = Ok st' →
  ∀ j, orders st' !! j = addFilled (totalFill ps j) <$> orders st !! j.
Proof.
  revert st. induction ps as [|p ps IH]; intros st H j; simpl in H.
  - inv_run. simpl. destruct (orders st' !! j); simpl; [|done].
    by rewrite addFilled_0.
  - apply bind_Ok in H as (st1 & Hp & H).
    apply adjustOrderState_orders in Hp as (o & Ho & Hos).
    rewrite (IH _ H j), Hos. simpl.
    destruct (decide (Participation.order p = j)) as [<-|Hne].
    + rewrite list_lookup_insert_eq by by apply lookup_lt_Some in Ho.
      rewrite Ho. simpl. by rewrite addFilled_addFilled.
    + rewrite list_lookup_insert_ne by done.
      destruct (orders st !! j); simpl; [|done]. do 2 f_equal; lia.
Qed.

Lemma totalFill_nonneg ps j :
  (∀ p, p ∈ ps → 0 ≤ Participation.fillAmountS p + Participation.splitS p) →
  0 ≤ totalFill ps j.
Proof.
  induction ps as [|p ps IH]; intros Hps; simpl; [done|].
  assert (0 ≤ totalFill ps j).
  { apply IH. intros q Hq. apply Hps. by apply list_elem_of_further. }
  assert (0 ≤ Participation.fillAmountS p + Participation.splitS p).
  { apply Hps. apply list_elem_of_here. }
  case_decide; lia.
Qed.

Lemma revertOrderState_total st p o :
  orders st !! Participation.order p = Some o →
  Participation.fillAmountS p + Participation.splitS p ≤ Order.filledAmountS o →
  revertOrderState st p =
    Ok (set_orders
          (<[Participation.order p :=
               addFilled (- (Participation.fillAmountS p + Participation.splitS p)) o]>
             (orders st)) st).
Proof.
  intros Ho Hle. unfold revertOrderState, withOrder, orderOf, deref.
  rewrite Ho. simpl.
  rewrite list_lookup_insert_eq by by apply lookup_lt_Some in Ho. simpl.
  rewrite (proj2 (Z.leb_le _ _)) by (destruct o; simpl in *; lia).
  by destruct o.
Qed.

Lemma revertOrderStats_total ps st :
  (∀ p, p ∈ ps → is_Some (orders st !! Participation.order p)) →
  (∀ p, p ∈ ps → 0 ≤ Participation.fillAmountS p + Participation.splitS p) →
  (∀ j o, orders st !! j = Some o → totalFill ps j ≤ Order.filledAmountS o) →
  ∃ st', foldM revertOrderState ps st = Ok st' ∧
         spendables st' = spendables st ∧
         ∀ j, orders st' !! j = addFilled (- totalFill ps j) <$> orders st !! j.
Proof.
  revert st. induction ps as [|p ps IH]; intros st Hsome Hpos Hle.
  - exists st. split; [done|]. split; [done|]. intros j. simpl.
    destruct (orders st !! j); simpl; [|done]. by rewrite addFilled_0.
  - destruct (Hsome p (list_elem_of_here _ _)) as [o Ho].
    set (d := Participation.fillAmountS p + Participation.splitS p).
    set (st1 := set_orders (<[Participation.order p := addFilled (- d) o]> (orders st)) st).
    assert (Hd : 0 ≤ d) by apply Hpos, list_elem_of_here.
    assert (Hrest : 0 ≤ totalFill ps (Participation.order p)).
    { apply totalFill_nonneg. intros q Hq. apply Hpos.
      by apply list_elem_of_further. }
    pose proof (Hle _ _ Ho) as Hle0. simpl in Hle0.
    rewrite decide_True in Hle0 by done. fold d in Hle0.
    destruct (IH st1) as (st' & Hrun & Hsp & Hos).
    + intros q Hq. unfold st1. simpl.
      destruct (Hsome q (list_elem_of_further _ _ _ Hq)) as [oq Hoq].
      apply lookup_lt_is_Some. rewrite length_insert.
      by apply lookup_lt_Some in Hoq.
    + intros q Hq. apply Hpos. by apply list_elem_of_further.
    + intros j oj. unfold st1. simpl.
      destruct (decide (Participation.order p = j)) as [<-|Hne].
      * rewrite list_lookup_insert_eq by by apply lookup_lt_Some in Ho.
        intros [= <-]. unfold addFilled. destruct o; simpl in *. lia.
      * rewrite list_lookup_insert_ne by done. intros Hoj.
        pose proof (Hle _ _ Hoj) as Hj. simpl in Hj.
        rewrite decide_False in Hj by done. lia.
    + exists st'. split; [|split; [done|]].
      * simpl. rewrite (revertOrderState_total st p o Ho) by (fold d; lia).
        simpl. exact Hrun.
      * intros j. rewrite Hos. unfold st1. simpl.
        destruct (decide (Participation.order p = j)) as [<-|Hne].
        -- rewrite list_lookup_insert_eq by by apply lookup_lt_Some in Ho.
           rewrite Ho. simpl. rewrite addFilled_addFilled. do 2 f_equal;
           fold d; lia.
        -- rewrite list_lookup_insert_ne by done.
           destruct (orders st !! j); simpl; [|done]. do 2 f_equal; lia.
Qed.

(** C2, as stated, fails: in scenario S1, after [adjustOrderStates] and
    [revertOrderStats] the spendable of the first order's [tokenS] is still
    reduced by the fill (0 instead of the 1000 it had). *)
Lemma revert_leaves_spendables_reduced :
  ∃ st2,
    calculateFillAmountAndFee Scenario.s1_chain Scenario.s1_store Scenario.ring01
      = Ok (Scenario.s1_settled, Scenario.s1_ring) ∧
    adjustOrderStates Scenario.s1_settled Scenario.s1_ring
      = Ok Scenario.s1_adjusted ∧
    revertOrderStats Scenario.s1_adjusted Scenario.s1_ring = Ok st2 ∧
    Spendable.amount <$> spendables Scenario.s1_settled !! 0%nat = Some 1000 ∧
    Spendable.amount <$> spendables st2 !! 0%nat = Some 0.
Proof.
  eexists. split; [reflexivity|]. split; [reflexivity|].
  split; [vm_compute; reflexivity|]. split; reflexivity.
Qed.

(** C2 (amended): [revertOrderStats] undoes the change [adjustOrderStates]
    made to the orders: after both, every order has the [filledAmountS] (and
    every other field) it had before, while the spendable records stay as
    [adjustOrderStates] left them.  (Filled amounts and fills are not
    negative.) *)
Theorem revert_restores_filledAmountS (st st1 : Store) (r : Ring.t) :
  adjustOrderStates st r = Ok st1 →
  (∀ o, o ∈ orders st → 0 ≤ Order.filledAmountS o) →
  (∀ p, p ∈ Ring.participations r →
     0 ≤ Participation.fillAmountS p + Participation.splitS p) →
  ∃ st2, revertOrderStats st1 r = Ok st2 ∧
         orders st2 = orders st ∧
         spendables st2 = spendables st1.
Proof.
  intros Hadj Hfilled Hpos. unfold adjustOrderStates in Hadj.
  pose proof (adjustOrderStates_orders _ _ _ Hadj) as Hos.
  unfold revertOrderStats. set (ps := Ring.participations r) in *.
  destruct (revertOrderStats_total ps st1) as (st2 & Hrun & Hsp & Hos2).
  - intros p Hp. rewrite Hos. apply fmap_is_Some.
    clear Hos Hpos Hfilled. revert st Hadj Hp.
    induction ps as [|q ps IH]; intros st Hadj Hp.
    + by apply elem_of_nil in Hp.
    + simpl in Hadj. apply bind_Ok in Hadj as (st' & Hq & Hadj).
      apply adjustOrderState_orders in Hq as (o & Ho & Hos).
      apply elem_of_cons in Hp as [->|Hp]; [by eexists|].
      assert (Hlen : length (orders st') = length (orders st))
        by by rewrite Hos, length_insert.
      apply lookup_lt_is_Some. rewrite <- Hlen. apply lookup_lt_is_Some.
      by apply (IH st').
  - done.
  - intros j o1. rewrite Hos.
    destruct (orders st !! j) as [o|] eqn:Ho; simpl; [|done].
    intros [= <-]. assert (0 ≤ Order.filledAmountS o).
    { apply Hfilled. by eapply list_elem_of_lookup_2. }
    unfold addFilled. destruct o; simpl in *. lia.
  - exists st2. split; [done|]. split; [|done].
    apply list_eq. intros j. rewrite Hos2, Hos.
    destruct (orders st !! j) as [o|]; simpl; [|done].
    rewrite addFilled_addFilled, Z.add_opp_diag_r. by rewrite addFilled_0.
Qed.

(** Scenario S1: the ring fills both orders completely; after the two
    passes both orders are back at [filledAmountS = 0]. *)
Lemma revert_restores_filledAmountS_witness :
  calculateFillAmountAndFee Scenario.s1_chain Scenario.s1_store Scenario.ring01
    = Ok (Scenario.s1_settled, Scenario.s1_ring) ∧
  adjustOrderStates Scenario.s1_settled Scenario.s1_ring
    = Ok Scenario.s1_adjusted ∧
  ∃ st2, revertOrderStats Scenario.s1_adjusted Scenario.s1_ring = Ok st2 ∧
         orders st2 = orders Scenario.s1_settled ∧
         spendables st2 = spendables Scenario.s1_adjusted.
Proof.
  split; [reflexivity|]. split; [reflexivity|].
  apply (revert_restores_filledAmountS Scenario.s1_settled Scenario.s1_adjusted
           Scenario.s1_ring).
  - reflexivity.
  - intros o Ho. repeat (apply elem_of_cons in Ho as [->|Ho]; [done|]).
    by apply elem_of_nil in Ho.
  - intros p Hp. repeat (apply elem_of_cons in Hp as [->|Hp]; [done|]).
    by apply elem_of_nil in Hp.
Defined.

(** ** The all-or-none loop *)

Lemma validateAllOrNone_valid o :
  Order.valid (OrderUtil.validateAllOrNone o) =
    Order.valid o &&
    negb (Order.allOrNone o && (Order.filledAmountS o <? Order.amountS o)).
Proof. by destruct o. Qed.

Lemma validateAllOrNone_unchanged o :
  Order.valid (OrderUtil.validateAllOrNone o) = Order.valid o →
  OrderUtil.validateAllOrNone o = o.
Proof.
  rewrite validateAllOrNone_valid. intros H.
  unfold OrderUtil.validateAllOrNone, ensure. rewrite H. by destruct o.
Qed.

Lemma countValid_cons o os :
  countValid (o :: os) =
    ((if Order.valid o then 1 else 0) + countValid os)%nat.
Proof. unfold countValid. simpl. rewrite filter_cons. by destruct (Order.valid o). Qed.

Lemma countValid_length os : (countValid os ≤ length os)%nat.
Proof.
  unfold countValid. rewrite <- (length_fmap Order.valid os).
  apply length_filter.
Qed.

(** One pass over the orders: flags are only cleared; the pass asks for a
    re-evaluation exactly when it cleared one; when it does not ask, nothing
    changed and every valid all-or-none order is completely filled. *)
Lemma checkAllOrNone_post os flag os' flag' :
  checkAllOrNone os flag = (os', flag') →
  length os' = length os ∧
  (countValid os' ≤ countValid os)%nat ∧
  (flag' = true → flag = true ∨ (countValid os' < countValid os)%nat) ∧
  (flag' = false → flag = false ∧ os' = os ∧
     ∀ o, o ∈ os → Order.allOrNone o = true → Order.valid o = true →
       Order.amountS o ≤ Order.filledAmountS o).
Proof.
  revert flag os' flag'. induction os as [|o os IH]; intros flag os' flag' H.
  - simpl in H. injection H as <- <-. split; [done|]. split; [done|].
    split; [by left|]. intros ->. split; [done|]. split; [done|].
    by intros o ?%elem_of_nil.
  - simpl in H. destruct (Order.allOrNone o) eqn:Haon.
    + destruct (checkAllOrNone os _) as [rest fl] eqn:Hrest.
      injection H as <- <-.
      apply IH in Hrest as (HL & HC & HT & HF).
      rewrite !countValid_cons, validateAllOrNone_valid, Haon in *.
      cbn [andb] in *. split; [simpl; lia|].
      destruct (Order.valid o) eqn:Hv,
               (Order.filledAmountS o <? Order.amountS o) eqn:Hlt;
        cbn [andb negb eqb orb] in *.
      * split; [lia|]. split; [intros _; right; lia|].
        intros Hfl. destruct (HF Hfl) as [Hflag _].
        by rewrite orb_true_r in Hflag.
      * split; [lia|]. split.
        { intros Hfl. destruct (HT Hfl) as [Hflag|?]; [|right; lia].
          rewrite orb_false_r in Hflag. by left. }
        intros Hfl. destruct (HF Hfl) as (Hflag & -> & Hall).
        rewrite orb_false_r in Hflag. split; [done|]. split.
        { f_equal. apply validateAllOrNone_unchanged.
          rewrite validateAllOrNone_valid, Haon, Hv, Hlt. done. }
        intros o' [->|Ho']%elem_of_cons ? ?; [|by apply Hall].
        apply Z.ltb_ge in Hlt. lia.
      * split; [lia|]. split.
        { intros Hfl. destruct (HT Hfl) as [Hflag|?]; [|right; lia].
          rewrite orb_false_r in Hflag. by left. }
        intros Hfl. destruct (HF Hfl) as (Hflag & -> & Hall).
        rewrite orb_false_r in Hflag. split; [done|]. split.
        { f_equal. apply validateAllOrNone_unchanged.
          rewrite validateAllOrNone_valid, Haon, Hv, Hlt. done. }
        intros o' [->|Ho']%elem_of_cons ? ?; [congruence|by apply Hall].
      * split; [lia|]. split.
        { intros Hfl. destruct (HT Hfl) as [Hflag|?]; [|right; lia].
          rewrite orb_false_r in Hflag. by left. }
        intros Hfl. destruct (HF Hfl) as (Hflag & -> & Hall).
        rewrite orb_false_r in Hflag. split; [done|]. split.
        { f_equal. apply validateAllOrNone_unchanged.
          rewrite validateAllOrNone_valid, Haon, Hv, Hlt. done. }
        intros o' [->|Ho']%elem_of_cons ? ?; [congruence|by apply Hall].
    + destruct (checkAllOrNone os _) as [rest fl] eqn:Hrest.
      injection H as <- <-.
      apply IH in Hrest as (HL & HC & HT & HF).
      rewrite !countValid_cons. split; [simpl; lia|]. split; [lia|].
      split.
      { intros Hfl. destruct (HT Hfl) as [?|?]; [by left|right; lia]. }
      intros Hfl. destruct (HF Hfl) as (Hflag & -> & Hall).
      split; [done|]. split; [done|].
      intros o' [->|Ho']%elem_of_cons ? ?; [congruence|by apply Hall].
Qed.

Lemma revertOrderState_valid st p st' :
  revertOrderState st p = Ok st' →
  Order.valid <$> orders st' = Order.valid <$> orders st.
Proof.
  unfold revertOrderState. intros H.
  apply bind_Ok in H as (st1 & Hw & H).
  apply withOrder_post in Hw as (o & Ho & Hos & _). inv_run.
  rewrite Hos, list_fmap_insert.
  apply list_insert_id. rewrite list_lookup_fmap, Ho. by destruct o.
Qed.

Lemma recheckRings_valid st rings st' rings' :
  recheckRings st rings = Ok (st', rings') →
  Order.valid <$> orders st' = Order.valid <$> orders st.
Proof.
  revert st st' rings'.
  induction rings as [|r rings IH]; intros st st' rings' H; simpl in H.
  - by inv_run.
  - apply bind_Ok in H as (r1 & _ & H).
    apply bind_Ok in H as (st1 & Hrev & H).
    apply bind_Ok in H as ([st2 rest] & Hrest & H). inv_run.
    rewrite (IH _ _ _ Hrest).
    destruct (negb (Ring.valid r1) && Ring.valid r); [|by inv_run].
    apply (foldM_preserves (λ s, Order.valid <$> orders s)) in Hrev; [done|].
    intros s x t. apply revertOrderState_valid.
Qed.

(** The loop ends: with [countValid + 1] units of fuel it returns, after at
    most [countValid + 1] passes. *)
Lemma checkRings_terminates fuel st rings :
  (countValid (orders st) < fuel)%nat →
  ∃ out passes,
    checkRings fuel st rings = Some (out, passes) ∧
    (passes ≤ countValid (orders st) + 1)%nat.
Proof.
  revert st rings. induction fuel as [|fuel IH]; intros st rings Hfuel; [lia|].
  simpl. destruct (checkAllOrNone (orders st) false) as [os flag] eqn:Hpass.
  apply checkAllOrNone_post in Hpass as (_ & _ & HT & _).
  destruct flag.
  - destruct (HT eq_refl) as [?|Hlt]; [done|].
    destruct (recheckRings _ rings) as [[st1 rings1]|e] eqn:Hre.
    + apply recheckRings_valid in Hre. simpl in Hre.
      assert (Hc : countValid (orders st1) = countValid os)
        by (unfold countValid; by rewrite Hre).
      destruct (IH st1 rings1) as (out & passes & -> & Hp); [lia|].
      simpl. exists out, (S passes). split; [done|]. lia.
    + exists (Throw e), 1%nat. split; [done|]. lia.
  - eexists _, 1%nat. split; [done|]. lia.
Qed.


(** C5, as stated, fails: with the two all-or-none orders of the scenario
    the body of the loop runs three times (the first order is invalidated in
    the first pass, the second in the second, the third pass finds nothing to
    do), more than the number of orders. *)
Lemma checkRings_three_passes_two_orders :
  calculateRings Scenario.aon_chain Scenario.aon_store [Scenario.ring01]
    = Ok Scenario.aon_settled ∧
  checkRings 10 Scenario.aon_settled.1 Scenario.aon_settled.2
    = Some (Ok Scenario.aon_final, 3%nat) ∧
  length (orders Scenario.aon_settled.1) = 2%nat ∧
  ¬ (3 ≤ length (orders Scenario.aon_settled.1))%nat.
Proof.
  split; [vm_compute; reflexivity|]. split; [vm_compute; reflexivity|].
  split; [reflexivity|]. simpl. lia.
Qed.

(** C5 (amended): [checkRings] always terminates: given more fuel than
    there are orders the loop returns (normally or by a failed assertion),
    after at most [|orders| + 1] passes; every pass but the last invalidates
    at least one order that was valid. *)
Theorem checkRings_bounded (fuel : nat) (st : Store) (rings : list Ring.t) :
  (length (orders st) < fuel)%nat →
  ∃ out passes,
    checkRings fuel st rings = Some (out, passes) ∧
    (passes ≤ countValid (orders st) + 1)%nat ∧
    (passes ≤ length (orders st) + 1)%nat.
Proof.
  intros Hfuel. pose proof (countValid_length (orders st)) as Hc.
  destruct (checkRings_terminates fuel st rings) as (out & passes & Hrun & Hp);
    [lia|].
  exists out, passes. split; [done|]. split; lia.
Qed.

(** The scenario above: three units of fuel are enough for its two orders. *)
Lemma checkRings_bounded_witness :
  ∃ out passes,
    checkRings 3 Scenario.aon_settled.1 Scenario.aon_settled.2
      = Some (out, passes) ∧
    (passes ≤ countValid (orders Scenario.aon_settled.1) + 1)%nat ∧
    (passes ≤ length (orders Scenario.aon_settled.1) + 1)%nat.
Proof.
  apply (checkRings_bounded 3 Scenario.aon_settled.1 Scenario.aon_settled.2).
  simpl. lia.
Defined.

(** ** The final validation *)




(** * Further properties *)

(** ** BalanceBook as an accumulator *)

Section BalanceBookMore.
Import BalanceBook.

Lemma getBalance_addBalance b o t tr a o' t' tr' :
  getBalance (addBalance b o t tr a) o' t' tr' =
    getBalance b o' t' tr' +
    (if decide (o = o' ∧ t = t' ∧ tr = tr') then a else 0).
Proof.
  unfold getBalance, addBalance. rewrite obj_get_set.
  destruct (decide (o = o')) as [->|Ho].
  - rewrite obj_get_set. destruct (decide (t = t')) as [->|Ht].
    + rewrite obj_get_set. destruct (decide (tr = tr')) as [->|Htr].
      * rewrite decide_True by done.
        destruct (obj_get b o') as [toks|]; simpl; [|done].
        by destruct (obj_get toks t') as [trs|].
      * rewrite decide_False by (intros (?&?&?); congruence).
        destruct (obj_get b o') as [toks|]; simpl; [|lia].
        destruct (obj_get toks t') as [trs|]; simpl; lia.
    + rewrite decide_False by (intros (?&?&?); congruence).
      destruct (obj_get b o') as [toks|]; simpl; [|lia].
      destruct (obj_get toks t') as [trs|]; simpl; lia.
  - rewrite decide_False by (intros (?&?&?); congruence).
    destruct (obj_get b o') as [toks|]; simpl; [|lia].
    destruct (obj_get toks t') as [trs|]; simpl; lia.
Qed.

Lemma isBalanceKnown_addBalance b o t tr a o' t' tr' :
  isBalanceKnown (addBalance b o t tr a) o' t' tr' =
    isBalanceKnown b o' t' tr' || bool_decide (o = o' ∧ t = t' ∧ tr = tr').
Proof.
  unfold isBalanceKnown, addBalance. rewrite obj_get_set.
  destruct (decide (o = o')) as [->|Ho].
  - rewrite obj_get_set. destruct (decide (t = t')) as [->|Ht].
    + rewrite obj_get_set. destruct (decide (tr = tr')) as [->|Htr].
      * rewrite (bool_decide_true (_ ∧ _)) by done.
        rewrite orb_true_r. apply bool_decide_true. by eexists.
      * rewrite (bool_decide_false (_ ∧ _)) by (intros (?&?&?); congruence).
        rewrite orb_false_r.
        destruct (obj_get b o') as [toks|]; simpl.
        -- by destruct (obj_get toks t') as [trs|].
        -- done.
    + rewrite (bool_decide_false (_ ∧ _)) by (intros (?&?&?); congruence).
      rewrite orb_false_r. by destruct (obj_get b o') as [toks|].
  - rewrite (bool_decide_false (_ ∧ _)) by (intros (?&?&?); congruence).
    by rewrite orb_false_r.
Qed.

Lemma getBalance_fold trace b o t tr :
  getBalance
    (fold_left (λ acc x, addBalance acc (owner x) (token x) (tranche x) (amount x))
       trace b) o t tr =
  getBalance b o t tr + writtenAmount trace o t tr.
Proof.
  revert b. induction trace as [|x trace IH]; intros b; simpl; [lia|].
  rewrite IH, getBalance_addBalance. fold (writtenAmount trace o t tr).
  destruct (decide _) as [(-> & -> & ->)|Hne].
  - rewrite !bool_decide_true by done. simpl. lia.
  - destruct (bool_decide (owner x = o)) eqn:H1,
             (bool_decide (token x = t)) eqn:H2,
             (bool_decide (tranche x = tr)) eqn:H3; simpl; try lia.
    apply bool_decide_eq_true in H1, H2, H3. by destruct Hne.
Qed.

Lemma isBalanceKnown_fold trace b o t tr :
  isBalanceKnown
    (fold_left (λ acc x, addBalance acc (owner x) (token x) (tranche x) (amount x))
       trace b) o t tr = true ↔
  isBalanceKnown b o t tr = true ∨
  ∃ x, x ∈ trace ∧ owner x = o ∧ token x = t ∧ tranche x = tr.
Proof.
  revert b. induction trace as [|x trace IH]; intros b; simpl.
  - split; [by left|]. intros [?|(x & ?%elem_of_nil & _)]; done.
  - rewrite IH, isBalanceKnown_addBalance, orb_true_iff, bool_decide_eq_true.
    split.
    + intros [[?|(? & ? & ?)]|(y & ? & ?)].
      * by left.
      * right. exists x. split; [apply list_elem_of_here|done].
      * right. exists y. split; [by apply list_elem_of_further|done].
    + intros [?|(y & [->|?]%elem_of_cons & ? & ? & ?)].
      * left. by left.
      * left. by right.
      * right. by exists y.
Qed.

(** X1. Reading a book built by [addBalance] calls gives, for every triple,
    the sum of the amounts written to it (0 for a triple never written). *)
Theorem getBalance_written (trace : list Balance) (o t tr : string) :
  getBalance (written trace) o t tr = writtenAmount trace o t tr.
Proof. unfold written. by rewrite getBalance_fold. Qed.

(** X2. A triple is known to a book exactly when it was written, also when
    the amounts written are zero or cancel out; the balance of a triple that
    is not known reads as 0. *)
Theorem isBalanceKnown_written (trace : list Balance) (o t tr : string) :
  (isBalanceKnown (written trace) o t tr = true ↔
     ∃ x, x ∈ trace ∧ owner x = o ∧ token x = t ∧ tranche x = tr) ∧
  (isBalanceKnown (written trace) o t tr = false →
     getBalance (written trace) o t tr = 0).
Proof.
  unfold written. split.
  - rewrite isBalanceKnown_fold. split; [|by right].
    by intros [?|?].
  - unfold isBalanceKnown, getBalance.
    destruct (obj_get _ o) as [toks|]; [|done].
    destruct (obj_get toks t) as [trs|]; [|done].
    destruct (obj_get trs tr) as [v|]; [|done].
    intros Hk. apply bool_decide_eq_false in Hk. destruct Hk. by eexists.
Qed.

Lemma obj_set_nonempty {V} (o : list (string * V)) k v : obj_set o k v ≠ [].
Proof. destruct o as [|[k0 v0] o]; simpl; [done|]. by case_decide. Qed.

Lemma addBalance_wellFormed b o t tr a :
  wellFormed b → wellFormed (addBalance b o t tr a).
Proof.
  intros [Hout Hin]. unfold addBalance. split; [by apply obj_set_NoDup|].
  assert (Hold : ∀ toks, obj_get b o = Some toks →
            toks ≠ [] ∧ NoDup (obj_keys toks) ∧
            Forall (λ f, f.2 ≠ [] ∧ NoDup (obj_keys f.2)) toks).
  { intros toks Hget. apply obj_get_elem in Hget.
    apply (proj1 (Forall_forall _ _) Hin _ Hget). }
  apply Forall_forall. intros e [->|He]%obj_set_elem;
    [|by apply (proj1 (Forall_forall _ _) Hin _ He)].
  simpl. split; [apply obj_set_nonempty|].
  destruct (obj_get b o) as [toks|] eqn:Hget; simpl.
  - destruct (Hold toks eq_refl) as (_ & Hnd & Hall).
    split; [by apply obj_set_NoDup|].
    apply Forall_forall. intros f [->|Hf]%obj_set_elem;
      [|by apply (proj1 (Forall_forall _ _) Hall _ Hf)].
    simpl. split; [apply obj_set_nonempty|]. apply obj_set_NoDup.
    destruct (obj_get toks t) as [trs|] eqn:Ht; simpl; [|apply NoDup_nil_2].
    apply obj_get_elem in Ht.
    apply (proj1 (Forall_forall _ _) Hall _ Ht).
  - split; [apply NoDup_singleton|].
    apply Forall_singleton. simpl. split; [done|]. apply NoDup_singleton.
Qed.

Lemma written_wellFormed trace : wellFormed (written trace).
Proof.
  induction trace as [|x trace IH] using rev_ind.
  - split; [apply NoDup_nil_2|apply Forall_nil_2].
  - rewrite written_snoc. by apply addBalance_wellFormed.
Qed.

Lemma getAllBalances_elem b x :
  wellFormed b →
  x ∈ getAllBalances b ↔
  ∃ toks trs, obj_get b (owner x) = Some toks ∧
              obj_get toks (token x) = Some trs ∧
              obj_get trs (tranche x) = Some (amount x).
Proof.
  intros [Hout Hin]. unfold getAllBalances.
  rewrite list_elem_of_In, in_flat_map. split.
  - intros ([o toks] & He%list_elem_of_In & Hx). simpl in Hx.
    apply in_flat_map in Hx as ([t trs] & Hf%list_elem_of_In & Hx). simpl in Hx.
    apply in_map_iff in Hx as ([tr a] & <- & Hg%list_elem_of_In). simpl.
    destruct (proj1 (Forall_forall _ _) Hin _ He) as (_ & Hnd & Hall). simpl in *.
    destruct (proj1 (Forall_forall _ _) Hall _ Hf) as (_ & Hnd'). simpl in *.
    exists toks, trs. by repeat split; apply obj_elem_get.
  - intros (toks & trs & Ho%obj_get_elem & Ht%obj_get_elem & Htr%obj_get_elem).
    exists (owner x, toks). split; [by apply list_elem_of_In|]. simpl.
    apply in_flat_map. exists (token x, trs).
    split; [by apply list_elem_of_In|]. simpl.
    apply in_map_iff. exists (tranche x, amount x).
    split; [by destruct x|by apply list_elem_of_In].
Qed.

Lemma NoDup_flat_map_keyed {V B} (l : list (string * V))
    (g : string * V → list B) (key : B → string) :
  NoDup (obj_keys l) →
  (∀ e y, e ∈ l → y ∈ g e → key y = e.1) →
  (∀ e, e ∈ l → NoDup (g e)) →
  NoDup (flat_map g l).
Proof.
  unfold obj_keys. induction l as [|e l IH]; intros Hnd Hkey Hg; simpl.
  - apply NoDup_nil_2.
  - apply NoDup_cons in Hnd as [Hnin Hnd]. apply NoDup_app. split; [|split].
    + apply Hg, list_elem_of_here.
    + intros y Hy Hy'. apply list_elem_of_In, in_flat_map in Hy'
        as (e' & He'%list_elem_of_In & Hy'%list_elem_of_In).
      apply Hnin. apply list_elem_of_fmap. exists e'. split; [|done].
      rewrite <- (Hkey e y (list_elem_of_here _ _) Hy).
      apply (Hkey e' y); [by apply list_elem_of_further|done].
    + apply IH; [done| |].
      * intros e' y He'. apply Hkey. by apply list_elem_of_further.
      * intros e' He'. apply Hg. by apply list_elem_of_further.
Qed.

Lemma getAllBalances_NoDup b : wellFormed b → NoDup (getAllBalances b).
Proof.
  intros [Hout Hin]. unfold getAllBalances.
  apply (NoDup_flat_map_keyed b _ owner); [done| |].
  - intros [o toks] y _ Hy. simpl in *.
    apply list_elem_of_In, in_flat_map in Hy as (f & _ & Hy).
    by apply in_map_iff in Hy as (g & <- & _).
  - intros [o toks] He. simpl.
    destruct (proj1 (Forall_forall _ _) Hin _ He) as (_ & Hnd & Hall). simpl in *.
    apply (NoDup_flat_map_keyed toks _ token); [done| |].
    + intros [t trs] y _ Hy. simpl in *.
      by apply list_elem_of_In, in_map_iff in Hy as (g & <- & _).
    + intros [t trs] Hf. simpl.
      destruct (proj1 (Forall_forall _ _) Hall _ Hf) as (_ & Hnd'). simpl in *.
      apply (NoDup_fmap_2_strong (λ g : string * Z, mkBalance o t g.1 g.2)).
      * intros [k1 a1] [k2 a2] H1 H2 [= -> ->]. done.
      * unfold obj_keys in Hnd'. by apply NoDup_fmap_1 in Hnd'.
Qed.

(** X3. The enumeration of a book built by [addBalance] calls lists every
    known triple exactly once, with the amount [getBalance] reads for it. *)
Theorem getAllBalances_written (trace : list Balance) :
  let b := written trace in
  NoDup (tripleOf <$> getAllBalances b) ∧
  ∀ x, x ∈ getAllBalances b ↔
       isBalanceKnown b (owner x) (token x) (tranche x) = true ∧
       getBalance b (owner x) (token x) (tranche x) = amount x.
Proof.
  intros b. pose proof (written_wellFormed trace) as Hwf. fold b in Hwf.
  assert (Hiff : ∀ x, x ∈ getAllBalances b ↔
       isBalanceKnown b (owner x) (token x) (tranche x) = true ∧
       getBalance b (owner x) (token x) (tranche x) = amount x).
  { intros x. rewrite getAllBalances_elem by done.
    unfold isBalanceKnown, getBalance. split.
    - by intros (toks & trs & -> & -> & ->).
    - destruct (obj_get b (owner x)) as [toks|] eqn:Ho; [|by intros [? _]].
      destruct (obj_get toks (token x)) as [trs|] eqn:Ht; [|by intros [? _]].
      destruct (obj_get trs (tranche x)) as [v|] eqn:Hv; [|by intros [? _]].
      simpl. intros [_ ->]. eauto. }
  split; [|done].
  apply NoDup_fmap_2_strong; [|by apply getAllBalances_NoDup].
  intros x y [_ Hx]%Hiff [_ Hy]%Hiff [= Ho Ht Htr].
  rewrite Ho, Ht, Htr, Hy in Hx. destruct x, y; simpl in *. congruence.
Qed.

(** *** Copying a book *)

Lemma obj_get_app_r {V} (l l' : list (string * V)) k :
  k ∉ obj_keys l → obj_get (l ++ l') k = obj_get l' k.
Proof.
  unfold obj_keys. induction l as [|[k0 v0] l IH]; intros Hk; simpl; [done|].
  simpl in Hk. apply not_elem_of_cons in Hk as [Hne Hk].
  rewrite decide_False by done. by apply IH.
Qed.

Lemma obj_set_app_r {V} (l l' : list (string * V)) k v :
  k ∉ obj_keys l → obj_set (l ++ l') k v = l ++ obj_set l' k v.
Proof.
  unfold obj_keys. induction l as [|[k0 v0] l IH]; intros Hk; simpl; [done|].
  simpl in Hk. apply not_elem_of_cons in Hk as [Hne Hk].
  rewrite decide_False by done. by rewrite IH.
Qed.

Lemma obj_get_absent {V} (l : list (string * V)) k :
  k ∉ obj_keys l → obj_get l k = None.
Proof.
  intros Hk. destruct (obj_get l k) eqn:Hget; [|done].
  destruct Hk. apply obj_get_Some_keys. by eexists.
Qed.

Lemma obj_set_absent {V} (l : list (string * V)) k v :
  k ∉ obj_keys l → obj_set l k v = l ++ [(k, v)].
Proof.
  intros Hk. rewrite <- (app_nil_r l) at 1. by rewrite obj_set_app_r.
Qed.

Lemma addBalance_new_owner b1 o t tr a :
  o ∉ obj_keys b1 → addBalance b1 o t tr a = b1 ++ [(o, [(t, [(tr, a)])])].
Proof.
  intros Ho. unfold addBalance. rewrite (obj_get_absent b1 o) by done. simpl.
  by rewrite obj_set_absent.
Qed.

Lemma addBalance_new_token b1 o toks t tr a :
  o ∉ obj_keys b1 → t ∉ obj_keys toks →
  addBalance (b1 ++ [(o, toks)]) o t tr a = b1 ++ [(o, toks ++ [(t, [(tr, a)])])].
Proof.
  intros Ho Ht. unfold addBalance. rewrite obj_get_app_r by done. simpl.
  rewrite decide_True by done. simpl.
  rewrite (obj_get_absent toks t) by done. simpl.
  rewrite obj_set_app_r by done. simpl. rewrite decide_True by done.
  by rewrite obj_set_absent.
Qed.

Lemma addBalance_new_tranche b1 o toks1 t trs tr a :
  o ∉ obj_keys b1 → t ∉ obj_keys toks1 → tr ∉ obj_keys trs →
  addBalance (b1 ++ [(o, toks1 ++ [(t, trs)])]) o t tr a =
    b1 ++ [(o, toks1 ++ [(t, trs ++ [(tr, a)])])].
Proof.
  intros Ho Ht Htr. unfold addBalance. rewrite obj_get_app_r by done. simpl.
  rewrite decide_True by done. simpl.
  rewrite obj_get_app_r by done. simpl. rewrite decide_True by done. simpl.
  rewrite (obj_get_absent trs tr) by done. simpl.
  rewrite obj_set_app_r by done. simpl. rewrite decide_True by done.
  rewrite obj_set_app_r by done. simpl. rewrite decide_True by done.
  by rewrite obj_set_absent.
Qed.

Lemma addAll_app xs ys b : addAll (xs ++ ys) b = addAll ys (addAll xs b).
Proof. unfold addAll. by rewrite fold_left_app. Qed.

Lemma addAll_cons x xs b :
  addAll (x :: xs) b = addAll xs (addBalance b (owner x) (token x) (tranche x) (amount x)).
Proof. done. Qed.

Lemma copy_tranches b1 o toks1 t trs2 trs1 :
  o ∉ obj_keys b1 → t ∉ obj_keys toks1 → NoDup (obj_keys (trs1 ++ trs2)) →
  addAll (map (λ g : string * Z, mkBalance o t g.1 g.2) trs2)
    (b1 ++ [(o, toks1 ++ [(t, trs1)])]) =
  b1 ++ [(o, toks1 ++ [(t, trs1 ++ trs2)])].
Proof.
  intros Ho Ht. revert trs1.
  induction trs2 as [|[tr a] trs2 IH]; intros trs1 Hnd.
  - by rewrite app_nil_r.
  - cbn [map]. rewrite addAll_cons. cbn [owner token tranche amount fst snd].
    unfold obj_keys in Hnd. rewrite fmap_app in Hnd. simpl in Hnd.
    rewrite addBalance_new_tranche; [|done|done|].
    + rewrite IH; [by rewrite <- app_assoc|].
      unfold obj_keys. rewrite <- app_assoc, fmap_app. done.
    + apply NoDup_app in Hnd as (_ & Hdis & _). intros Hin.
      apply (Hdis tr Hin). apply list_elem_of_here.
Qed.

Lemma copy_tokens b1 o toks2 toks1 :
  o ∉ obj_keys b1 → NoDup (obj_keys (toks1 ++ toks2)) →
  Forall (λ f, f.2 ≠ [] ∧ NoDup (obj_keys f.2)) toks2 →
  toks1 ≠ [] →
  addAll (flat_map (λ f, map (λ g : string * Z, mkBalance o f.1 g.1 g.2) f.2) toks2)
    (b1 ++ [(o, toks1)]) =
  b1 ++ [(o, toks1 ++ toks2)].
Proof.
  intros Ho. revert toks1.
  induction toks2 as [|[t trs] toks2 IH]; intros toks1 Hnd Hall Hne.
  - by rewrite app_nil_r.
  - apply Forall_cons in Hall as [[Hnonempty Hndt] Hall]. simpl in Hnonempty, Hndt.
    destruct trs as [|[tr a] trs]; [done|].
    cbn [flat_map map fst snd]. rewrite addAll_app, addAll_cons.
    cbn [owner token tranche amount fst snd].
    assert (Ht : t ∉ obj_keys toks1).
    { unfold obj_keys in *. rewrite fmap_app in Hnd. simpl in Hnd.
      apply NoDup_app in Hnd as (_ & Hdis & _). intros Hin.
      apply (Hdis t Hin). apply list_elem_of_here. }
    rewrite addBalance_new_token by done.
    rewrite (copy_tranches b1 o toks1 t trs [(tr, a)]) by done.
    rewrite IH; [by rewrite <- app_assoc| |done|by destruct toks1].
    by rewrite <- app_assoc.
Qed.

Lemma copy_owners b2 b1 :
  NoDup (obj_keys (b1 ++ b2)) → wellFormed b2 →
  addAll (getAllBalances b2) b1 = b1 ++ b2.
Proof.
  revert b1. induction b2 as [|[o toks] b2 IH]; intros b1 Hnd [Hout Hin].
  - by rewrite app_nil_r.
  - apply Forall_cons in Hin as [(Hne & Hndo & Hall) Hin]. simpl in Hne, Hndo, Hall.
    unfold obj_keys in Hout. simpl in Hout. apply NoDup_cons in Hout as [_ Hout].
    assert (Ho : o ∉ obj_keys b1).
    { unfold obj_keys in *. rewrite fmap_app in Hnd. simpl in Hnd.
      apply NoDup_app in Hnd as (_ & Hdis & _). intros Hi.
      apply (Hdis o Hi). apply list_elem_of_here. }
    destruct toks as [|[t trs] toks]; [done|].
    apply Forall_cons in Hall as [[Hne' Hndt] Hall]. simpl in Hne', Hndt.
    destruct trs as [|[tr a] trs]; [done|].
    unfold getAllBalances. cbn [flat_map map fst snd].
    rewrite !addAll_app, addAll_cons. cbn [owner token tranche amount fst snd].
    rewrite addBalance_new_owner by done.
    pose proof (copy_tranches b1 o [] t trs [(tr, a)] Ho
                  ltac:(apply not_elem_of_nil) Hndt) as Htr.
    cbn [app] in Htr. rewrite Htr.
    pose proof (copy_tokens b1 o toks [(t, (tr, a) :: trs)] Ho Hndo Hall
                  ltac:(done)) as Htok.
    cbn [app] in Htok. rewrite Htok.
    fold (getAllBalances b2).
    rewrite (IH (b1 ++ [(o, (t, (tr, a) :: trs) :: toks)]));
      [by rewrite <- app_assoc| |done].
    by rewrite <- app_assoc.
Qed.

(** X4. Copying a book built by [addBalance] calls gives the same book:
    the same owners, tokens and tranches in the same order with the same
    amounts, hence the same lookups and the same enumeration. *)
Theorem copy_written (trace : list Balance) :
  copy (written trace) = written trace ∧
  getAllBalances (copy (written trace)) = getAllBalances (written trace).
Proof.
  pose proof (written_wellFormed trace) as Hwf.
  assert (H : copy (written trace) = written trace).
  { apply (copy_owners (written trace) []); [|done]. apply Hwf. }
  by rewrite H.
Qed.

(** *** Transfers conserve every token *)

Lemma sumObj_set {V} (m : string → V → Z) (o : list (string * V)) k v :
  sumObj m (obj_set o k v) =
    sumObj m o - (match obj_get o k with Some v0 => m k v0 | None => 0 end)
    + m k v.
Proof.
  unfold sumObj. induction o as [|[k0 v0] o IH]; simpl; [lia|].
  destruct (decide (k0 = k)) as [->|Hne]; simpl; [lia|]. rewrite IH. lia.
Qed.

Lemma sumObj_cons {V} (m : string → V → Z) k v (o : list (string * V)) :
  sumObj m ((k, v) :: o) = m k v + sumObj m o.
Proof. done. Qed.

Lemma tokenTotal_sumObj b tok :
  tokenTotal b tok =
    sumObj (λ _ toks,
      sumObj (λ t trs, if bool_decide (t = tok) then sumObj (λ _ a, a) trs else 0)
        toks) b.
Proof.
  unfold tokenTotal, getAllBalances.
  set (S := fold_right (λ x acc,
    if bool_decide (token x = tok) then amount x + acc else acc) 0).
  assert (Happ : ∀ l1 l2, S (l1 ++ l2) = S l1 + S l2).
  { intros l1 l2. unfold S. induction l1 as [|x l1 IH]; simpl; [done|].
    rewrite IH. case_match; lia. }
  induction b as [|[o toks] b IH]; [done|].
  cbn [flat_map fst snd]. rewrite Happ, IH, sumObj_cons.
  f_equal. clear IH. induction toks as [|[t trs] toks IH]; [done|].
  cbn [flat_map fst snd]. rewrite Happ, IH, sumObj_cons.
  f_equal. clear IH.
  induction trs as [|[tr a] trs IH]; [by case_bool_decide|].
  cbn [map fst snd]. rewrite sumObj_cons. unfold S in *. cbn [fold_right token amount].
  rewrite IH. by case_bool_decide.
Qed.

Lemma tokenTotal_addBalance b o t tr a tok :
  tokenTotal (addBalance b o t tr a) tok =
    tokenTotal b tok + (if bool_decide (t = tok) then a else 0).
Proof.
  rewrite !tokenTotal_sumObj. unfold addBalance.
  set (N := λ (t : string) (trs : list (string * Z)),
    if bool_decide (t = tok) then sumObj (λ _ a, a) trs else 0).
  set (M := λ (_ : string) (toks : list (string * list (string * Z))),
    sumObj N toks).
  rewrite (sumObj_set M b). unfold M at 3. rewrite (sumObj_set N).
  assert (HN : N t (obj_set (default [] (obj_get (default [] (obj_get b o)) t)) tr
                 (default 0 (obj_get
                    (default [] (obj_get (default [] (obj_get b o)) t)) tr) + a)) =
               N t (default [] (obj_get (default [] (obj_get b o)) t)) +
               (if bool_decide (t = tok) then a else 0)).
  { unfold N. case_bool_decide; [|lia]. rewrite sumObj_set.
    destruct (obj_get _ tr); simpl; lia. }
  rewrite HN.
  assert (HN0 : N t [] = 0) by (unfold N; by case_bool_decide).
  destruct (obj_get b o) as [toks|]; unfold default, id.
  - unfold M. destruct (obj_get toks t) as [trs|]; [lia|]. rewrite HN0. lia.
  - cbn [obj_get]. rewrite HN0. unfold sumObj at 2. simpl. lia.
Qed.

(** X5. Replaying transfers on a book moves balances around but creates and
    destroys nothing: the total held in every token, over all owners and
    tranches, is unchanged. *)
Theorem applyTransfers_conserves (b : BalanceBook.t)
    (transfers : list TransferItem.t) (tok : string) :
  tokenTotal (applyTransfers b transfers) tok = tokenTotal b tok.
Proof.
  unfold applyTransfers. revert b.
  induction transfers as [|x xs IH]; intros b; simpl; [done|].
  rewrite IH, !tokenTotal_addBalance. case_bool_decide; lia.
Qed.

End BalanceBookMore.

(** ** The checks of a ring *)

Lemma ordersOf_lookup st ps os i p :
  ordersOf st ps os → ps !! i = Some p →
  ∃ o, os !! i = Some o ∧ orderOf st p = Ok o.
Proof.
  intros H Hp. destruct (Forall2_lookup_l _ _ _ _ _ H Hp) as (o & Ho & Hpo).
  exists o. split; [done|]. by apply deref_Ok.
Qed.

Lemma prevIndex_lt i n : (0 < n)%nat → (prevIndex i n < n)%nat.
Proof. intros Hn. unfold prevIndex. apply Nat.mod_upper_bound. lia. Qed.

(** X6. On a ring whose orders are all in the batch, [checkOrdersValid]
    only rewrites the [valid] flag, never sets it on an invalid ring, and
    leaves it set exactly when the ring has 2 to 8 participations and every
    order is valid and sells the token (and token type) its predecessor
    buys. *)
Theorem checkOrdersValid_spec (st : Store) (r : Ring.t) (os : list Order.t) :
  ordersOf st (Ring.participations r) os →
  ∃ v, checkOrdersValid st r = Ok (Ring.set_valid v r) ∧
       (v = true ↔
        Ring.valid r = true ∧
        (2 ≤ length os ≤ 8)%nat ∧
        ∀ i o oq, os !! i = Some o →
                  os !! prevIndex i (length os) = Some oq → follows o oq).
Proof.
  intros Hos. unfold checkOrdersValid.
  set (ps := Ring.participations r) in *. set (n := length ps).
  assert (Hlen : length os = n) by (symmetry; by eapply Forall2_length).
  set (v0 := Ring.valid r && ensure ((1 <? n)%nat && (n <=? 8)%nat) "invald ring size").
  set (Inv := λ (pre : list nat) (v : bool),
    v = true ↔ v0 = true ∧
      ∀ i o oq, i ∈ pre → os !! i = Some o →
                os !! prevIndex i n = Some oq → follows o oq).
  match goal with |- context [foldM ?body _ _] =>
    destruct (foldM_total body Inv (seq 0 n) v0) as (v & Hrun & HI) end.
  - unfold Inv. split; [|by intros [? _]].
    intros ->. split; [done|]. by intros i o oq ?%elem_of_nil.
  - intros pre x post v Hsplit HI.
    apply seq_split in Hsplit as (_ & Hx & _).
    destruct (lookup_lt_is_Some_2 ps x Hx) as [p Hp].
    destruct (lookup_lt_is_Some_2 ps (prevIndex x n)
                (prevIndex_lt x n ltac:(lia))) as [q Hq].
    destruct (ordersOf_lookup _ _ _ _ _ Hos Hp) as (o & Ho & Hpo).
    destruct (ordersOf_lookup _ _ _ _ _ Hos Hq) as (oq & Hoq & Hqo).
    apply deref_Ok in Hpo, Hqo.
    exists (v && Order.valid o &&
            bool_decide (Order.tokenS o = Order.tokenB oq) &&
            bool_decide (Order.tokenTypeS o = Order.tokenTypeB oq)).
    split.
    { cbv beta. unfold ensure, orderOf, deref.
      destruct v; simpl; [|done].
      repeat (first [rewrite Hp|rewrite Hq|rewrite Hpo|rewrite Hqo]; simpl).
      destruct (Order.valid o); simpl; [|done].
      repeat (first [rewrite Hp|rewrite Hq|rewrite Hpo|rewrite Hqo]; simpl).
      destruct (bool_decide (Order.tokenS o = Order.tokenB oq)); simpl; [|done].
      repeat (first [rewrite Hp|rewrite Hq|rewrite Hpo|rewrite Hqo]; simpl).
      done. }
    unfold Inv in *. rewrite !andb_true_iff, !bool_decide_eq_true, HI.
    split.
    + intros [[[[Hv0 Hpre] Hvo] Ht] Hty]. split; [done|].
      intros i o' oq' [Hi| ->%list_elem_of_singleton]%elem_of_app Ho' Hoq'.
      * by apply (Hpre i).
      * by simplify_eq.
    + intros [Hv0 Hall].
      assert (follows o oq) as (? & ? & ?).
      { apply (Hall x); [|done|done]. apply elem_of_app. right.
        apply list_elem_of_here. }
      split; [split; [split; [split; [done|]|done]|done]|done].
      intros i o' oq' Hi. apply Hall. apply elem_of_app. by left.
  - exists v. rewrite Hrun. split; [done|].
    unfold Inv in HI. rewrite HI. unfold v0, ensure.
    rewrite !andb_true_iff, Nat.ltb_lt, Nat.leb_le, Hlen. split.
    + intros [[Hv [? ?]] Hall]. split; [done|]. split; [lia|].
      intros i o oq Ho. apply Hall; [|done]. apply elem_of_seq.
      apply lookup_lt_Some in Ho. lia.
    + intros (Hv & ? & Hall). split; [split; [done|lia]|].
      intros i o oq _. apply Hall.
Qed.

Lemma checkOrdersValid_spec_witness :
  ∃ v, checkOrdersValid Scenario.s1_store Scenario.ring01 =
         Ok (Ring.set_valid v Scenario.ring01) ∧
       (v = true ↔
        Ring.valid Scenario.ring01 = true ∧
        (2 ≤ length (orders Scenario.s1_store) ≤ 8)%nat ∧
        ∀ i o oq, orders Scenario.s1_store !! i = Some o →
                  orders Scenario.s1_store
                    !! prevIndex i (length (orders Scenario.s1_store)) = Some oq →
                  follows o oq).
Proof.
  apply (checkOrdersValid_spec Scenario.s1_store Scenario.ring01
           (orders Scenario.s1_store)).
  repeat constructor.
Defined.

(** X7. On a ring whose orders are all in the batch, [checkForSubRings]
    only rewrites the [valid] flag, never sets it on an invalid ring, and
    leaves it set exactly when no two orders of the ring sell the same
    token. *)
Theorem checkForSubRings_spec (st : Store) (r : Ring.t) (os : list Order.t) :
  ordersOf st (Ring.participations r) os →
  ∃ v, checkForSubRings st r = Ok (Ring.set_valid v r) ∧
       (v = true ↔
        Ring.valid r = true ∧ NoDup (Order.tokenS <$> os)).
Proof.
  intros Hos. unfold checkForSubRings.
  set (ps := Ring.participations r) in *. set (n := length ps).
  assert (Hlen : length os = n) by (symmetry; by eapply Forall2_length).
  set (distinct := λ i j : nat, ∀ o oq,
         os !! i = Some o → os !! j = Some oq →
         Order.tokenS o ≠ Order.tokenS oq).
  set (Inv := λ (pre : list nat) (v : bool),
    v = true ↔ Ring.valid r = true ∧
      ∀ i j, i ∈ pre → (i < j)%nat → distinct i j).
  match goal with |- context [foldM ?body _ _] =>
    destruct (foldM_total body Inv (seq 0 (n - 1)) (Ring.valid r))
      as (v & Hrun & HI) end.
  - unfold Inv. split; [|by intros [? _]].
    intros ->. split; [done|]. by intros i j ?%elem_of_nil.
  - intros pre x post v Hsplit HI.
    apply seq_split in Hsplit as (_ & Hx & _).
    destruct (lookup_lt_is_Some_2 ps x ltac:(lia)) as [p Hp].
    destruct (Forall2_lookup_l _ _ _ _ _ Hos Hp) as (o & Ho & Hpo).
    assert (Epo : orderOf st p = Ok o) by by apply deref_Ok.
    cbv beta. rewrite (proj2 (deref_Ok ps x p) Hp), Ok_bind, Epo, Ok_bind.
    set (InvJ := λ (pre' : list nat) (w : bool),
      w = true ↔ v = true ∧ ∀ j, j ∈ pre' → distinct x j).
    match goal with |- context [foldM ?body _ _] =>
      destruct (foldM_total body InvJ (seq (x + 1) (n - (x + 1))) v)
        as (w & HrunJ & HJ) end.
    + unfold InvJ. split; [|by intros [? _]].
      intros ->. split; [done|]. by intros j ?%elem_of_nil.
    + intros pre' j post' w Hsplit' HJ.
      assert (Hj : j ∈ seq (x + 1) (n - (x + 1))).
      { rewrite Hsplit'. apply elem_of_app. right. apply list_elem_of_here. }
      apply elem_of_seq in Hj.
      destruct (lookup_lt_is_Some_2 ps j ltac:(lia)) as [q Hq].
      destruct (Forall2_lookup_l _ _ _ _ _ Hos Hq) as (oq & Hoq & Hqo).
      exists (w && negb (bool_decide (Order.tokenS o = Order.tokenS oq))).
      split.
      { cbv beta. unfold orderOf, deref, ensure. rewrite Hq. simpl.
        rewrite Hqo. simpl. by destruct w. }
      unfold InvJ in *.
      rewrite andb_true_iff, negb_true_iff, bool_decide_eq_false, HJ.
      split.
      * intros [[Hv Hpre] Hne]. split; [done|].
        intros j' [Hj'| ->%list_elem_of_singleton]%elem_of_app.
        -- by apply Hpre.
        -- intros o' oq' ? ?. by simplify_eq.
      * intros [Hv Hall]. split; [split; [done|]|].
        -- intros j' Hj'. apply Hall. apply elem_of_app. by left.
        -- apply (Hall j); [|done|done]. apply elem_of_app. right.
           apply list_elem_of_here.
    + exists w. split; [done|]. unfold Inv, InvJ in *. rewrite HJ, HI.
      split.
      * intros [[Hv Hpre] Hnew]. split; [done|].
        intros i j [Hi| ->%list_elem_of_singleton]%elem_of_app Hij.
        -- by apply Hpre.
        -- destruct (decide (j < n)%nat) as [Hjn|Hjn].
           ++ apply Hnew. apply elem_of_seq. lia.
           ++ intros o' oq' _ Hoq'%lookup_lt_Some. lia.
      * intros [Hv Hall]. split; [split; [done|]|].
        -- intros i j Hi. apply Hall. apply elem_of_app. by left.
        -- intros j Hj%elem_of_seq. apply Hall; [|lia].
           apply elem_of_app. right. apply list_elem_of_here.
  - exists v. rewrite Hrun. split; [done|].
    unfold Inv in HI. rewrite HI.
    split; intros [Hv H]; (split; [done|]).
    + apply NoDup_alt. intros i j t Hi Hj.
      apply list_lookup_fmap_Some in Hi as (o & -> & Ho).
      apply list_lookup_fmap_Some in Hj as (oq & Heq & Hoq).
      destruct (lt_eq_lt_dec i j) as [[Hlt|Heq']|Hgt]; [|done|].
      * exfalso. apply (H i j) with o oq; [|done|done|done|done].
        apply elem_of_seq. apply lookup_lt_Some in Hoq. lia.
      * exfalso. apply (H j i) with oq o; [|done|done|done|done].
        apply elem_of_seq. apply lookup_lt_Some in Ho. lia.
    + intros i j _ Hij o oq Ho Hoq Heq.
      assert (i = j); [|lia].
      apply (proj1 (NoDup_alt _) H i j (Order.tokenS o));
        rewrite list_lookup_fmap; [by rewrite Ho | by rewrite Hoq, Heq].
Qed.

Lemma checkForSubRings_spec_witness :
  ∃ v, checkForSubRings Scenario.s1_store Scenario.ring01 =
         Ok (Ring.set_valid v Scenario.ring01) ∧
       (v = true ↔
        Ring.valid Scenario.ring01 = true ∧
        NoDup (Order.tokenS <$> orders Scenario.s1_store)).
Proof.
  apply (checkForSubRings_spec Scenario.s1_store Scenario.ring01
           (orders Scenario.s1_store)).
  repeat constructor.
Defined.

(** ** The answer of the trade delegate *)

Lemma foldM_app {S X} (body : S → X → result S) (xs ys : list X) (s : S) :
  foldM body (xs ++ ys) s = foldM body xs s ≫= foldM body ys.
Proof.
  revert s. induction xs as [|x xs IH]; intros s; simpl; [done|].
  destruct (body s x); simpl; [apply IH|done].
Qed.

Lemma foldM_throws {S X} (body : S → X → result S) (P : error → Prop)
    (xs : list X) (s : S) (e : error) :
  (∀ s x e, body s x = Throw e → P e) →
  foldM body xs s = Throw e → P e.
Proof.
  intros Hbody. revert s.
  induction xs as [|x xs IH]; intros s H; simpl in H; [done|].
  destruct (body s x) as [t|e'] eqn:Hx; simpl in H.
  - by eapply IH.
  - injection H as <-. by eapply Hbody.
Qed.

(** What a completed run of the loop has done: the orders without a value
    were all invalid, and the flag tells whether there was one. *)
Lemma batch_loop_post fills os cur u :
  foldM (batchGetFilledAndCheckCancelledStep fills)
    (seq 0 (length os)) (os, false) = Ok (cur, u) →
  (∀ i o, os !! i = Some o → fills !! i = None → Order.valid o = false) ∧
  (u = true ↔ (length fills < length os)%nat).
Proof.
  intros Hrun.
  set (Inv := λ (pre : list nat) (s : list Order.t * bool),
    length s.1 = length os ∧
    (∀ i, i ∉ pre → s.1 !! i = os !! i) ∧
    (∀ i o, i ∈ pre → os !! i = Some o → fills !! i = None →
       Order.valid o = false) ∧
    (s.2 = true ↔ ∃ i, i ∈ pre ∧ fills !! i = None)).
  assert (HI : Inv (seq 0 (length os)) (cur, u)).
  { eapply (foldM_invariant _ Inv); [| |exact Hrun].
    - split; [done|]. split; [done|]. split.
      + by intros i o ?%elem_of_nil.
      + simpl. split; [done|]. by intros (i & ?%elem_of_nil & _).
    - intros pre x post [c v] [c' v'] Hsplit (HL & Hrest & Hinv & Hflag) Hstep.
      simpl in HL, Hrest, Hflag.
      apply seq_split in Hsplit as (_ & Hx & Hnin).
      unfold batchGetFilledAndCheckCancelledStep in Hstep.
      apply bind_Ok in Hstep as (o & Ho%deref_Ok & Hstep).
      rewrite (Hrest x Hnin) in Ho.
      destruct (fills !! x) as [fill|] eqn:Hf.
      + injection Hstep as <- <-. split; [by simpl; rewrite length_insert|].
        split; [|split].
        * simpl. intros i Hi. rewrite list_lookup_insert_ne.
          { apply Hrest. intros ?. apply Hi, elem_of_app. by left. }
          intros ->. apply Hi, elem_of_app. right. apply list_elem_of_here.
        * intros i o' [Hi| ->%list_elem_of_singleton]%elem_of_app Ho' Hn;
            [by eapply Hinv|congruence].
        * simpl. rewrite Hflag. split.
          -- intros (i & Hi & Hn). exists i. split; [|done].
             apply elem_of_app. by left.
          -- intros (i & [Hi| ->%list_elem_of_singleton]%elem_of_app & Hn);
               [by exists i|congruence].
      + destruct (Order.valid o) eqn:Hv; [done|]. injection Hstep as <- <-.
        split; [done|]. split; [|split].
        * simpl. intros i Hi. apply Hrest. intros ?. apply Hi, elem_of_app.
          by left.
        * intros i o' [Hi| ->%list_elem_of_singleton]%elem_of_app Ho' Hn;
            [by eapply Hinv|congruence].
        * simpl. split; [|done]. intros _. exists x. split; [|done].
          apply elem_of_app. right. apply list_elem_of_here. }
  destruct HI as (_ & _ & Hinv & Hflag). simpl in Hflag. split.
  - intros i o Ho Hn. apply (Hinv i o); [|done|done].
    apply elem_of_seq. apply lookup_lt_Some in Ho. lia.
  - rewrite Hflag. split.
    + intros (i & [_ Hi]%elem_of_seq & Hn%lookup_ge_None). lia.
    + intros Hlt. exists (length fills). split.
      * apply elem_of_seq. lia.
      * by apply lookup_ge_None.
Qed.

(** The loop completes when every order without a value is invalid. *)
Lemma batch_loop_total fills os :
  (∀ i o, os !! i = Some o → fills !! i = None → Order.valid o = false) →
  ∃ s, foldM (batchGetFilledAndCheckCancelledStep fills)
         (seq 0 (length os)) (os, false) = Ok s.
Proof.
  intros Hinv.
  destruct (foldM_total (batchGetFilledAndCheckCancelledStep fills)
    (λ pre (s : list Order.t * bool),
       length s.1 = length os ∧ ∀ i, i ∉ pre → s.1 !! i = os !! i)
    (seq 0 (length os)) (os, false)) as (s & Hrun & _); [done| |by exists s].
  intros pre x post [c v] Hsplit [HL Hrest]. simpl in HL, Hrest.
  apply seq_split in Hsplit as (_ & Hx & Hnin).
  destruct (lookup_lt_is_Some_2 os x Hx) as [o Ho].
  unfold batchGetFilledAndCheckCancelledStep, deref.
  rewrite (Hrest x Hnin), Ho. simpl.
  destruct (fills !! x) as [fill|] eqn:Hf.
  - eexists. split; [done|]. simpl. split; [by rewrite length_insert|].
    intros i Hi. rewrite list_lookup_insert_ne.
    { apply Hrest. intros ?. apply Hi, elem_of_app. by left. }
    intros ->. apply Hi, elem_of_app. right. apply list_elem_of_here.
  - rewrite (Hinv x o Ho Hf). eexists. split; [done|]. simpl. split; [done|].
    intros i Hi. apply Hrest. intros ?. apply Hi, elem_of_app. by left.
Qed.

(** X8. [batchGetFilledAndCheckCancelled] raises a [TypeError] exactly when
    an order that is still valid has no value in the answer of the trade
    delegate ([fills[i]] is [undefined] and [.equals] is read of it).  An
    order that is invalid already does not read [fills[i].equals]: when the
    answer is short and every order without a value is invalid nothing is
    raised, and those orders are left with [undefined] as [filledAmountS]
    ([Throw UndefinedValue]).  The run returns with numbers in all orders
    exactly when the answer has a value for every order; values beyond the
    last order are never read. *)
Theorem batch_short_answer (fills : list Z) (os : list Order.t) :
  (batchGetFilledAndCheckCancelled fills os = Throw TypeError ↔
   ∃ i o, os !! i = Some o ∧ fills !! i = None ∧ Order.valid o = true) ∧
  (batchGetFilledAndCheckCancelled fills os = Throw UndefinedValue ↔
   (length fills < length os)%nat ∧
   ∀ i o, os !! i = Some o → fills !! i = None → Order.valid o = false) ∧
  ((∃ os', batchGetFilledAndCheckCancelled fills os = Ok os') ↔
   (length os ≤ length fills)%nat) ∧
  batchGetFilledAndCheckCancelled fills os =
    batchGetFilledAndCheckCancelled (take (length os) fills) os.
Proof.
  assert (Hcases :
    (∃ i o, os !! i = Some o ∧ fills !! i = None ∧ Order.valid o = true) ∨
    (∀ i o, os !! i = Some o → fills !! i = None → Order.valid o = false)).
  { destruct (decide (Exists (λ o, Order.valid o = true)
                        (drop (length fills) os))) as [Hex|Hno].
    - left. apply Exists_exists in Hex as (o & Hin & Hv).
      apply list_elem_of_lookup in Hin as [k Hk]. rewrite lookup_drop in Hk.
      exists (length fills + k)%nat, o. split; [done|]. split; [|done].
      apply lookup_ge_None. lia.
    - right. intros i o Ho Hn%lookup_ge_None.
      destruct (Order.valid o) eqn:Hv; [|done]. exfalso. apply Hno.
      apply Exists_exists. exists o. split; [|done].
      apply (list_elem_of_lookup_2 _ (i - length fills)%nat).
      rewrite lookup_drop. rewrite <- Ho. f_equal. lia. }
  assert (Hthrow : ∀ e,
    foldM (batchGetFilledAndCheckCancelledStep fills)
      (seq 0 (length os)) (os, false) = Throw e → e = TypeError).
  { intros e. apply (foldM_throws _ (λ e, e = TypeError)). intros [c v] x e'.
    unfold batchGetFilledAndCheckCancelledStep, deref.
    destruct (c !! x) as [o|]; simpl; [|congruence].
    destruct (fills !! x); [done|]. destruct (Order.valid o); congruence. }
  assert (Hout :
    (batchGetFilledAndCheckCancelled fills os = Throw TypeError ∧
     ∃ i o, os !! i = Some o ∧ fills !! i = None ∧ Order.valid o = true) ∨
    (batchGetFilledAndCheckCancelled fills os = Throw UndefinedValue ∧
     (length fills < length os)%nat ∧
     ∀ i o, os !! i = Some o → fills !! i = None → Order.valid o = false) ∨
    ((∃ os', batchGetFilledAndCheckCancelled fills os = Ok os') ∧
     (length os ≤ length fills)%nat ∧
     ∀ i o, os !! i = Some o → fills !! i = None → Order.valid o = false)).
  { unfold batchGetFilledAndCheckCancelled.
    destruct (foldM _ _ _) as [[cur u]|e] eqn:Hrun.
    - apply batch_loop_post in Hrun as [Hinv Hflag]. right. simpl.
      destruct u.
      + left. split; [done|]. split; [by apply Hflag|done].
      + right. split; [by eexists|]. split; [|done].
        destruct (decide (length fills < length os)%nat) as [Hlt|]; [|lia].
        by apply Hflag in Hlt.
    - left. rewrite (Hthrow e eq_refl). split; [done|].
      destruct Hcases as [|Hinv]; [done|].
      destruct (batch_loop_total fills os Hinv) as [s Hs]. congruence. }
  split; [|split; [|split]].
  - split; [|intros (i & o & Ho & Hn & Hv)].
    + intros H. destruct Hout as [[_ ?]|[[H' _]|[[os' H'] _]]];
        [done|congruence|congruence].
    + destruct Hout as [[? _]|[(_ & _ & Hinv)|(_ & _ & Hinv)]]; [done| |];
        rewrite (Hinv i o Ho Hn) in Hv; done.
  - split; [|intros [Hlt Hinv]].
    + intros H. destruct Hout as [[H' _]|[[_ ?]|[[os' H'] _]]];
        [congruence|done|congruence].
    + destruct Hout as [(_ & i & o & Ho & Hn & Hv)|[[? _]|(_ & ? & _)]];
        [|done|lia]. rewrite (Hinv i o Ho Hn) in Hv. done.
  - split; [|intros Hle].
    + intros [os' H]. destruct Hout as [[H' _]|[[H' _]|(_ & ? & _)]];
        [congruence|congruence|done].
    + destruct Hout as [(_ & i & o & Ho & Hn%lookup_ge_None & _)|[(_ & ? & _)|[? _]]];
        [|lia|done]. apply lookup_lt_Some in Ho. lia.
  - unfold batchGetFilledAndCheckCancelled. f_equal.
    enough (G : ∀ xs s, (∀ i, i ∈ xs → (i < length os)%nat) →
      foldM (batchGetFilledAndCheckCancelledStep fills) xs s =
      foldM (batchGetFilledAndCheckCancelledStep (take (length os) fills)) xs s).
    { apply G. intros i ?%elem_of_seq. lia. }
    clear. induction xs as [|x xs IH]; intros s Hxs; [done|].
    simpl.
    assert (E : batchGetFilledAndCheckCancelledStep (take (length os) fills) s x =
                batchGetFilledAndCheckCancelledStep fills s x).
    { unfold batchGetFilledAndCheckCancelledStep. destruct s as [c v].
      rewrite lookup_take_lt; [done|]. apply Hxs. left. }
    rewrite E. destruct (batchGetFilledAndCheckCancelledStep fills s x); simpl;
      [|done].
    apply IH. intros i Hi. apply Hxs. by right.
Qed.

(** One valid order and one invalid order: without an answer for the valid
    order the run raises; without an answer for the invalid order only, it
    goes on and leaves [undefined] behind. *)
Lemma batch_short_answer_cases :
  let invalid := Order.set_valid false Scenario.s3_order in
  batchGetFilledAndCheckCancelled [] [Scenario.s3_order] = Throw TypeError ∧
  batchGetFilledAndCheckCancelled [] [invalid] = Throw UndefinedValue ∧
  batchGetFilledAndCheckCancelled [300] [Scenario.s3_order; invalid] =
    Throw UndefinedValue ∧
  batchGetFilledAndCheckCancelled [300] [invalid; Scenario.s3_order] =
    Throw TypeError ∧
  batchGetFilledAndCheckCancelled [300; 7] [Scenario.s3_order] =
    Ok [Order.set_filledAmountS 300 Scenario.s3_order].
Proof. repeat split; vm_compute; reflexivity. Qed.

(** ** The transfers of a ring *)

Lemma addTokenTransfer_post ctx items tokenType fromTranche token from to
    amount data items' :
  addTokenTransfer ctx items tokenType fromTranche token from to amount data
    = Ok items' →
  ∃ new, items' = items ++ new ∧ (length new ≤ 1)%nat ∧
         Forall (properTransfer ctx) new ∧
         Forall (λ x, TransferItem.from x = from ∧ TransferItem.token x = token)
           new.
Proof.
  unfold addTokenTransfer. intros H.
  destruct (negb (bool_decide (from = to)) && (0 <? amount)) eqn:Hguard.
  - apply andb_true_iff in Hguard as [Hne%negb_true_iff%bool_decide_eq_false
                                       Hpos%Z.ltb_lt].
    destruct tokenType.
    + injection H as <-. eexists. split; [done|]. split; [simpl; lia|].
      split; [|by repeat constructor].
      repeat constructor; done.
    + destruct (canSend _ _ _ _ _ _ _) as [ESC dest] eqn:Hsend.
      inv_run. eexists. split; [done|]. split; [simpl; lia|].
      split; [|by repeat constructor].
      constructor; [|done]. split; [done|]. split; [done|]. simpl.
      eexists. split; [done|]. rewrite Hsend. simpl. split; [|done].
      unfold truthy. destruct data as [[|c d]|]; simpl; done.
  - injection H as <-. exists []. rewrite app_nil_r.
    split; [done|]. split; [simpl; lia|]. by split.
Qed.

(** X9. Every transfer a ring asks for ([transferTokens]) moves a positive
    amount between two different addresses, out of the account of the owner
    of an order of the ring and in the token that order sells or pays its
    fee in; ERC20 transfers carry no tranche and no data, ERC1400 transfers
    passed the [canSend] probe.  A participation gives at most four
    transfers. *)
Theorem transferTokens_proper (ctx : Context) (feeRecipient : string)
    (st : Store) (r : Ring.t) (items : list TransferItem.t) :
  transferTokens ctx feeRecipient st r = Ok items →
  Forall (properTransfer ctx) items ∧
  Forall (λ x, ∃ p o, p ∈ Ring.participations r ∧
                 orders st !! Participation.order p = Some o ∧
                 TransferItem.from x = Order.owner o ∧
                 (TransferItem.token x = Order.tokenS o ∨
                  TransferItem.token x = Order.feeToken o)) items ∧
  (length items ≤ 4 * length (Ring.participations r))%nat.
Proof.
  unfold transferTokens. set (ps := Ring.participations r).
  set (sold := λ x : TransferItem.t, ∃ p o, p ∈ ps ∧
                 orders st !! Participation.order p = Some o ∧
                 TransferItem.from x = Order.owner o ∧
                 (TransferItem.token x = Order.tokenS o ∨
                  TransferItem.token x = Order.feeToken o)).
  intros Hrun.
  set (Inv := λ (pre : list nat) (items : list TransferItem.t),
    Forall (properTransfer ctx) items ∧ Forall sold items ∧
    (length items ≤ 4 * length pre)%nat).
  enough (HI : Inv (seq 0 (length ps)) items).
  { unfold Inv in HI. by rewrite length_seq in HI. }
  eapply foldM_invariant; [| |exact Hrun].
  { split; [done|]. split; [done|]. simpl. lia. }
  intros pre i post acc acc' _ (Hgood & Hsold & Hlen) Hstep.
  unfold transferTokensStep in Hstep.
  apply bind_Ok in Hstep as (p & Hp & Hstep).
  apply bind_Ok in Hstep as (o & Ho & Hstep).
  apply bind_Ok in Hstep as (prevP & HprevP & Hstep).
  apply bind_Ok in Hstep as (prevO & HprevO & Hstep).
  unfold transferFillAndFees in Hstep.
  destruct (bool_decide (Order.tokenS o = Order.feeToken o)) eqn:Hfee.
  all: inv_run.
  all: repeat match goal with
       | H : addTokenTransfer _ _ _ _ _ _ _ _ _ = Ok _ |- _ =>
           apply addTokenTransfer_post in H as (? & -> & ? & ? & ?)
       end.
  all: apply deref_Ok in Ho.
  all: assert (Hsoldnew : ∀ new tok,
         (tok = Order.tokenS o ∨ tok = Order.feeToken o) →
         Forall (λ x, TransferItem.from x = Order.owner o ∧
                      TransferItem.token x = tok) new →
         Forall sold new)
       by (intros new tok Htok Hnew; eapply Forall_impl; [exact Hnew|];
           intros y [? ?]; exists p, o;
           split; [by eapply list_elem_of_lookup_2|];
           split; [done|]; split; [done|]; by subst tok).
  all: unfold Inv; rewrite !length_app, !Forall_app.
  all: split; [done|].
  all: split; [|simpl; lia].
  all: repeat split; eauto.
Qed.

Lemma transferTokens_proper_witness :
  transferTokens Scenario.s2_chain "0xMINER" Settled.s2.1 Settled.s2.2 =
    Ok Settled.s2_transfers ∧
  Forall (properTransfer Scenario.s2_chain) Settled.s2_transfers ∧
  Forall (λ x, ∃ p o, p ∈ Ring.participations Settled.s2.2 ∧
                 orders Settled.s2.1 !! Participation.order p = Some o ∧
                 TransferItem.from x = Order.owner o ∧
                 (TransferItem.token x = Order.tokenS o ∨
                  TransferItem.token x = Order.feeToken o))
    Settled.s2_transfers ∧
  (length Settled.s2_transfers ≤ 4 * length (Ring.participations Settled.s2.2))%nat.
Proof.
  split; [vm_compute; reflexivity|].
  apply (transferTokens_proper Scenario.s2_chain "0xMINER"
           Settled.s2.1 Settled.s2.2 Settled.s2_transfers).
  vm_compute. reflexivity.
Defined.

(** ** Resizing a ring *)

(** X10. One call of [resize(i, smallest)] touches the predecessor [j] of
    [i] only, and of it only the two fill amounts; it never raises
    [fillAmountB]; it answers [i] exactly when it lowered [fillAmountB] (then
    to what [i] hands over after the [tokenS] fee, with [fillAmountS]
    recomputed from the rate of the order), and [smallest] otherwise; in both
    cases the predecessor ends up buying no more than [i] hands over. *)
Theorem resize_post (ctx : Context) (st : Store) (ps ps' : list Participation.t)
    (i smallest smallest' : nat) :
  resize ctx st ps i smallest = Ok (ps', smallest') →
  ∃ p o prevP prevO prevP',
    ps !! i = Some p ∧ orders st !! Participation.order p = Some o ∧
    ps !! prevIndex i (length ps) = Some prevP ∧
    ps' = <[prevIndex i (length ps) := prevP']> ps ∧
    Participation.fillAmountB prevP' ≤ Participation.fillAmountB prevP ∧
    Participation.fillAmountB prevP' ≤ postFeeFillAmountS ctx o p ∧
    ((Participation.fillAmountB prevP ≤ postFeeFillAmountS ctx o p ∧
      smallest' = smallest ∧ prevP' = prevP) ∨
     (postFeeFillAmountS ctx o p < Participation.fillAmountB prevP ∧
      smallest' = i ∧
      orders st !! Participation.order prevP = Some prevO ∧
      Order.amountB prevO ≠ 0 ∧
      prevP' =
        Participation.set_fillAmountS
          ((postFeeFillAmountS ctx o p * Order.amountS prevO)
             `quot` Order.amountB prevO)
          (Participation.set_fillAmountB (postFeeFillAmountS ctx o p) prevP))).
Proof.
  unfold resize. intros H.
  apply bind_Ok in H as (p & Hp%deref_Ok & H).
  apply bind_Ok in H as (o & Ho%deref_Ok & H).
  apply bind_Ok in H as (prevP & HprevP%deref_Ok & H).
  apply bind_Ok in H as (post & Hpost & H).
  assert (post = postFeeFillAmountS ctx o p) as ->.
  { unfold postFeeFillAmountS.
    destruct (0 <? Order.tokenSFeePercentage o).
    - apply bind_Ok in Hpost as (f & Hf & Hpost).
      apply dividedToIntegerBy_Ok in Hf as [_ ->]. by injection Hpost as <-.
    - by injection Hpost as <-. }
  clear Hpost.
  destruct (postFeeFillAmountS ctx o p <? Participation.fillAmountB prevP)
    eqn:Hlt.
  - apply Z.ltb_lt in Hlt.
    apply bind_Ok in H as (prevO & HprevO%deref_Ok & H).
    apply bind_Ok in H as (? & [-> _]%bigNumber_Ok & H).
    apply bind_Ok in H as (? & [-> _]%bigNumber_Ok & H).
    apply bind_Ok in H as (f & Hf & H).
    apply dividedToIntegerBy_Ok in Hf as [Hne ->].
    injection H as <- <-.
    exists p, o, prevP, prevO. eexists.
    split; [done|]. split; [done|]. split; [done|]. split; [done|].
    destruct prevP; simpl in *.
    split; [lia|]. split; [lia|]. right. done.
  - apply Z.ltb_ge in Hlt. injection H as <- <-.
    exists p, o, prevP, o, prevP.
    split; [done|]. split; [done|]. split; [done|].
    split; [by rewrite list_insert_id|].
    split; [lia|]. split; [lia|]. by left.
Qed.

Lemma resize_post_witness :
  resize Scenario.s2_chain Scenario.s2_store Resizing.ps 1 0 =
    Ok (Resizing.resized, 1%nat) ∧
  ∃ p o prevP prevO prevP',
    Resizing.ps !! 1%nat = Some p ∧
    orders Scenario.s2_store !! Participation.order p = Some o ∧
    Resizing.ps !! prevIndex 1 (length Resizing.ps) = Some prevP ∧
    Resizing.resized = <[prevIndex 1 (length Resizing.ps) := prevP']> Resizing.ps ∧
    Participation.fillAmountB prevP' ≤ Participation.fillAmountB prevP ∧
    Participation.fillAmountB prevP' ≤ postFeeFillAmountS Scenario.s2_chain o p ∧
    ((Participation.fillAmountB prevP ≤ postFeeFillAmountS Scenario.s2_chain o p ∧
      1%nat = 0%nat ∧ prevP' = prevP) ∨
     (postFeeFillAmountS Scenario.s2_chain o p < Participation.fillAmountB prevP ∧
      1%nat = 1%nat ∧
      orders Scenario.s2_store !! Participation.order prevP = Some prevO ∧
      Order.amountB prevO ≠ 0 ∧
      prevP' =
        Participation.set_fillAmountS
          ((postFeeFillAmountS Scenario.s2_chain o p * Order.amountS prevO)
             `quot` Order.amountB prevO)
          (Participation.set_fillAmountB
             (postFeeFillAmountS Scenario.s2_chain o p) prevP))).
Proof.
  split; [vm_compute; reflexivity|].
  apply (resize_post Scenario.s2_chain Scenario.s2_store Resizing.ps
           Resizing.resized 1 0 1).
  vm_compute. reflexivity.
Defined.

(** ** Limiting the fill by the fee *)

Lemma quot_nonneg_spec (a b : Z) :
  0 ≤ a → 0 < b → b * (a `quot` b) ≤ a < b * (a `quot` b) + b.
Proof.
  intros Ha Hb. rewrite Z.quot_div_nonneg by lia.
  pose proof (Z.div_mod a b ltac:(lia)).
  pose proof (Z.mod_pos_bound a b Hb). lia.
Qed.

Lemma limitFillByFee_le (ctx : Context) (st st' : Store) (o : Order.t)
    (p : Participation.t) (fillS fee : Z) :
  limitFillByFee ctx st o p = Ok (st', fillS, fee) →
  0 < Order.amountS o →
  0 ≤ Order.feeAmount o →
  0 ≤ Participation.fillAmountS p ≤ Participation.ringSpendableS p →
  fillS ≤ Participation.fillAmountS p ∧
  fee ≤ (Order.feeAmount o * Participation.fillAmountS p)
          `quot` Order.amountS o ∧
  (0 < fee → ∃ spendableFee,
     OrderUtil.getSpendableFee ctx st o = Ok (st', spendableFee) ∧
     fee ≤ spendableFee) ∧
  (Order.feeToken o = Order.tokenS o →
   fillS + fee ≤ Participation.ringSpendableS p).
Proof.
  unfold limitFillByFee. intros H Ha Hf [Hfill HS].
  apply bind_Ok in H as (? & [-> _]%bigNumber_Ok & H).
  apply bind_Ok in H as (? & [-> _]%bigNumber_Ok & H).
  set (a := Order.amountS o) in *. set (f := Order.feeAmount o) in *.
  set (fill := Participation.fillAmountS p) in *.
  set (S := Participation.ringSpendableS p) in *.
  apply bind_Ok in H as (g & Hg & H).
  apply dividedToIntegerBy_Ok in Hg as [_ ->].
  pose proof (quot_nonneg_spec (f * fill) a ltac:(nia) Ha) as Hgspec.
  set (g := (f * fill) `quot` a) in *.
  destruct (0 <? g) eqn:Hpos.
  - apply Z.ltb_lt in Hpos.
    apply bind_Ok in H as ([st1 sf] & Hsf & H).
    destruct (bool_decide (Order.feeToken o = Order.tokenS o) && (S <? fill + g))
      eqn:Hbranch.
    + apply andb_true_iff in Hbranch as [_ Hshort%Z.ltb_lt].
      apply bind_Ok in H as (u & Hassert%assert_Ok%Z.eqb_eq & H).
      apply bind_Ok in H as (q1 & Hq1 & H).
      apply bind_Ok in H as (q2 & Hq2 & H).
      apply dividedToIntegerBy_Ok in Hq1 as [_ ->].
      apply dividedToIntegerBy_Ok in Hq2 as [_ ->].
      injection H as -> <- <-.
      pose proof (quot_nonneg_spec (S * a) (a + f) ltac:(nia) ltac:(lia)) as H1.
      pose proof (quot_nonneg_spec (S * f) (a + f) ltac:(nia) ltac:(lia)) as H2.
      set (q1 := (S * a) `quot` (a + f)) in *.
      set (q2 := (S * f) `quot` (a + f)) in *.
      assert (q1 + q2 ≤ S) by nia.
      assert (0 ≤ q1) by nia.
      assert (q1 ≤ fill) by nia.
      assert (q2 ≤ g) by nia.
      split; [done|]. split; [done|]. split; [|done].
      intros _. exists sf. split; [done|]. nia.
    + destruct (sf <? g) eqn:Hsfg.
      * apply Z.ltb_lt in Hsfg.
        apply bind_Ok in H as (q & Hq & H).
        apply dividedToIntegerBy_Ok in Hq as [Hf0 ->].
        injection H as -> <- <-.
        assert (q_le : (sf * a) `quot` f ≤ fill).
        { apply Z.quot_le_upper_bound; [lia|]. nia. }
        split; [done|]. split; [lia|].
        split; [intros _; exists sf; split; [done|lia]|].
        intros Htok. rewrite bool_decide_eq_true_2 in Hbranch by done.
        apply Z.ltb_ge in Hbranch. lia.
      * apply Z.ltb_ge in Hsfg. injection H as -> <- <-.
        split; [done|]. split; [done|].
        split; [intros _; exists sf; split; [done|lia]|].
        intros Htok. rewrite bool_decide_eq_true_2 in Hbranch by done.
        apply Z.ltb_ge in Hbranch. lia.
  - apply Z.ltb_ge in Hpos. injection H as -> <- <-.
    split; [done|]. split; [done|]. split; [lia|]. lia.
Qed.

(** X11. For an order with [amountS > 0] and [feeAmount >= 0] and a
    participation with [0 <= fillAmountS <= ringSpendableS], the fee limit of
    [setMaxFillAmounts] never raises [fillAmountS] and never raises the fee
    above the pro-rata fee; a positive fee fits the fee spendable; and when
    the fee is paid in [tokenS], fill and fee together fit
    [ringSpendableS]. *)
Theorem limitFillByFee_bounds (ctx : Context) (st st' : Store) (o : Order.t)
    (p : Participation.t) (fillS fee : Z) :
  limitFillByFee ctx st o p = Ok (st', fillS, fee) →
  0 < Order.amountS o →
  0 ≤ Order.feeAmount o →
  0 ≤ Participation.fillAmountS p ≤ Participation.ringSpendableS p →
  fillS ≤ Participation.fillAmountS p ∧
  fee ≤ (Order.feeAmount o * Participation.fillAmountS p)
          `quot` Order.amountS o ∧
  (0 < fee → ∃ spendableFee,
     OrderUtil.getSpendableFee ctx st o = Ok (st', spendableFee) ∧
     fee ≤ spendableFee) ∧
  (Order.feeToken o = Order.tokenS o →
   fillS + fee ≤ Participation.ringSpendableS p).
Proof. apply limitFillByFee_le. Qed.

Lemma limitFillByFee_bounds_witness :
  545 ≤ 600 ∧
  54 ≤ (Order.feeAmount Scenario.s3_order * 600)
         `quot` Order.amountS Scenario.s3_order ∧
  (0 < 54 → ∃ spendableFee,
     OrderUtil.getSpendableFee Scenario.s3_chain Scenario.s3_queried
       Scenario.s3_order = Ok (Scenario.s3_queried, spendableFee) ∧
     54 ≤ spendableFee) ∧
  (Order.feeToken Scenario.s3_order = Order.tokenS Scenario.s3_order →
   545 + 54 ≤ 600).
Proof.
  apply (limitFillByFee_bounds Scenario.s3_chain Scenario.s3_queried
           Scenario.s3_queried Scenario.s3_order
           (Participation.set_fillAmountS 600
              (Participation.set_ringSpendableS 600 (Participation.init 0)))
           545 54).
  - vm_compute. reflexivity.
  - vm_compute. reflexivity.
  - vm_compute. congruence.
  - vm_compute. split; congruence.
Defined.

(** ** What a settled ring writes into its orders *)

Lemma adjustOrderState_filled st p st' :
  adjustOrderState st p = Ok st' →
  ∃ o', orders st' !! Participation.order p = Some o' ∧
        Order.filledAmountS o' ≤ Order.amountS o'.
Proof.
  intros H. pose proof (adjustOrderState_orders _ _ _ H) as (o & Ho & Hos).
  unfold adjustOrderState in H.
  apply bind_Ok in H as (st1 & Hw & H).
  apply withOrder_post in Hw as (o1 & Ho1 & Hos1 & _).
  apply bind_Ok in H as (o' & Ho'%deref_Ok & H).
  rewrite Hos1, list_lookup_insert_eq in Ho'
    by by apply lookup_lt_Some in Ho1.
  assert (Hle : Order.filledAmountS o' ≤ Order.amountS o').
  { inv_run. by apply Z.leb_le. }
  exists o'. split; [|done]. rewrite Hos.
  rewrite list_lookup_insert_eq by by apply lookup_lt_Some in Ho.
  simplify_eq. unfold addFilled. do 2 f_equal. lia.
Qed.

Lemma totalFill_absent ps j :
  (∀ q, q ∈ ps → Participation.order q ≠ j) → totalFill ps j = 0.
Proof.
  induction ps as [|p ps IH]; intros H; simpl; [done|].
  rewrite decide_False by apply H, list_elem_of_here.
  rewrite IH; [done|]. intros q Hq. apply H. by apply list_elem_of_further.
Qed.

(** X12. When [adjustOrderStates] succeeds, every order of the batch has had
    [filledAmountS] raised by what the participations of the ring that refer
    to it sell ([fillAmountS + splitS], summed when an order takes part more
    than once), nothing else of an order has changed, and no order of the
    ring is filled beyond its [amountS]. *)
Theorem adjustOrderStates_filled (st st' : Store) (r : Ring.t) :
  adjustOrderStates st r = Ok st' →
  (∀ j, orders st' !! j =
        addFilled (totalFill (Ring.participations r) j) <$> orders st !! j) ∧
  (∀ p, p ∈ Ring.participations r →
     ∃ o', orders st' !! Participation.order p = Some o' ∧
           Order.filledAmountS o' ≤ Order.amountS o').
Proof.
  unfold adjustOrderStates. intros H.
  split; [by apply adjustOrderStates_orders|].
  revert st H. induction (Ring.participations r) as [|q ps IH]; intros st H p Hp.
  { by apply elem_of_nil in Hp. }
  simpl in H. apply bind_Ok in H as (st1 & Hq & H).
  destruct (decide (Exists (λ p', Participation.order p' = Participation.order p) ps))
    as [(p' & Hp' & Heq)%Exists_exists|Hnone].
  - rewrite <- Heq. by apply (IH st1).
  - apply elem_of_cons in Hp as [->|Hp];
      [|exfalso; apply Hnone, Exists_exists; eauto].
    apply adjustOrderState_filled in Hq as (o' & Ho' & Hle).
    exists o'. split; [|done].
    rewrite (adjustOrderStates_orders _ _ _ H), Ho'. simpl.
    rewrite totalFill_absent, addFilled_0; [done|].
    intros p' Hp' Heq. apply Hnone, Exists_exists. eauto.
Qed.

Lemma adjustOrderStates_filled_witness :
  (∀ j, orders Scenario.s1_adjusted !! j =
        addFilled (totalFill (Ring.participations Scenario.s1_ring) j)
          <$> orders Scenario.s1_settled !! j) ∧
  (∀ p, p ∈ Ring.participations Scenario.s1_ring →
     ∃ o', orders Scenario.s1_adjusted !! Participation.order p = Some o' ∧
           Order.filledAmountS o' ≤ Order.amountS o').
Proof.
  apply (adjustOrderStates_filled Scenario.s1_settled Scenario.s1_adjusted
           Scenario.s1_ring).
  vm_compute. reflexivity.
Defined.

(** ** The all-or-none loop: what it leaves alone *)

Lemma set_orders_id st : set_orders (orders st) st = st.
Proof. by destruct st. Qed.

(** X13. [checkRings] is idempotent: run on the orders and rings it
    returned, it stops after one pass and changes nothing. *)
Theorem checkRings_idempotent (fuel fuel' : nat) (st st' : Store)
    (rings rings' : list Ring.t) (passes : nat) :
  checkRings fuel st rings = Some (Ok (st', rings'), passes) →
  checkRings (S fuel') st' rings' = Some (Ok (st', rings'), 1%nat).
Proof.
  revert st rings passes.
  induction fuel as [|fuel IH]; intros st rings passes H; [done|].
  simpl in H. destruct (checkAllOrNone (orders st) false) as [os flag] eqn:Hpass.
  destruct flag.
  - destruct (recheckRings _ rings) as [[st1 rings1]|e]; [|by simplify_eq].
    destruct (checkRings fuel st1 rings1) as [[out n]|] eqn:Hrec; [|done].
    simpl in H. simplify_eq. by eapply IH.
  - pose proof (checkAllOrNone_post _ _ _ _ Hpass) as (_ & _ & _ & HF).
    destruct (HF eq_refl) as (_ & -> & _).
    rewrite set_orders_id in H. injection H as <- <- <-.
    simpl. by rewrite Hpass, set_orders_id.
Qed.

Lemma checkRings_idempotent_witness :
  checkRings 1 Scenario.aon_final.1 Scenario.aon_final.2 =
    Some (Ok (Scenario.aon_final.1, Scenario.aon_final.2), 1%nat).
Proof.
  apply (checkRings_idempotent 10 0 Scenario.aon_settled.1 Scenario.aon_final.1
           Scenario.aon_settled.2 Scenario.aon_final.2 3).
  vm_compute. reflexivity.
Defined.

Lemma ringCleared_refl r : ringCleared r r.
Proof. exists (Ring.valid r). split; [by destruct r|done]. Qed.

Lemma ringCleared_trans r1 r2 r3 :
  ringCleared r1 r2 → ringCleared r2 r3 → ringCleared r1 r3.
Proof.
  intros (v1 & -> & H1) (v2 & -> & H2). exists v2. split; [done|].
  intros Hv. apply H1. by apply H2.
Qed.

Lemma orderReverted_refl o : orderReverted o o.
Proof.
  exists (Order.valid o), (Order.filledAmountS o). split; [by destruct o|done].
Qed.

Lemma orderReverted_trans o1 o2 o3 :
  orderReverted o1 o2 → orderReverted o2 o3 → orderReverted o1 o3.
Proof.
  intros (v1 & f1 & -> & H1) (v2 & f2 & -> & H2). exists v2, f2.
  split; [done|]. intros Hv. apply H1. by apply H2.
Qed.

Lemma Forall2_refl_all {A} (R : A → A → Prop) (l : list A) :
  (∀ x, R x x) → Forall2 R l l.
Proof. intros HR. induction l; constructor; auto. Qed.

Lemma Forall2_trans_all {A} (R : A → A → Prop) (l1 l2 l3 : list A) :
  (∀ x y z, R x y → R y z → R x z) →
  Forall2 R l1 l2 → Forall2 R l2 l3 → Forall2 R l1 l3.
Proof.
  intros HR H12. revert l3. induction H12; intros l3 H23.
  - by inversion H23.
  - inversion H23; subst. constructor; eauto.
Qed.

Lemma checkAllOrNone_reverted os flag os' flag' :
  checkAllOrNone os flag = (os', flag') → Forall2 orderReverted os os'.
Proof.
  revert flag os' flag'. induction os as [|o os IH]; intros flag os' flag' H.
  - simpl in H. injection H as <- <-. constructor.
  - simpl in H.
    destruct (Order.allOrNone o);
      destruct (checkAllOrNone os _) as [rest fl] eqn:Hrest;
      injection H as <- <-; (constructor; [|by eapply IH]).
    + exists (Order.valid (OrderUtil.validateAllOrNone o)),
        (Order.filledAmountS o).
      split; [by destruct o|].
      rewrite validateAllOrNone_valid. by intros [? _]%andb_true_iff.
    + apply orderReverted_refl.
Qed.

Lemma checkOrdersValid_cleared st r r' :
  checkOrdersValid st r = Ok r' → ringCleared r r'.
Proof.
  unfold checkOrdersValid. intros H.
  apply bind_Ok in H as (v & Hloop & H). injection H as <-.
  exists v. split; [done|].
  eapply (foldM_invariant _ (λ _ w, w = true → Ring.valid r = true));
    [| |exact Hloop].
  - by intros [? _]%andb_true_iff.
  - intros pre x post w w' _ Hw Hstep ->.
    destruct w; [by apply Hw|].
    simpl in Hstep. by inv_run.
Qed.

Lemma revertOrderState_reverted st p st' :
  revertOrderState st p = Ok st' →
  spendables st' = spendables st ∧
  Forall2 orderReverted (orders st) (orders st').
Proof.
  unfold revertOrderState. intros H.
  apply bind_Ok in H as (st1 & Hw & H).
  apply withOrder_post in Hw as (o & Ho & Hos & Hsp). inv_run.
  split; [done|]. rewrite Hos.
  apply Forall2_same_length_lookup_2; [by rewrite length_insert|].
  intros i x y Hx Hy.
  destruct (decide (i = Participation.order p)) as [->|Hne].
  - rewrite list_lookup_insert_eq in Hy by by apply lookup_lt_Some in Ho.
    simplify_eq.
    match goal with |- orderReverted ?a _ =>
      exists (Order.valid a),
        (Order.filledAmountS a -
           (Participation.fillAmountS p + Participation.splitS p));
      split; [by destruct a|done] end.
  - rewrite list_lookup_insert_ne in Hy by done. simplify_eq.
    apply orderReverted_refl.
Qed.

Lemma revertOrderStats_reverted st r st' :
  revertOrderStats st r = Ok st' →
  spendables st' = spendables st ∧
  Forall2 orderReverted (orders st) (orders st').
Proof.
  unfold revertOrderStats. intros H.
  eapply (foldM_invariant _ (λ _ s,
    spendables s = spendables st ∧
    Forall2 orderReverted (orders st) (orders s))); [| |exact H].
  - split; [done|]. apply Forall2_refl_all, orderReverted_refl.
  - intros pre x post s t _ [Hsp Hos] (Hsp' & Hos')%revertOrderState_reverted.
    split; [congruence|].
    eapply Forall2_trans_all; [apply orderReverted_trans|done|done].
Qed.

Lemma recheckRings_reverted st rings st' rings' :
  recheckRings st rings = Ok (st', rings') →
  spendables st' = spendables st ∧
  Forall2 orderReverted (orders st) (orders st') ∧
  Forall2 ringCleared rings rings'.
Proof.
  revert st st' rings'.
  induction rings as [|r rings IH]; intros st st' rings' H; simpl in H.
  - inv_run. split; [done|].
    split; [apply Forall2_refl_all, orderReverted_refl|constructor].
  - apply bind_Ok in H as (r1 & Hr1%checkOrdersValid_cleared & H).
    apply bind_Ok in H as (st1 & Hrev & H).
    apply bind_Ok in H as ([st2 rest] & (Hsp & Hos & Hrs)%IH & H). inv_run.
    assert (spendables st1 = spendables st ∧
            Forall2 orderReverted (orders st) (orders st1)) as [Hsp1 Hos1].
    { destruct (negb (Ring.valid r1) && Ring.valid r).
      - by apply revertOrderStats_reverted in Hrev.
      - inv_run. split; [done|]. apply Forall2_refl_all, orderReverted_refl. }
    split; [congruence|]. split; [|by constructor].
    eapply Forall2_trans_all; [apply orderReverted_trans|done|done].
Qed.

(** X14. Whatever [checkRings] does, it only clears [valid] flags (of
    orders and of rings) and rewrites [filledAmountS] of orders: the
    spendables, the participations of every ring and every other field of
    every order are as they were, and no flag is ever set again. *)
Theorem checkRings_frame (fuel : nat) (st st' : Store)
    (rings rings' : list Ring.t) (passes : nat) :
  checkRings fuel st rings = Some (Ok (st', rings'), passes) →
  spendables st' = spendables st ∧
  Forall2 orderReverted (orders st) (orders st') ∧
  Forall2 ringCleared rings rings'.
Proof.
  revert st rings passes.
  induction fuel as [|fuel IH]; intros st rings passes H; [done|].
  simpl in H. destruct (checkAllOrNone (orders st) false) as [os flag] eqn:Hpass.
  apply checkAllOrNone_reverted in Hpass.
  destruct flag.
  - destruct (recheckRings _ rings) as [[st1 rings1]|e] eqn:Hre;
      [|by simplify_eq].
    apply recheckRings_reverted in Hre as (Hsp1 & Hos1 & Hrs1).
    destruct (checkRings fuel st1 rings1) as [[out n]|] eqn:Hrec; [|done].
    simpl in H. simplify_eq.
    apply IH in Hrec as (Hsp & Hos & Hrs).
    split; [by rewrite Hsp, Hsp1|]. split.
    + eapply Forall2_trans_all; [apply orderReverted_trans|exact Hpass|].
      eapply Forall2_trans_all; [apply orderReverted_trans|exact Hos1|done].
    + eapply Forall2_trans_all; [apply ringCleared_trans|done|done].
  - simplify_eq. split; [done|]. split; [done|].
    apply Forall2_refl_all, ringCleared_refl.
Qed.

Lemma checkRings_frame_witness :
  spendables Scenario.aon_final.1 = spendables Scenario.aon_settled.1 ∧
  Forall2 orderReverted (orders Scenario.aon_settled.1)
    (orders Scenario.aon_final.1) ∧
  Forall2 ringCleared Scenario.aon_settled.2 Scenario.aon_final.2.
Proof.
  apply (checkRings_frame 10 Scenario.aon_settled.1 Scenario.aon_final.1
           Scenario.aon_settled.2 Scenario.aon_final.2 3).
  vm_compute. reflexivity.
Defined.

(** ** The margin *)

(** X15. When [calculateFees] answers [true], the margin [splitS] is not
    negative and is taken out of [fillAmountS] (their sum is the
    [fillAmountS] the call started from); a P2P order is charged no
    [feeAmount], and the [feeAmount] of any other order fits the fee
    spendable that was read. *)
Theorem calculateFees_margin (ctx : Context) (st st' : Store)
    (p prevP p' : Participation.t) :
  calculateFees ctx st p prevP = Ok (st', p', true) →
  0 ≤ Participation.splitS p' ∧
  Participation.fillAmountS p' + Participation.splitS p' =
    Participation.fillAmountS p ∧
  ∃ o, orders st !! Participation.order p = Some o ∧
       if Order.P2P o then Participation.feeAmount p' = 0
       else Participation.feeAmount p' ≤ Participation.ringSpendableFee p'.
Proof.
  assert (Hm : ∀ q q', takeMargin q prevP = (q', true) →
    0 ≤ Participation.splitS q' ∧
    Participation.fillAmountS q' + Participation.splitS q' =
      Participation.fillAmountS q ∧
    Participation.feeAmount q' = Participation.feeAmount q ∧
    Participation.ringSpendableFee q' = Participation.ringSpendableFee q).
  { unfold takeMargin. intros q q'. case_match eqn:Hle; [|done].
    apply Z.leb_le in Hle. intros [= <-]. simpl. lia. }
  unfold calculateFees. intros H.
  apply bind_Ok in H as (o & Ho%deref_Ok & H).
  destruct (Order.P2P o) eqn:HP2P.
  - apply bind_Ok in H as (fS & _ & H). apply bind_Ok in H as (fB & _ & H).
    destruct (takeMargin _ prevP) as [q ok] eqn:Htake.
    injection H as <- <- ->.
    apply Hm in Htake as (? & ? & HF & _). simpl in *.
    split; [done|]. split; [done|]. exists o. by rewrite HP2P.
  - apply bind_Ok in H as (? & _ & H). apply bind_Ok in H as (? & _ & H).
    apply bind_Ok in H as (fee & _ & H).
    apply bind_Ok in H as ([st1 sf] & _ & H).
    match type of H with
    | (if ?c then _ else _) = _ => destruct c eqn:Hfee
    end; [done|].
    apply Z.ltb_ge in Hfee.
    apply bind_Ok in H as (st2 & _ & H).
    destruct (takeMargin _ prevP) as [q ok] eqn:Htake.
    injection H as <- <- ->.
    apply Hm in Htake as (? & Hsum & HF & HR).
    split; [done|]. split.
    { rewrite Hsum. by case_match. }
    exists o. rewrite HP2P, HF, HR. split; [done|]. exact Hfee.
Qed.

Lemma calculateFees_margin_witness :
  calculateFees Scenario.s2_chain Scenario.s2_store Margin.p Margin.prevP =
    Ok (Margin.after.1.1, Margin.after.1.2, true) ∧
  Participation.splitS Margin.after.1.2 = 100 ∧
  0 ≤ Participation.splitS Margin.after.1.2 ∧
  Participation.fillAmountS Margin.after.1.2 +
    Participation.splitS Margin.after.1.2 =
    Participation.fillAmountS Margin.p ∧
  ∃ o, orders Scenario.s2_store !! Participation.order Margin.p = Some o ∧
       if Order.P2P o then Participation.feeAmount Margin.after.1.2 = 0
       else Participation.feeAmount Margin.after.1.2 ≤
              Participation.ringSpendableFee Margin.after.1.2.
Proof.
  split; [vm_compute; reflexivity|]. split; [vm_compute; reflexivity|].
  apply (calculateFees_margin Scenario.s2_chain Scenario.s2_store
           Margin.after.1.1 Margin.p Margin.prevP Margin.after.1.2).
  vm_compute. reflexivity.
Defined.

(** ** Fee payments *)

Section FeeFacts.
Import BalanceBook.
Variable ctx : Context.
Variable getBurnRate : string → Z.

Lemma truthy_Some s : truthy (Some s) = true ↔ s ≠ "".
Proof.
  unfold truthy. rewrite negb_true_iff, bool_decide_eq_false. done.
Qed.

Lemma addFeePayment_tokenTotal fb token to a tok :
  tokenTotal (addFeePayment fb token to a) tok =
    tokenTotal fb tok +
    (if truthy (Some token) && truthy to && bool_decide (token = tok)
     then a else 0).
Proof.
  unfold addFeePayment.
  destruct (truthy (Some token)), (truthy to); simpl; try lia.
  by rewrite tokenTotal_addBalance.
Qed.

Lemma addFeePayment_getBalance fb token to a o t tr :
  getBalance (addFeePayment fb token to a) o t tr =
    getBalance fb o t tr +
    (if truthy (Some token) && truthy to &&
        bool_decide (to = Some o ∧ token = t ∧ zeroAddress = tr)
     then a else 0).
Proof.
  unfold addFeePayment.
  destruct (truthy (Some token)), (truthy to) eqn:Hto; simpl; try lia.
  rewrite getBalance_addBalance. destruct to as [w|]; [|done]. simpl.
  case_decide as H1; case_bool_decide as H2; try done.
  - destruct H2. destruct H1 as (-> & -> & ->). done.
  - destruct H1. destruct H2 as ([= ->] & -> & ->). done.
Qed.

Lemma quot_lt_succ (x b : Z) : 0 < b → b * (x `quot` b) < x + b.
Proof.
  intros Hb. destruct (Z_le_gt_dec 0 x) as [Hx|Hx].
  - pose proof (quot_nonneg_spec x b Hx Hb). lia.
  - pose proof (quot_nonneg_spec (- x) b ltac:(lia) Hb).
    replace x with (- - x) at 1 by lia.
    rewrite Z.quot_opp_l by lia. lia.
Qed.

Lemma payFeesToOrders_tokenTotal st ps token minerFee fb fb' :
  payFeesToOrders ctx st ps token minerFee fb = Ok fb' →
  0 < feePercentageBase ctx → 0 ≤ minerFee →
  (∀ tok, tok ≠ token → tokenTotal fb' tok = tokenTotal fb tok) ∧
  0 ≤ tokenTotal fb' token - tokenTotal fb token ∧
  feePercentageBase ctx * (tokenTotal fb' token - tokenTotal fb token) ≤
    minerFee * sharesOf st ps.
Proof.
  unfold payFeesToOrders. intros H Hbase Hm. revert fb H.
  induction ps as [|q ps IH]; intros fb H; simpl in H.
  - injection H as <-. split; [done|]. simpl. lia.
  - apply bind_Ok in H as (fb1 & Hq & H).
    apply IH in H as (Hother & Hpos & Hle). clear IH.
    apply bind_Ok in Hq as (oo & Hoo%deref_Ok & Hq).
    simpl. rewrite Hoo.
    destruct (Order.waiveFeePercentage oo <? 0) eqn:Hw.
    + apply Z.ltb_lt in Hw.
      apply bind_Ok in Hq as (f & Hf & Hq).
      apply dividedToIntegerBy_Ok in Hf as [_ ->]. injection Hq as <-.
      pose proof (quot_nonneg_spec (minerFee * - Order.waiveFeePercentage oo)
                    (feePercentageBase ctx) ltac:(nia) Hbase) as Hquot.
      set (f := (minerFee * - Order.waiveFeePercentage oo)
                  `quot` feePercentageBase ctx) in *.
      assert (0 ≤ f) by nia.
      rewrite addFeePayment_tokenTotal in *.
      split.
      { intros tok Htok. rewrite (Hother tok Htok), addFeePayment_tokenTotal.
        rewrite bool_decide_eq_false_2 by done. rewrite andb_false_r. lia. }
      destruct (truthy (Some token) && truthy (Some (Order.owner oo)) &&
                bool_decide (token = token)); nia.
    + injection Hq as <-. done.
Qed.

(** X16. The fee ledger of a ring after [payFeesAndBurn] (called as
    [payFees] calls it, for a token, fee recipient and fee holder that are
    not empty, and a positive [feePercentageBase]): the rebate is not
    negative; what the ledger gains in the token plus the rebate never
    exceeds the amount charged, and is exactly that amount when the miner
    shares nothing with the orders; the ledger of every other token, the
    participations, the flag and the shared percentage are untouched. *)
Theorem payFeesAndBurn_accounted (feeRecipient : string) (st : Store)
    (r r' : Ring.t) (p : Participation.t) (o : Order.t) (token : string)
    (totalAmount rebate : Z) :
  orders st !! Participation.order p = Some o →
  payFeesAndBurn ctx getBurnRate feeRecipient st r p token totalAmount
    (walletPercentage o) = Ok (r', rebate) →
  token ≠ "" → feeRecipient ≠ "" → feeHolder ctx ≠ "" →
  0 < feePercentageBase ctx →
  (0 < Ring.minerFeesToOrdersPercentage r →
   Ring.minerFeesToOrdersPercentage r = sharesOf st (Ring.participations r)) →
  0 ≤ rebate ∧
  tokenTotal (Ring.feeBalances r') token - tokenTotal (Ring.feeBalances r) token
    + rebate ≤ totalAmount ∧
  (Ring.minerFeesToOrdersPercentage r ≤ 0 →
   tokenTotal (Ring.feeBalances r') token
     - tokenTotal (Ring.feeBalances r) token + rebate = totalAmount) ∧
  (∀ tok, tok ≠ token →
     tokenTotal (Ring.feeBalances r') tok = tokenTotal (Ring.feeBalances r) tok) ∧
  r' = set_feeBalances (Ring.feeBalances r') r.
Proof.
  intros Ho H Htok Hrec Hholder Hbase HM. unfold payFeesAndBurn in H.
  destruct (totalAmount =? 0) eqn:Hzero.
  { apply Z.eqb_eq in Hzero. injection H as <- <-.
    split; [done|]. split; [lia|]. split; [lia|]. split; [done|].
    by destruct r. }
  apply bind_Ok in H as (o' & Ho'%deref_Ok & H).
  assert (o' = o) as -> by congruence.
  set (amount := if Order.P2P o && negb (truthy (Order.walletAddr o))
                 then 0 else totalAmount) in *.
  apply bind_Ok in H as (walletFee & HwalletFee & H).
  apply bind_Ok in H as (minerFee0 & _ & H).
  set (burnRate := if Order.P2P o then Z.shiftr (toInt32 (getBurnRate token)) 16
                   else Z.land (toInt32 (getBurnRate token)) 65535) in *.
  apply bind_Ok in H as (minerBurn & _ & H).
  apply bind_Ok in H as (minerRebate & _ & H).
  apply bind_Ok in H as (walletBurn & HwalletBurn & H).
  apply bind_Ok in H as (walletRebate & HwalletRebate & H).
  set (minerFee := minerFee0 - minerBurn - minerRebate) in *.
  set (feeToWallet := walletFee - walletBurn - walletRebate) in *.
  apply bind_Ok in H as ([fb feeToMiner] & Hshare & H).
  apply bind_Ok in H as (u & Hpaid%assert_Ok%Z.leb_le & H).
  injection H as <- <-. simpl.
  assert (Hwallet : truthy (Order.walletAddr o) = false → feeToWallet = 0).
  { intros Hno. unfold feeToWallet.
    assert (walletFee = 0) as Hw0.
    { apply dividedToIntegerBy_Ok in HwalletFee as [_ ->].
      unfold amount, walletPercentage. rewrite Hno.
      destruct (Order.P2P o); simpl; [done|]. by rewrite Z.mul_0_r. }
    apply dividedToIntegerBy_Ok in HwalletBurn as [_ ->].
    apply dividedToIntegerBy_Ok in HwalletRebate as [_ ->].
    rewrite Hw0. simpl. done. }
  assert (Hfb : (∀ tok, tok ≠ token →
                   tokenTotal fb tok = tokenTotal (Ring.feeBalances r) tok) ∧
                tokenTotal fb token - tokenTotal (Ring.feeBalances r) token
                  + feeToMiner ≤ minerFee ∧
                (Ring.minerFeesToOrdersPercentage r ≤ 0 →
                 tokenTotal fb token - tokenTotal (Ring.feeBalances r) token
                   + feeToMiner = minerFee)).
  { destruct (0 <? Ring.minerFeesToOrdersPercentage r) eqn:HMpos;
      [destruct (0 <? minerFee) eqn:Hpos|]; simpl in Hshare.
    - apply Z.ltb_lt in HMpos, Hpos.
      apply bind_Ok in Hshare as (fb1 & Hloop & Hshare).
      apply bind_Ok in Hshare as (f & Hf & Hshare). injection Hshare as <- <-.
      apply dividedToIntegerBy_Ok in Hf as [_ ->].
      pose proof (payFeesToOrders_tokenTotal _ _ _ _ _ _ Hloop Hbase ltac:(lia))
        as (Hother & HD & Hle).
      rewrite <- (HM HMpos) in Hle.
      pose proof (quot_lt_succ
        (minerFee * (feePercentageBase ctx - Ring.minerFeesToOrdersPercentage r))
        (feePercentageBase ctx) Hbase) as Hq.
      split; [done|]. split; [nia|]. lia.
    - injection Hshare as <- <-. split; [done|]. split; lia.
    - injection Hshare as <- <-. split; [done|]. split; lia. }
  destruct Hfb as (Hother & Hle & Heq).
  rewrite !addFeePayment_tokenTotal.
  rewrite (proj2 (truthy_Some token) Htok), (proj2 (truthy_Some feeRecipient) Hrec),
    (proj2 (truthy_Some (feeHolder ctx)) Hholder).
  rewrite bool_decide_eq_true_2 by done.
  split; [lia|].
  split; [destruct (truthy (Order.walletAddr o)); simpl;
            [|specialize (Hwallet eq_refl)]; lia|].
  split; [intros HM0; specialize (Heq HM0);
          destruct (truthy (Order.walletAddr o)); simpl;
            [|specialize (Hwallet eq_refl)]; lia|].
  split; [|done].
  intros tok Hne. rewrite !addFeePayment_tokenTotal.
  rewrite bool_decide_eq_false_2 by done. rewrite !andb_false_r.
  rewrite (Hother tok Hne). lia.
Qed.

End FeeFacts.

(** ** The share of the miner's fee that goes to the orders *)

Lemma sharesOf_app st ps qs :
  sharesOf st (ps ++ qs) = sharesOf st ps + sharesOf st qs.
Proof.
  induction ps as [|p ps IH]; simpl; [done|].
  destruct (orders st !! Participation.order p) as [o|]; [|done].
  destruct (Order.waiveFeePercentage o <? 0); lia.
Qed.

Lemma sharesOf_ext st st' ps ps' :
  orders st' = orders st →
  Participation.order <$> ps' = Participation.order <$> ps →
  sharesOf st' ps' = sharesOf st ps.
Proof.
  intros HO. revert ps'. induction ps as [|p ps IH]; intros [|p' ps'] H;
    simpl in *; try done.
  injection H as Hp H. rewrite HO, Hp, (IH _ H). done.
Qed.

Lemma feeStep_shares ctx st r i st' r' :
  feeStep ctx (st, r) i = Ok (st', r') →
  ∃ p o, Ring.participations r !! i = Some p ∧
         orders st !! Participation.order p = Some o ∧
         Ring.minerFeesToOrdersPercentage r' =
           Ring.minerFeesToOrdersPercentage r +
           (if Order.waiveFeePercentage o <? 0
            then - Order.waiveFeePercentage o else 0).
Proof.
  unfold feeStep. intros H.
  apply bind_Ok in H as (p & Hp%deref_Ok & H).
  apply bind_Ok in H as (o & Ho%deref_Ok & H).
  apply bind_Ok in H as (v & _ & H).
  apply bind_Ok in H as (prevP & _ & H).
  apply bind_Ok in H as ([[st1 p1] ok] & _ & H).
  injection H as <- <-. exists p, o. split; [done|]. split; [done|].
  simpl. destruct (Order.waiveFeePercentage o <? 0); lia.
Qed.

Lemma setMaxFillAmounts_order ctx st p st' p' :
  setMaxFillAmounts ctx st p = Ok (st', p') →
  Participation.order p' = Participation.order p.
Proof.
  unfold setMaxFillAmounts. intros H.
  apply bind_Ok in H as (o & _ & H).
  apply bind_Ok in H as (aS & _ & H).
  apply bind_Ok in H as ([st1 sS] & _ & H).
  apply bind_Ok in H as ([st2 p2] & Hlimit & H).
  apply bind_Ok in H as (aB & _ & H).
  apply bind_Ok in H as (fB & _ & H). injection H as <- <-. simpl.
  destruct (negb (Order.P2P o) && negb (feeFromBoughtAmount o)).
  - apply bind_Ok in Hlimit as ([[st3 f] a] & _ & Hlimit).
    by injection Hlimit as <- <-.
  - by injection Hlimit as <- <-.
Qed.

Lemma forEachParticipation_order body st ps st' ps' :
  (∀ st p st' p', body st p = Ok (st', p') →
     Participation.order p' = Participation.order p) →
  forEachParticipation body st ps = Ok (st', ps') →
  Participation.order <$> ps' = Participation.order <$> ps.
Proof.
  intros Hbody. revert st st' ps'.
  induction ps as [|p ps IH]; intros st st' ps' H; simpl in H.
  - by injection H as <- <-.
  - apply bind_Ok in H as ([st1 p1] & Hp & H).
    apply bind_Ok in H as ([st2 ps2] & Hps & H). injection H as <- <-.
    simpl. f_equal; eauto.
Qed.

Lemma resize_order ctx st ps i smallest ps' smallest' :
  resize ctx st ps i smallest = Ok (ps', smallest') →
  Participation.order <$> ps' = Participation.order <$> ps.
Proof.
  unfold resize. intros H.
  apply bind_Ok in H as (p & _ & H). apply bind_Ok in H as (o & _ & H).
  apply bind_Ok in H as (prevP & HprevP%deref_Ok & H).
  apply bind_Ok in H as (post & _ & H).
  destruct (post <? Participation.fillAmountB prevP).
  - apply bind_Ok in H as (prevO & _ & H).
    apply bind_Ok in H as (aS & _ & H). apply bind_Ok in H as (aB & _ & H).
    apply bind_Ok in H as (f & _ & H).
    injection H as <- <-. rewrite list_fmap_insert. simpl.
    apply list_insert_id. by rewrite list_lookup_fmap, HprevP.
  - by injection H as <- <-.
Qed.

Lemma resizeLoop_order ctx st (sm : option nat) xs ps k ps' k' :
  foldM (λ '(ps, smallest) i, resize ctx st ps i (default smallest sm)) xs (ps, k)
    = Ok (ps', k') →
  Participation.order <$> ps' = Participation.order <$> ps.
Proof.
  intros H.
  apply (foldM_preserves
           (λ s : list Participation.t * nat, Participation.order <$> s.1)) in H;
    [done|].
  intros [ps1 k1] x [ps2 k2] Hx. simpl. by apply resize_order in Hx.
Qed.

Lemma feeLoop_shares ctx st0 r0 st' r' :
  foldM (feeStep ctx) (seq 0 (length (Ring.participations r0))) (st0, r0)
    = Ok (st', r') →
  Participation.order <$> Ring.participations r' =
    Participation.order <$> Ring.participations r0 ∧
  Ring.feeBalances r' = Ring.feeBalances r0 ∧
  Ring.minerFeesToOrdersPercentage r' =
    Ring.minerFeesToOrdersPercentage r0 + sharesOf st0 (Ring.participations r0).
Proof.
  set (ps0 := Ring.participations r0). set (n := length ps0).
  set (Inv := λ (pre : list nat) (s : Store * Ring.t),
    orders s.1 = orders st0 ∧
    Participation.order <$> Ring.participations s.2 =
      Participation.order <$> ps0 ∧
    Ring.feeBalances s.2 = Ring.feeBalances r0 ∧
    Ring.minerFeesToOrdersPercentage s.2 =
      Ring.minerFeesToOrdersPercentage r0 +
      sharesOf st0 (take (length pre) ps0)).
  intros Hrun.
  assert (HI : Inv (seq 0 n) (st', r')).
  { apply (foldM_invariant (feeStep ctx) Inv (seq 0 n) (st0, r0) (st', r'));
      [| |exact Hrun].
    - split; [done|]. split; [done|]. split; [done|]. simpl. lia.
    - intros pre x post [st r] [st1 r1] Hsplit (HO & HOr & HFB & HM) Hstep.
      apply seq_split in Hsplit as (-> & Hx & _). simpl in *.
      pose proof (feeStep_shares _ _ _ _ _ _ Hstep) as (p & o & Hp & Ho & HM1).
      pose proof (feeStep_post _ _ _ _ _ _ Hstep)
        as (p0 & prevP & p1 & ok & Hp0 & _ & Hfees & Hps & _).
      assert (HFB1 : Ring.feeBalances r1 = Ring.feeBalances r).
      { unfold feeStep in Hstep.
        apply bind_Ok in Hstep as (? & _ & Hstep).
        apply bind_Ok in Hstep as (? & _ & Hstep).
        apply bind_Ok in Hstep as (? & _ & Hstep).
        apply bind_Ok in Hstep as (? & _ & Hstep).
        apply bind_Ok in Hstep as ([[? ?] ?] & _ & Hstep).
        by injection Hstep as <- <-. }
      apply calculateFees_post in Hfees as (HO1 & Hord & _).
      assert (p0 = p) as -> by congruence.
      unfold Inv. cbn [fst snd]. split; [congruence|]. split.
      { rewrite Hps, list_fmap_insert, Hord, <- HOr.
        apply list_insert_id. by rewrite list_lookup_fmap, Hp. }
      split; [congruence|].
      rewrite HM1, HM, length_app, !length_seq. simpl.
      assert (Hp' : ∃ q, ps0 !! x = Some q ∧
                         Participation.order q = Participation.order p).
      { assert (H : (Participation.order <$> ps0) !! x =
                    Some (Participation.order p))
          by by rewrite <- HOr, list_lookup_fmap, Hp.
        apply list_lookup_fmap_Some in H as (q & ? & ?). eauto. }
      destruct Hp' as (q & Hq & Hqo).
      rewrite Nat.add_1_r, (take_S_r _ _ _ Hq), sharesOf_app. simpl.
      rewrite Hqo, <- HO, Ho. destruct (Order.waiveFeePercentage o <? 0); lia. }
  destruct HI as (_ & HOr & HFB & HM). simpl in *.
  split; [done|]. split; [done|].
  rewrite HM, length_seq. unfold n. by rewrite firstn_all.
Qed.

Lemma calculateFillAmountAndFee_frame (ctx : Context) (st st' : Store)
    (r r' : Ring.t) :
  calculateFillAmountAndFee ctx st r = Ok (st', r') →
  Ring.valid r = true →
  orders st' = orders st ∧
  Participation.order <$> Ring.participations r' =
    Participation.order <$> Ring.participations r ∧
  Ring.feeBalances r' = Ring.feeBalances r ∧
  Ring.minerFeesToOrdersPercentage r' =
    Ring.minerFeesToOrdersPercentage r + sharesOf st (Ring.participations r) ∧
  (Ring.valid r' = true →
   Ring.minerFeesToOrdersPercentage r' ≤ feePercentageBase ctx).
Proof.
  unfold calculateFillAmountAndFee. intros H Hr.
  rewrite Hr in H. simpl in H.
  apply bind_Ok in H as ([st1 ps1] & Hmax & H).
  apply bind_Ok in H as ([ps2 sm] & Hre1 & H).
  apply bind_Ok in H as ([ps3 sm3] & Hre2 & H).
  apply bind_Ok in H as (st2 & Hres & H).
  apply bind_Ok in H as ([st3 r3] & Hfee & H).
  apply bind_Ok in H as (st4 & Hreset & H). injection H as <- <-.
  cbn [Ring.set_valid Ring.participations Ring.valid
       Ring.minerFeesToOrdersPercentage Ring.feeBalances] in *.
  pose proof (forEachParticipation_orders _ _ _ _ _
                (setMaxFillAmounts_orders ctx) Hmax) as HO1.
  pose proof (forEachParticipation_order _ _ _ _ _
                (setMaxFillAmounts_order ctx) Hmax) as HOr1.
  pose proof (resizeLoop_length ctx _ None _ _ _ _ _ Hre1) as HL1.
  pose proof (resizeLoop_order ctx _ None _ _ _ _ _ Hre1) as HOr2.
  pose proof (resizeLoop_length ctx _ (Some _) _ _ _ _ _ Hre2) as HL2.
  pose proof (resizeLoop_order ctx _ (Some _) _ _ _ _ _ Hre2) as HOr3.
  apply (foldM_preserves orders) in Hres;
    [|by intros; inv_run; orders_frame].
  apply (foldM_preserves orders) in Hreset;
    [|by intros; inv_run; orders_frame].
  rewrite <- HL1, <- HL2 in Hfee.
  pose proof (feeLoop_post ctx _ (Ring.set_participations _ r) _ _ Hfee)
    as (HO3 & _).
  apply (feeLoop_shares ctx _ (Ring.set_participations _ r)) in Hfee
    as (HOr4 & HFB & HM).
  cbn [Ring.set_participations Ring.participations
       Ring.minerFeesToOrdersPercentage Ring.feeBalances] in *.
  split; [congruence|]. split; [congruence|]. split; [done|]. split.
  - rewrite HM. f_equal. apply sharesOf_ext; congruence.
  - unfold ensure. intros [_ Hle%Z.leb_le]%andb_prop. done.
Qed.

(** X17. Settling a valid ring ([calculateFillAmountAndFee]) keeps the
    orders of the batch (but for the store of spendables), the order every
    participation refers to and the fee ledger of the ring; it raises
    [minerFeesToOrdersPercentage] by the sum of [-waiveFeePercentage] over
    the participations whose order has a negative one; and the ring is still
    valid afterwards only if that percentage does not exceed
    [feePercentageBase]. *)
Theorem calculateFillAmountAndFee_shares (ctx : Context) (st st' : Store)
    (r r' : Ring.t) :
  calculateFillAmountAndFee ctx st r = Ok (st', r') →
  Ring.valid r = true →
  orders st' = orders st ∧
  Participation.order <$> Ring.participations r' =
    Participation.order <$> Ring.participations r ∧
  Ring.feeBalances r' = Ring.feeBalances r ∧
  Ring.minerFeesToOrdersPercentage r' =
    Ring.minerFeesToOrdersPercentage r + sharesOf st (Ring.participations r) ∧
  (Ring.valid r' = true →
   Ring.minerFeesToOrdersPercentage r' ≤ feePercentageBase ctx).
Proof. apply calculateFillAmountAndFee_frame. Qed.

Lemma calculateFillAmountAndFee_shares_witness :
  orders Settled.s2.1 = orders Scenario.s2_store ∧
  Participation.order <$> Ring.participations Settled.s2.2 =
    Participation.order <$> Ring.participations Scenario.ring01 ∧
  Ring.feeBalances Settled.s2.2 = Ring.feeBalances Scenario.ring01 ∧
  Ring.minerFeesToOrdersPercentage Settled.s2.2 =
    Ring.minerFeesToOrdersPercentage Scenario.ring01 +
    sharesOf Scenario.s2_store (Ring.participations Scenario.ring01) ∧
  (Ring.valid Settled.s2.2 = true →
   Ring.minerFeesToOrdersPercentage Settled.s2.2 ≤
     feePercentageBase Scenario.s2_chain).
Proof.
  apply (calculateFillAmountAndFee_shares Scenario.s2_chain Scenario.s2_store
           Settled.s2.1 Scenario.ring01 Settled.s2.2).
  - vm_compute. reflexivity.
  - reflexivity.
Defined.

Lemma payFeesAndBurn_accounted_witness :
  BalanceBook.getAllBalances (Ring.feeBalances FeeScenario.paid.1) =
    [BalanceBook.mkBalance "0xMINER" "0xX" zeroAddress 52;
     BalanceBook.mkBalance "0xFEE" "0xX" zeroAddress 2] ∧
  0 ≤ FeeScenario.paid.2 ∧
  tokenTotal (Ring.feeBalances FeeScenario.paid.1) "0xX"
    - tokenTotal (Ring.feeBalances Scenario.ring01) "0xX" + FeeScenario.paid.2
    ≤ 54 ∧
  (Ring.minerFeesToOrdersPercentage Scenario.ring01 ≤ 0 →
   tokenTotal (Ring.feeBalances FeeScenario.paid.1) "0xX"
     - tokenTotal (Ring.feeBalances Scenario.ring01) "0xX" + FeeScenario.paid.2
     = 54) ∧
  (∀ tok, tok ≠ "0xX" →
     tokenTotal (Ring.feeBalances FeeScenario.paid.1) tok =
     tokenTotal (Ring.feeBalances Scenario.ring01) tok) ∧
  FeeScenario.paid.1 =
    set_feeBalances (Ring.feeBalances FeeScenario.paid.1) Scenario.ring01.
Proof.
  split; [vm_compute; reflexivity|].
  apply (payFeesAndBurn_accounted Scenario.s3_chain FeeScenario.getBurnRate
           "0xMINER" Scenario.s3_store Scenario.ring01 FeeScenario.paid.1
           (Participation.init 0) Scenario.s3_order "0xX" 54 FeeScenario.paid.2).
  - reflexivity.
  - vm_compute. reflexivity.
  - discriminate.
  - discriminate.
  - discriminate.
  - vm_compute. reflexivity.
  - vm_compute. discriminate.
Defined.

Lemma div_zero_bind {B} (x b : Z) (k : Z → result B) :
  x = 0 → b ≠ 0 → dividedToIntegerBy x b ≫= k = k 0.
Proof.
  intros -> Hb. rewrite dividedToIntegerBy_ne by done.
  by rewrite Z.quot_0_l.
Qed.

(** X18. A P2P order without wallet pays no fee: for a charged amount
    that is not negative (and [feePercentageBase] not zero),
    [payFeesAndBurn] completes, rebates the whole amount and leaves every
    balance of the fee ledger as it was; for a negative amount the final
    assertion fails. *)
Theorem payFeesAndBurn_p2p_no_wallet (ctx : Context) (getBurnRate : string → Z)
    (feeRecipient : string) (st : Store) (r : Ring.t) (p : Participation.t)
    (o : Order.t) (token : string) (totalAmount w : Z) :
  orders st !! Participation.order p = Some o →
  Order.P2P o = true →
  truthy (Order.walletAddr o) = false →
  feePercentageBase ctx ≠ 0 →
  (0 ≤ totalAmount →
   ∃ r', payFeesAndBurn ctx getBurnRate feeRecipient st r p token totalAmount w
           = Ok (r', totalAmount) ∧
         r' = set_feeBalances (Ring.feeBalances r') r ∧
         ∀ owner tok tranche,
           BalanceBook.getBalance (Ring.feeBalances r') owner tok tranche =
           BalanceBook.getBalance (Ring.feeBalances r) owner tok tranche) ∧
  (totalAmount < 0 →
   payFeesAndBurn ctx getBurnRate feeRecipient st r p token totalAmount w =
     Throw (AssertionError "Total fee paid cannot exceed the total fee amount")).
Proof.
  intros Ho HP2P Hwallet Hbase.
  assert (Hrun : totalAmount ≠ 0 →
    ∃ fb, (∀ owner tok tranche,
             BalanceBook.getBalance fb owner tok tranche =
             BalanceBook.getBalance (Ring.feeBalances r) owner tok tranche) ∧
          payFeesAndBurn ctx getBurnRate feeRecipient st r p token totalAmount w =
            (_ ← assert (0 <=? totalAmount)
                   "Total fee paid cannot exceed the total fee amount";
             Ok (set_feeBalances fb r, totalAmount))).
  { intros Hne. eexists. split; [|].
    2:{ unfold payFeesAndBurn, orderOf, deref.
        rewrite (proj2 (Z.eqb_neq _ _) Hne), Ho, Ok_bind, HP2P, Hwallet.
        cbn [andb negb]. rewrite Z.mul_0_l.
        rewrite (dividedToIntegerBy_ne 0 100) by done.
        rewrite Ok_bind, Z.quot_0_l by done. cbn [Z.sub Z.opp].
        destruct (0 <? Order.waiveFeePercentage o);
          [|destruct (Order.waiveFeePercentage o <? 0)].
        all: repeat first
               [ rewrite Ok_bind
               | rewrite div_zero_bind by first [lia | done] ].
        all: change (0 <? 0 - 0 - 0) with false.
        all: rewrite andb_false_r, Ok_bind.
        all: change (0 - 0 - 0 + (0 - 0 - 0) + (0 + 0)) with 0.
        all: rewrite !Z.sub_0_r.
        all: reflexivity. }
    intros owner tok tranche. rewrite !addFeePayment_getBalance.
    repeat match goal with |- context [if ?c then _ else _] => destruct c end.
    all: lia. }
  split.
  - intros Hpos. destruct (decide (totalAmount = 0)) as [->|Hne].
    { exists r. split; [done|]. split; [by destruct r|done]. }
    destruct (Hrun Hne) as (fb & Hfb & ->).
    rewrite (proj2 (Z.leb_le _ _) Hpos). simpl.
    eexists. split; [done|]. split; [done|]. exact Hfb.
  - intros Hneg. destruct (Hrun ltac:(lia)) as (fb & _ & ->).
    by rewrite (proj2 (Z.leb_gt _ _) Hneg).
Qed.

Lemma payFeesAndBurn_p2p_no_wallet_witness :
  ∃ r', payFeesAndBurn Scenario.s1_chain FeeScenario.getBurnRate "0xMINER"
          FeeScenario.p2p_store (newRing [0%nat]) (Participation.init 0)
          "0xX" 100 100 = Ok (r', 100) ∧
        r' = set_feeBalances (Ring.feeBalances r') (newRing [0%nat]) ∧
        ∀ owner tok tranche,
          BalanceBook.getBalance (Ring.feeBalances r') owner tok tranche =
          BalanceBook.getBalance (Ring.feeBalances (newRing [0%nat]))
            owner tok tranche.
Proof.
  apply (payFeesAndBurn_p2p_no_wallet Scenario.s1_chain FeeScenario.getBurnRate
           "0xMINER" FeeScenario.p2p_store (newRing [0%nat])
           (Participation.init 0) FeeScenario.p2p_order "0xX" 100 100).
  - reflexivity.
  - reflexivity.
  - reflexivity.
  - vm_compute. discriminate.
  - vm_compute. discriminate.
Defined.

Lemma payFeesAndBurn_frame ctx getBurnRate feeRecipient st r p token
    totalAmount w r' rebate :
  payFeesAndBurn ctx getBurnRate feeRecipient st r p token totalAmount w
    = Ok (r', rebate) →
  0 ≤ rebate ∧ (totalAmount = 0 → rebate = 0) ∧
  Ring.participations r' = Ring.participations r ∧
  Ring.valid r' = Ring.valid r ∧
  Ring.minerFeesToOrdersPercentage r' = Ring.minerFeesToOrdersPercentage r.
Proof.
  unfold payFeesAndBurn. intros H.
  destruct (totalAmount =? 0) eqn:Hzero.
  { injection H as <- <-. done. }
  apply Z.eqb_neq in Hzero.
  apply bind_Ok in H as (o & _ & H).
  apply bind_Ok in H as (walletFee & _ & H).
  apply bind_Ok in H as (minerFee0 & _ & H).
  apply bind_Ok in H as (minerBurn & _ & H).
  apply bind_Ok in H as (minerRebate & _ & H).
  apply bind_Ok in H as (walletBurn & _ & H).
  apply bind_Ok in H as (walletRebate & _ & H).
  apply bind_Ok in H as ([fb feeToMiner] & _ & H).
  apply bind_Ok in H as (u & Hpaid%assert_Ok%Z.leb_le & H).
  injection H as <- <-. simpl. split; [lia|]. done.
Qed.

(** X19. [payFees] writes the three rebates of every participation and
    nothing else of the participations, the flag or the shared percentage
    of the ring: no rebate is negative, and a fee that is zero gets a zero
    rebate. *)
Theorem payFees_rebates (ctx : Context) (getBurnRate : string → Z)
    (feeRecipient : string) (st : Store) (r r' : Ring.t) :
  payFees ctx getBurnRate feeRecipient st r = Ok r' →
  Ring.valid r' = Ring.valid r ∧
  Ring.minerFeesToOrdersPercentage r' = Ring.minerFeesToOrdersPercentage r ∧
  Forall2 rebated (Ring.participations r) (Ring.participations r').
Proof.
  unfold payFees. set (ps0 := Ring.participations r). set (n := length ps0).
  set (Inv := λ (pre : list nat) (s : Ring.t),
    Ring.valid s = Ring.valid r ∧
    Ring.minerFeesToOrdersPercentage s = Ring.minerFeesToOrdersPercentage r ∧
    length (Ring.participations s) = n ∧
    ∀ j p, ps0 !! j = Some p →
      ∃ p', Ring.participations s !! j = Some p' ∧
            if decide (j ∈ pre) then rebated p p' else p' = p).
  intros Hrun.
  assert (HI : Inv (seq 0 n) r').
  { apply (foldM_invariant (payFeesStep ctx getBurnRate feeRecipient st)
             Inv (seq 0 n) r r'); [| |exact Hrun].
    - split; [done|]. split; [done|]. split; [done|].
      intros j p Hp. exists p. split; [done|].
      by rewrite decide_False by apply not_elem_of_nil.
    - intros pre x post s s' Hsplit (Hv & HM & HL & Hps) Hstep.
      apply seq_split in Hsplit as (_ & Hx & Hnin).
      unfold payFeesStep in Hstep.
      apply bind_Ok in Hstep as (p & Hp%deref_Ok & Hstep).
      apply bind_Ok in Hstep as (o & _ & Hstep).
      apply bind_Ok in Hstep as ([r1 f] & H1%payFeesAndBurn_frame & Hstep).
      apply bind_Ok in Hstep as ([r2 sS] & H2%payFeesAndBurn_frame & Hstep).
      apply bind_Ok in Hstep as ([r3 b] & H3%payFeesAndBurn_frame & Hstep).
      injection Hstep as <-.
      destruct H1 as (Hf & Hf0 & Hps1 & Hv1 & HM1).
      destruct H2 as (Hs & Hs0 & Hps2 & Hv2 & HM2).
      destruct H3 as (Hb & Hb0 & Hps3 & Hv3 & HM3).
      unfold Inv. simpl. split; [congruence|]. split; [congruence|].
      rewrite Hps3, Hps2, Hps1, length_insert. split; [done|].
      intros j q Hq. destruct (decide (j = x)) as [->|Hne].
      + rewrite list_lookup_insert_eq by lia. eexists. split; [done|].
        rewrite decide_True by (apply elem_of_app; right; apply list_elem_of_here).
        destruct (Hps x q Hq) as (p' & Hp' & Hrel).
        rewrite decide_False in Hrel by done. subst p'.
        assert (p = q) as -> by congruence.
        exists f, sS, b. split; [done|]. by destruct q.
      + rewrite list_lookup_insert_ne by done.
        destruct (Hps j q Hq) as (p' & Hp' & Hrel).
        exists p'. split; [done|].
        destruct (decide (j ∈ pre)) as [Hin|Hnin'].
        * by rewrite decide_True by (apply elem_of_app; by left).
        * rewrite decide_False; [done|].
          intros [?| ->%list_elem_of_singleton]%elem_of_app; done. }
  destruct HI as (Hv & HM & HL & Hps).
  split; [done|]. split; [done|].
  apply Forall2_same_length_lookup_2; [done|].
  intros j p p' Hp Hp'. destruct (Hps j p Hp) as (q & Hq & Hrel).
  rewrite decide_True in Hrel
    by (apply elem_of_seq; apply lookup_lt_Some in Hp; fold n; lia).
  congruence.
Qed.

Lemma payFees_rebates_witness :
  BalanceBook.getAllBalances (Ring.feeBalances FeeScenario.s3_paid) =
    [BalanceBook.mkBalance "0xMINER" "0xX" zeroAddress 52;
     BalanceBook.mkBalance "0xFEE" "0xX" zeroAddress 2] ∧
  Ring.valid FeeScenario.s3_paid = Ring.valid FeeScenario.s3_settled.2 ∧
  Ring.minerFeesToOrdersPercentage FeeScenario.s3_paid =
    Ring.minerFeesToOrdersPercentage FeeScenario.s3_settled.2 ∧
  Forall2 rebated (Ring.participations FeeScenario.s3_settled.2)
    (Ring.participations FeeScenario.s3_paid).
Proof.
  split; [vm_compute; reflexivity|].
  apply (payFees_rebates Scenario.s3_chain FeeScenario.getBurnRate "0xMINER"
           FeeScenario.s3_settled.1 FeeScenario.s3_settled.2
           FeeScenario.s3_paid).
  vm_compute. reflexivity.
Defined.

(** ** Merging the fee ledger of a ring into the ledger of the batch *)

Section LedgerMerge.
Import BalanceBook.

Lemma tokenTotal_addAll xs b tok :
  tokenTotal (addAll xs b) tok =
    tokenTotal b tok +
    fold_right (λ x acc, if bool_decide (token x = tok)
                         then amount x + acc else acc) 0 xs.
Proof.
  revert b. induction xs as [|x xs IH]; intros b.
  - simpl. lia.
  - rewrite addAll_cons, IH, tokenTotal_addBalance. simpl.
    case_bool_decide; lia.
Qed.

(** X20. The loop that ends [doPayments] adds the ledger of the ring to
    the ledger of the batch balance by balance: afterwards every balance,
    and the total held in every token, is the sum of the two. *)
Theorem doPayments_merges_ledger (ring : list Balance) (feeBalances : t) :
  let merged := addAll (getAllBalances (written ring)) feeBalances in
  (∀ o t tr, getBalance merged o t tr =
             getBalance feeBalances o t tr + getBalance (written ring) o t tr) ∧
  (∀ tok, tokenTotal merged tok =
          tokenTotal feeBalances tok + tokenTotal (written ring) tok).
Proof.
  intros merged. split.
  - intros o t tr. unfold merged, addAll. rewrite getBalance_fold. f_equal.
    pose proof (copy_owners (written ring) []
                  ltac:(apply (written_wellFormed ring))
                  (written_wellFormed ring)) as Hcopy.
    simpl in Hcopy. rewrite <- Hcopy at 2.
    unfold addAll. by rewrite getBalance_fold.
  - intros tok. unfold merged. by rewrite tokenTotal_addAll.
Qed.

End LedgerMerge.

(** ** Broker spendables *)

Section BrokerSpendables.

Let keyOf (e : BrokerSpendable) : string * string * string :=
  (bsBroker e, bsOwner e, bsToken e).

Let tableOk (n0 : nat) (spend : list Spendable.t)
    (table : list BrokerSpendable) : Prop :=
  length spend = (n0 + length table)%nat ∧
  bsSpendable <$> table = seq n0 (length table) ∧
  NoDup (keyOf <$> table).

Lemma NoDup_fmap_elem_inj {A B} (f : A → B) (l : list A) x y :
  NoDup (f <$> l) → x ∈ l → y ∈ l → f x = f y → x = y.
Proof.
  induction l as [|a l IH]; intros Hnd Hx Hy Hf; [by apply elem_of_nil in Hx|].
  rewrite fmap_cons in Hnd. apply NoDup_cons in Hnd as [Ha Hnd].
  apply elem_of_cons in Hx as [->|Hx]; apply elem_of_cons in Hy as [->|Hy].
  - done.
  - destruct Ha. rewrite Hf. by apply list_elem_of_fmap_2.
  - destruct Ha. rewrite <- Hf. by apply list_elem_of_fmap_2.
  - by apply IH.
Qed.

Lemma findBrokerSpendable_Some table b o t i :
  findBrokerSpendable table b o t = Some i →
  mkBrokerSpendable b o t i ∈ table.
Proof.
  induction table as [|e table IH]; simpl; [done|].
  destruct (bool_decide (bsBroker e = b) && bool_decide (bsOwner e = o) &&
            bool_decide (bsToken e = t)) eqn:Hmatch.
  - apply andb_true_iff in Hmatch as [[Hb%bool_decide_eq_true
      Ho%bool_decide_eq_true]%andb_true_iff Ht%bool_decide_eq_true].
    intros [= <-]. subst. destruct e. apply list_elem_of_here.
  - intros H. apply list_elem_of_further. by apply IH.
Qed.

Lemma findBrokerSpendable_None table b o t :
  findBrokerSpendable table b o t = None → (b, o, t) ∉ keyOf <$> table.
Proof.
  induction table as [|e table IH]; cbn [findBrokerSpendable];
    [intros _; apply not_elem_of_nil|].
  destruct (bool_decide (bsBroker e = b) && bool_decide (bsOwner e = o) &&
            bool_decide (bsToken e = t)) eqn:Hmatch; [done|].
  intros H. rewrite fmap_cons. apply not_elem_of_cons. split; [|by apply IH].
  intros [= Hb Ho Ht]. rewrite !bool_decide_eq_true_2 in Hmatch by done. done.
Qed.

Lemma addBrokerSpendable_post n0 spend table b o t spend' table' i :
  tableOk n0 spend table →
  addBrokerSpendable spend table b o t = (spend', table', i) →
  tableOk n0 spend' table' ∧
  (∃ k, spend' = spend ++ replicate k newSpendable) ∧
  table ⊆ table' ∧
  mkBrokerSpendable b o t i ∈ table'.
Proof.
  intros (HL & Hidx & Hkeys). unfold addBrokerSpendable.
  destruct (findBrokerSpendable table b o t) as [j|] eqn:Hfind.
  - intros [= <- <- <-]. split; [done|].
    split; [by exists 0%nat; rewrite app_nil_r|]. split; [done|].
    by apply findBrokerSpendable_Some.
  - intros [= <- <- <-]. split; [|split; [by exists 1%nat|split]].
    + split; [rewrite !length_app; simpl; lia|]. split.
      * rewrite fmap_app, length_app, seq_app, Hidx. simpl. by rewrite HL.
      * rewrite fmap_app. apply NoDup_app. split; [done|]. split.
        -- intros k Hk ->%list_elem_of_singleton.
           by apply findBrokerSpendable_None in Hfind.
        -- apply NoDup_singleton.
    + intros e He. apply elem_of_app. by left.
    + apply elem_of_app. right. apply list_elem_of_here.
Qed.

Lemma updateBrokerSpendablesLoop_post n0 os spend table os' spend' :
  tableOk n0 spend table →
  updateBrokerSpendablesLoop os spend table = (os', spend') →
  ∃ table',
    tableOk n0 spend' table' ∧ table ⊆ table' ∧
    (∃ k, spend' = spend ++ replicate k newSpendable) ∧
    Forall2 (λ o o',
        if truthy (Order.brokerInterceptor o)
        then ∃ iS iF, o' = set_brokerSpendableFee iF (set_brokerSpendableS iS o)
        else o' = o) os os' ∧
    ∀ b o t i, (b, o, t, i) ∈ brokerRefs os' →
               mkBrokerSpendable b o t i ∈ table'.
Proof.
  revert spend table os' spend'.
  induction os as [|order os IH]; intros spend table os' spend' Hok H.
  - simpl in H. injection H as <- <-. exists table.
    split; [done|]. split; [done|].
    split; [by exists 0%nat; rewrite app_nil_r|]. split; [constructor|].
    intros b o t i Hin. by apply elem_of_nil in Hin.
  - simpl in H. destruct (truthy (Order.brokerInterceptor order)) eqn:Hbi.
    + destruct (addBrokerSpendable spend table _ _ _)
        as [[spend1 table1] iS] eqn:HS.
      destruct (addBrokerSpendable spend1 table1 _ _ _)
        as [[spend2 table2] iF] eqn:HF.
      destruct (updateBrokerSpendablesLoop os spend2 table2)
        as [rest spend3] eqn:Hrest.
      injection H as <- <-.
      apply (addBrokerSpendable_post n0) in HS
        as (Hok1 & [k1 ->] & Hsub1 & HinS); [|done].
      apply (addBrokerSpendable_post n0) in HF
        as (Hok2 & [k2 ->] & Hsub2 & HinF); [|done].
      apply IH in Hrest
        as (table' & Hok' & Hsub' & [k3 ->] & Hall & Hrefs); [|done].
      exists table'. split; [done|].
      split; [by etrans; [|exact Hsub']; etrans|].
      split.
      { exists (k1 + k2 + k3)%nat.
        by rewrite !replicate_add, !app_assoc. }
      split.
      { constructor; [|done]. rewrite Hbi. by exists iS, iF. }
      intros b o t i Hin. unfold brokerRefs in Hin. simpl in Hin.
      rewrite Hbi in Hin. simpl in Hin.
      apply elem_of_cons in Hin as [Heq|Hin];
        [|apply elem_of_cons in Hin as [Heq|Hin]].
      * injection Heq as -> -> -> ->. apply Hsub', Hsub2.
        by destruct order.
      * injection Heq as -> -> -> ->. apply Hsub'.
        by destruct order.
      * by apply Hrefs.
    + destruct (updateBrokerSpendablesLoop os spend table)
        as [rest spend3] eqn:Hrest.
      injection H as <- <-.
      apply IH in Hrest
        as (table' & Hok' & Hsub' & Hk & Hall & Hrefs); [|done].
      exists table'. split; [done|]. split; [done|]. split; [done|].
      split; [constructor; [by rewrite Hbi|done]|].
      intros b o t i Hin. apply Hrefs.
      unfold brokerRefs in Hin. simpl in Hin. by rewrite Hbi in Hin.
Qed.

(** X21. [updateBrokerSpendables] leaves every spendable that exists
    alone and gives the orders with a broker interceptor new records at the
    end of the store ([initialized = false], amounts 0), touching nothing
    else of an order; afterwards two broker spendables (of one order or of
    two, for [tokenS] or for [feeToken]) are the same record exactly when
    they are meant for the same broker, owner and token. *)
Theorem updateBrokerSpendables_sharing (st : Store) :
  let st' := updateBrokerSpendables st in
  (∃ k, spendables st' = spendables st ++ replicate k newSpendable) ∧
  Forall2 (λ o o',
      if truthy (Order.brokerInterceptor o)
      then ∃ iS iF, o' = set_brokerSpendableFee iF (set_brokerSpendableS iS o)
      else o' = o) (orders st) (orders st') ∧
  ∀ x y, x ∈ brokerRefs (orders st') → y ∈ brokerRefs (orders st') →
    (x.2 = y.2 ↔ x.1 = y.1) ∧
    (length (spendables st) ≤ x.2 < length (spendables st'))%nat.
Proof.
  unfold updateBrokerSpendables.
  destruct (updateBrokerSpendablesLoop (orders st) (spendables st) [])
    as [os' spend'] eqn:Hloop.
  apply (updateBrokerSpendablesLoop_post (length (spendables st))) in Hloop
    as (table & (HL & Hidx & Hkeys) & _ & Hk & Hall & Hrefs).
  2:{ split; [simpl; lia|]. split; [done|]. apply NoDup_nil_2. }
  simpl. split; [done|]. split; [done|].
  intros [[[bx ox] tx] ix] [[[by' oy] ty] iy] Hx%Hrefs Hy%Hrefs. simpl.
  assert (Hnd : NoDup (bsSpendable <$> table))
    by (rewrite Hidx; apply NoDup_seq).
  split; [split|].
  - intros ->.
    pose proof (NoDup_fmap_elem_inj bsSpendable table _ _ Hnd Hx Hy eq_refl).
    by simplify_eq.
  - intros [= -> -> ->].
    pose proof (NoDup_fmap_elem_inj keyOf table _ _ Hkeys Hx Hy eq_refl).
    by simplify_eq.
  - assert (Hi : ix ∈ bsSpendable <$> table)
      by (by apply (list_elem_of_fmap_2' bsSpendable table
                      (mkBrokerSpendable bx ox tx ix))).
    rewrite Hidx in Hi. apply elem_of_seq in Hi. lia.
Qed.

End BrokerSpendables.

(** ** Merging the transfers of the rings *)

Lemma sameTransfer_route y x :
  sameTransfer y x = true ↔ routeOf y = routeOf x.
Proof.
  unfold sameTransfer, routeOf.
  rewrite !andb_true_iff, !bool_decide_eq_true. split.
  - intros [[[[[-> ->] ->] ->] ->] ->]. done.
  - intros [= -> -> -> -> -> ->]. done.
Qed.

Lemma routeSum_app P xs ys :
  routeSum P (xs ++ ys) = routeSum P xs + routeSum P ys.
Proof.
  induction xs as [|x xs IH]; simpl; [done|]. destruct (P (routeOf x)); lia.
Qed.

Lemma mergeInto_post items x addNew items' addNew' :
  NoDup (routeOf <$> items) →
  mergeInto items x addNew = (items', addNew') →
  routeOf <$> items' = routeOf <$> items ∧
  (routeOf x ∈ routeOf <$> items →
     addNew' = false ∧
     ∀ P, routeSum P items' =
          routeSum P items + (if P (routeOf x) then TransferItem.amount x else 0)) ∧
  (routeOf x ∉ routeOf <$> items → addNew' = addNew ∧ items' = items).
Proof.
  revert addNew items' addNew'.
  induction items as [|y items IH]; intros addNew items' addNew' Hnd H.
  - simpl in H. injection H as <- <-. split; [done|].
    split; [by intros ?%elem_of_nil|done].
  - rewrite fmap_cons in Hnd. apply NoDup_cons in Hnd as [Hy Hnd].
    cbn [mergeInto] in H.
    destruct (sameTransfer y x) eqn:Hsame.
    + apply sameTransfer_route in Hsame.
      destruct (mergeInto items x false) as [rest fl] eqn:Hrest.
      injection H as <- <-.
      apply IH in Hrest as (Hroutes & _ & Hno); [|done].
      rewrite <- Hsame in Hno. destruct (Hno Hy) as [-> ->].
      split; [done|]. split.
      * intros _. split; [done|]. intros P. simpl.
        change (routeOf (set_amount _ y)) with (routeOf y).
        rewrite Hsame. destruct (P (routeOf x)); simpl; lia.
      * intros Hnin. destruct Hnin. rewrite fmap_cons, Hsame.
        apply list_elem_of_here.
    + assert (Hne : routeOf y ≠ routeOf x).
      { intros Heq%sameTransfer_route. congruence. }
      destruct (mergeInto items x addNew) as [rest fl] eqn:Hrest.
      injection H as <- <-.
      apply IH in Hrest as (Hroutes & Hyes & Hno); [|done].
      split; [by rewrite !fmap_cons, Hroutes|]. split.
      * intros [?|Hin]%elem_of_cons; [done|].
        destruct (Hyes Hin) as [-> Hsum]. split; [done|].
        intros P. simpl. rewrite Hsum. destruct (P (routeOf y)); lia.
      * intros [_ Hnin]%not_elem_of_cons.
        destruct (Hno Hnin) as [-> ->]. done.
Qed.

Lemma amountTransferred_routeSum items from token fromTranche :
  amountTransferred items from token fromTranche =
    routeSum (λ route,
        bool_decide (route.1.1.1.1.2 = from) &&
        bool_decide (route.1.1.1.1.1 = token) &&
        bool_decide (route.1.2 = fromTranche)) items.
Proof.
  unfold amountTransferred.
  enough (G : ∀ acc,
    fold_left (λ acc transfer,
        if bool_decide (TransferItem.from transfer = from) &&
           bool_decide (TransferItem.token transfer = token) &&
           bool_decide (TransferItem.fromTranche transfer = fromTranche)
        then acc + TransferItem.amount transfer else acc) items acc =
    acc + routeSum (λ route,
        bool_decide (route.1.1.1.1.2 = from) &&
        bool_decide (route.1.1.1.1.1 = token) &&
        bool_decide (route.1.2 = fromTranche)) items).
  { by rewrite G. }
  induction items as [|x items IH]; intros acc; simpl; [lia|].
  rewrite IH.
  destruct (bool_decide (TransferItem.from x = from) &&
            bool_decide (TransferItem.token x = token) &&
            bool_decide (TransferItem.fromTranche x = fromTranche)); lia.
Qed.

(** X22. Merging the transfers of a ring into the transfers of the batch
    keeps one item per route (token, from, to, token type, source tranche,
    data) when the batch list had one, and moves along every set of routes
    the amount the two lists moved together; in particular what leaves an
    account in a token and tranche ([amountTransferred], which
    [validateRings] checks) is the sum of the two. *)
Theorem mergeTransferItems_routes (transferItems ringTransferItems : list TransferItem.t) :
  NoDup (routeOf <$> transferItems) →
  let merged := mergeTransferItems transferItems ringTransferItems in
  NoDup (routeOf <$> merged) ∧
  (∀ P, routeSum P merged =
        routeSum P transferItems + routeSum P ringTransferItems) ∧
  (∀ from token fromTranche,
     amountTransferred merged from token fromTranche =
     amountTransferred transferItems from token fromTranche +
     amountTransferred ringTransferItems from token fromTranche).
Proof.
  intros Hnd merged.
  assert (H : NoDup (routeOf <$> merged) ∧
              ∀ P, routeSum P merged =
                   routeSum P transferItems + routeSum P ringTransferItems).
  { unfold merged, mergeTransferItems. clear merged.
    revert transferItems Hnd.
    induction ringTransferItems as [|x new IH]; intros acc Hnd.
    - simpl. split; [done|]. intros P. lia.
    - cbn [fold_left].
      destruct (mergeInto acc x true) as [acc' addNew] eqn:Hmerge.
      apply mergeInto_post in Hmerge as (Hroutes & Hyes & Hno); [|done].
      destruct (decide (routeOf x ∈ routeOf <$> acc)) as [Hin|Hnin].
      + destruct (Hyes Hin) as [-> Hsum].
        destruct (IH acc') as [Hnd' Hsum']; [by rewrite Hroutes|].
        split; [done|]. intros P. rewrite Hsum', Hsum. simpl.
        destruct (P (routeOf x)); lia.
      + destruct (Hno Hnin) as [-> ->].
        destruct (IH (acc ++ [x])) as [Hnd' Hsum'].
        { rewrite fmap_app. apply NoDup_app. split; [done|]. split.
          - intros r Hr ->%list_elem_of_singleton. done.
          - apply NoDup_singleton. }
        split; [done|]. intros P. rewrite Hsum', routeSum_app. simpl.
        destruct (P (routeOf x)); lia. }
  destruct H as [Hnd' Hsum]. split; [done|]. split; [done|].
  intros from token fromTranche. rewrite !amountTransferred_routeSum. apply Hsum.
Qed.

Lemma mergeTransferItems_routes_witness :
  mergeTransferItems [] (Settled.s2_transfers ++ Settled.s2_transfers) =
    [TransferItem.mk "0xX" "0xA" "0xB" 2000 ERC20 zeroAddress zeroAddress None;
     TransferItem.mk "0xX" "0xA" "0xMINER" 200 ERC20 zeroAddress zeroAddress None;
     TransferItem.mk "0xY" "0xB" "0xA" 2000 ERC20 zeroAddress zeroAddress None] ∧
  let merged :=
    mergeTransferItems [] (Settled.s2_transfers ++ Settled.s2_transfers) in
  NoDup (routeOf <$> merged) ∧
  (∀ P, routeSum P merged =
        routeSum P [] + routeSum P (Settled.s2_transfers ++ Settled.s2_transfers)) ∧
  (∀ from token fromTranche,
     amountTransferred merged from token fromTranche =
     amountTransferred [] from token fromTranche +
     amountTransferred (Settled.s2_transfers ++ Settled.s2_transfers)
       from token fromTranche).
Proof.
  split; [vm_compute; reflexivity|].
  apply (mergeTransferItems_routes []
           (Settled.s2_transfers ++ Settled.s2_transfers)).
  apply NoDup_nil_2.
Defined.

(** ** The fills of a batch and the filled amounts of its orders *)

Lemma checkForSubRings_cleared st r r' :
  checkForSubRings st r = Ok r' → ∃ v, r' = Ring.set_valid v r.
Proof.
  unfold checkForSubRings. intros H.
  apply bind_Ok in H as (v & _ & H). injection H as <-. by exists v.
Qed.

Lemma calculateFillAmountAndFee_orders ctx st r st' r' :
  calculateFillAmountAndFee ctx st r = Ok (st', r') → orders st' = orders st.
Proof.
  unfold calculateFillAmountAndFee. intros H.
  destruct (Ring.valid r); simpl in H; [|by injection H as <- <-].
  apply bind_Ok in H as ([st1 ps1] & Hmax & H).
  apply bind_Ok in H as ([ps2 sm] & Hre1 & H).
  apply bind_Ok in H as ([ps3 sm3] & Hre2 & H).
  apply bind_Ok in H as (st2 & Hres & H).
  apply bind_Ok in H as ([st3 r3] & Hfee & H).
  apply bind_Ok in H as (st4 & Hreset & H). injection H as <- <-.
  pose proof (forEachParticipation_orders _ _ _ _ _
                (setMaxFillAmounts_orders ctx) Hmax) as HO1.
  pose proof (resizeLoop_length ctx _ None _ _ _ _ _ Hre1) as HL1.
  pose proof (resizeLoop_length ctx _ (Some _) _ _ _ _ _ Hre2) as HL2.
  apply (foldM_preserves orders) in Hres;
    [|by intros; inv_run; orders_frame].
  apply (foldM_preserves orders) in Hreset;
    [|by intros; inv_run; orders_frame].
  rewrite <- HL1, <- HL2 in Hfee.
  apply (feeLoop_post ctx _ (Ring.set_participations _ r)) in Hfee as (HO3 & _).
  congruence.
Qed.

Lemma calculateRings_fills (ctx : Context) (st st' : Store)
    (rings rings' : list Ring.t) :
  calculateRings ctx st rings = Ok (st', rings') →
  length rings' = length rings ∧
  ∀ j, orders st' !! j = addFilled (batchFill rings' j) <$> orders st !! j.
Proof.
  revert st st' rings'.
  induction rings as [|r rings IH]; intros st st' rings' H; simpl in H.
  - injection H as <- <-. split; [done|]. intros j. simpl.
    destruct (orders st !! j); simpl; [|done]. by rewrite addFilled_0.
  - apply bind_Ok in H as (r1 & _ & H).
    apply bind_Ok in H as (r2 & _ & H).
    apply bind_Ok in H as ([st1 r3] & HO1%calculateFillAmountAndFee_orders & H).
    apply bind_Ok in H as (st2 & Hadj & H).
    apply bind_Ok in H as ([st3 rest] & (HL & Hrest)%IH & H).
    injection H as <- <-. split; [simpl; by rewrite HL|].
    intros j. rewrite Hrest. simpl.
    destruct (Ring.valid r3).
    + rewrite (adjustOrderStates_orders _ _ _ Hadj j), HO1.
      destruct (orders st !! j); simpl; [|done].
      by rewrite addFilled_addFilled.
    + injection Hadj as <-. rewrite HO1.
      by destruct (orders st !! j).
Qed.

(** X23. The loop of [simulateAndReport] that settles the rings one by one
    raises [filledAmountS] of every order by what the rings it found valid
    sell of that order, and changes nothing else of an order. *)
Theorem calculateRings_filled (ctx : Context) (st st' : Store)
    (rings rings' : list Ring.t) :
  calculateRings ctx st rings = Ok (st', rings') →
  length rings' = length rings ∧
  ∀ j, orders st' !! j = addFilled (batchFill rings' j) <$> orders st !! j.
Proof. apply calculateRings_fills. Qed.

Lemma revertOrderState_orders st p st' :
  revertOrderState st p = Ok st' →
  ∃ o, orders st !! Participation.order p = Some o ∧
       orders st' =
         <[Participation.order p :=
             addFilled (- (Participation.fillAmountS p + Participation.splitS p)) o]>
           (orders st).
Proof.
  unfold revertOrderState. intros H.
  apply bind_Ok in H as (st1 & Hw & H).
  apply withOrder_post in Hw as (o & Ho & Hos & _). inv_run.
  exists o. split; [done|]. rewrite Hos. unfold addFilled.
  do 2 f_equal; lia.
Qed.

Lemma revertOrderStats_orders ps st st' :
  foldM revertOrderState ps st = Ok st' →
  ∀ j, orders st' !! j = addFilled (- totalFill ps j) <$> orders st !! j.
Proof.
  revert st. induction ps as [|p ps IH]; intros st H j; simpl in H.
  - inv_run. simpl. destruct (orders st' !! j); simpl; [|done].
    by rewrite addFilled_0.
  - apply bind_Ok in H as (st1 & Hp & H).
    apply revertOrderState_orders in Hp as (o & Ho & Hos).
    rewrite (IH _ H j), Hos. simpl.
    destruct (decide (Participation.order p = j)) as [<-|Hne].
    + rewrite list_lookup_insert_eq by by apply lookup_lt_Some in Ho.
      rewrite Ho. simpl. rewrite addFilled_addFilled. do 2 f_equal; lia.
    + rewrite list_lookup_insert_ne by done.
      destruct (orders st !! j); simpl; [|done]. do 2 f_equal; lia.
Qed.

Lemma recheckRings_fills st rings st' rings' :
  recheckRings st rings = Ok (st', rings') →
  ∀ j, orders st' !! j =
       addFilled (batchFill rings' j - batchFill rings j) <$> orders st !! j.
Proof.
  revert st st' rings'.
  induction rings as [|r rings IH]; intros st st' rings' H j; simpl in H.
  - inv_run. simpl. destruct (orders st' !! j); simpl; [|done].
    by rewrite addFilled_0.
  - apply bind_Ok in H as (r1 & (v & -> & Hv)%checkOrdersValid_cleared & H).
    apply bind_Ok in H as (st1 & Hrev & H).
    apply bind_Ok in H as ([st2 rest] & Hrest & H). injection H as <- <-.
    rewrite (IH _ _ _ Hrest j). simpl.
    destruct v, (Ring.valid r) eqn:Hr; simpl in Hrev.
    + injection Hrev as <-. destruct (orders st !! j); simpl; [|done].
      do 2 f_equal; lia.
    + by specialize (Hv eq_refl).
    + rewrite (revertOrderStats_orders _ _ _ Hrev j).
      destruct (orders st !! j); simpl; [|done].
      rewrite addFilled_addFilled. do 2 f_equal; lia.
    + injection Hrev as <-. destruct (orders st !! j); simpl; [|done].
      do 2 f_equal; lia.
Qed.

Lemma addFilled_set_valid d v o :
  addFilled d (Order.set_valid v o) = Order.set_valid v (addFilled d o).
Proof. by destruct o. Qed.

Lemma set_valid_set_valid v v' o :
  Order.set_valid v (Order.set_valid v' o) = Order.set_valid v o.
Proof. by destruct o. Qed.

Lemma checkAllOrNone_flags os flag os' flag' :
  checkAllOrNone os flag = (os', flag') →
  Forall2 (λ o o', ∃ v, o' = Order.set_valid v o) os os'.
Proof.
  revert flag os' flag'. induction os as [|o os IH]; intros flag os' flag' H.
  - simpl in H. injection H as <- <-. constructor.
  - simpl in H.
    destruct (Order.allOrNone o);
      destruct (checkAllOrNone os _) as [rest fl] eqn:Hrest;
      injection H as <- <-; (constructor; [|by eapply IH]).
    + by eexists.
    + exists (Order.valid o). by destruct o.
Qed.

Lemma checkRings_fills (fuel : nat) (st st' : Store)
    (rings rings' : list Ring.t) (passes : nat) :
  checkRings fuel st rings = Some (Ok (st', rings'), passes) →
  ∀ j o, orders st !! j = Some o →
    ∃ v, orders st' !! j =
         Some (Order.set_valid v
                 (addFilled (batchFill rings' j - batchFill rings j) o)).
Proof.
  revert st rings passes.
  induction fuel as [|fuel IH]; intros st rings passes H j o Ho; [done|].
  simpl in H. destruct (checkAllOrNone (orders st) false) as [os flag] eqn:Hpass.
  apply checkAllOrNone_flags in Hpass.
  destruct (Forall2_lookup_l _ _ _ _ _ Hpass Ho) as (o1 & Ho1 & v1 & ->).
  destruct flag.
  - destruct (recheckRings _ rings) as [[st1 rings1]|e] eqn:Hre;
      [|by simplify_eq].
    pose proof (recheckRings_fills _ _ _ _ Hre j) as Hj. simpl in Hj.
    rewrite Ho1 in Hj. simpl in Hj.
    destruct (checkRings fuel st1 rings1) as [[out n]|] eqn:Hrec; [|done].
    simpl in H. simplify_eq.
    destruct (IH _ _ _ Hrec j _ Hj) as (v & ->).
    exists v. f_equal.
    rewrite !addFilled_set_valid, set_valid_set_valid, addFilled_addFilled.
    do 2 f_equal. lia.
  - simplify_eq. simpl. rewrite Ho1. exists v1. f_equal.
    rewrite Z.sub_diag, addFilled_0. done.
Qed.

(** X24. When the all-or-none loop ([checkRings]) returns, every order has
    the [filledAmountS] it had, less what the rings that the loop
    invalidated sold of it; but for that and for its [valid] flag no order
    has changed.  (After the loop that settles the rings, the filled amount
    of an order is therefore its amount on chain plus the fills of the rings
    that are still valid.) *)
Theorem checkRings_filled (fuel : nat) (st st' : Store)
    (rings rings' : list Ring.t) (passes : nat) :
  checkRings fuel st rings = Some (Ok (st', rings'), passes) →
  ∀ j o, orders st !! j = Some o →
    ∃ v, orders st' !! j =
         Some (Order.set_valid v
                 (addFilled (batchFill rings' j - batchFill rings j) o)).
Proof. apply checkRings_fills. Qed.

Lemma checkRings_filled_witness :
  Order.filledAmountS <$> orders Scenario.aon_settled.1 = [500; 500] ∧
  Order.filledAmountS <$> orders Scenario.aon_final.1 = [0; 0] ∧
  ∀ j o, orders Scenario.aon_settled.1 !! j = Some o →
    ∃ v, orders Scenario.aon_final.1 !! j =
         Some (Order.set_valid v
                 (addFilled (batchFill Scenario.aon_final.2 j
                             - batchFill Scenario.aon_settled.2 j) o)).
Proof.
  split; [vm_compute; reflexivity|]. split; [vm_compute; reflexivity|].
  apply (checkRings_filled 10 Scenario.aon_settled.1 Scenario.aon_final.1
           Scenario.aon_settled.2 Scenario.aon_final.2 3).
  vm_compute. reflexivity.
Defined.

Lemma calculateRings_filled_witness :
  length Scenario.aon_settled.2 = length [Scenario.ring01] ∧
  ∀ j, orders Scenario.aon_settled.1 !! j =
       addFilled (batchFill Scenario.aon_settled.2 j)
         <$> orders Scenario.aon_store !! j.
Proof.
  apply (calculateRings_filled Scenario.aon_chain Scenario.aon_store
           Scenario.aon_settled.1 [Scenario.ring01] Scenario.aon_settled.2).
  vm_compute. reflexivity.
Defined.

(** ** The largest fill of an order *)

(** X25. For an order with [amountS > 0], [feeAmount >= 0] and
    [filledAmountS <= amountS] whose owner can spend a non-negative amount,
    [setMaxFillAmounts] records the spendable it read and fills the order
    with no more than that and no more than what remains of [amountS];
    [fillAmountB] follows from [fillAmountS] at the rate of the order, and
    nothing else of the participation changes. *)
Theorem setMaxFillAmounts_bounds (ctx : Context) (st st' : Store)
    (p p' : Participation.t) (o : Order.t) :
  orders st !! Participation.order p = Some o →
  setMaxFillAmounts ctx st p = Ok (st', p') →
  0 < Order.amountS o →
  0 ≤ Order.feeAmount o →
  Order.filledAmountS o ≤ Order.amountS o →
  0 ≤ Participation.ringSpendableS p' →
  (∃ st1, OrderUtil.getSpendableS ctx st o =
            Ok (st1, Participation.ringSpendableS p')) ∧
  Participation.fillAmountS p' ≤ Participation.ringSpendableS p' ∧
  Participation.fillAmountS p' ≤ Order.amountS o - Order.filledAmountS o ∧
  Participation.fillAmountB p' =
    (Participation.fillAmountS p' * Order.amountB o) `quot` Order.amountS o ∧
  p' = Participation.set_fillAmountB (Participation.fillAmountB p')
         (Participation.set_fillAmountS (Participation.fillAmountS p')
            (Participation.set_ringSpendableS (Participation.ringSpendableS p') p)).
Proof.
  intros Ho H Ha Hf Hfilled Hspend. unfold setMaxFillAmounts in H.
  apply bind_Ok in H as (o' & Ho'%deref_Ok & H).
  assert (o' = o) as -> by congruence.
  apply bind_Ok in H as (? & [-> _]%bigNumber_Ok & H).
  apply bind_Ok in H as ([st1 sS] & HsS & H).
  apply bind_Ok in H as ([st2 p2] & Hlimit & H).
  apply bind_Ok in H as (? & [-> _]%bigNumber_Ok & H).
  apply bind_Ok in H as (fB & HfB & H). injection H as <- <-.
  apply dividedToIntegerBy_Ok in HfB as [_ ->].
  set (p1 := Participation.set_fillAmountS
               (Z.min sS (Order.amountS o - Order.filledAmountS o))
               (Participation.set_ringSpendableS sS p)) in *.
  assert (Hshape : p2 = Participation.set_fillAmountS
                          (Participation.fillAmountS p2)
                          (Participation.set_ringSpendableS sS p)).
  { destruct (negb (Order.P2P o) && negb (feeFromBoughtAmount o)).
    - apply bind_Ok in Hlimit as ([[st3 f] a] & _ & Hlimit).
      injection Hlimit as <- <-. by destruct p.
    - injection Hlimit as <- <-. by destruct p. }
  assert (HsS' : Participation.ringSpendableS p2 = sS) by by rewrite Hshape.
  cbn [Participation.set_fillAmountB Participation.ringSpendableS
       Participation.fillAmountS Participation.fillAmountB] in *.
  rewrite HsS' in *.
  assert (Hle : Participation.fillAmountS p2 ≤
                Z.min sS (Order.amountS o - Order.filledAmountS o)).
  { destruct (negb (Order.P2P o) && negb (feeFromBoughtAmount o)).
    - apply bind_Ok in Hlimit as ([[st3 f] a] & Hl & Hlimit).
      injection Hlimit as <- <-.
      apply limitFillByFee_le in Hl as (Hle & _); [done|done|done|].
      unfold p1. simpl. lia.
    - injection Hlimit as <- <-. unfold p1. simpl. lia. }
  split; [exists st1; exact HsS|]. split; [lia|]. split; [lia|].
  split; [reflexivity|]. by rewrite <- Hshape.
Qed.

Lemma setMaxFillAmounts_bounds_witness :
  setMaxFillAmounts Scenario.s3_chain Scenario.s3_store (Participation.init 0) =
    Ok Filling.s3_max ∧
  (∃ st1, OrderUtil.getSpendableS Scenario.s3_chain Scenario.s3_store
            Scenario.s3_order =
            Ok (st1, Participation.ringSpendableS Filling.s3_max.2)) ∧
  Participation.fillAmountS Filling.s3_max.2 ≤
    Participation.ringSpendableS Filling.s3_max.2 ∧
  Participation.fillAmountS Filling.s3_max.2 ≤
    Order.amountS Scenario.s3_order - Order.filledAmountS Scenario.s3_order ∧
  Participation.fillAmountB Filling.s3_max.2 =
    (Participation.fillAmountS Filling.s3_max.2 * Order.amountB Scenario.s3_order)
      `quot` Order.amountS Scenario.s3_order ∧
  Filling.s3_max.2 =
    Participation.set_fillAmountB (Participation.fillAmountB Filling.s3_max.2)
      (Participation.set_fillAmountS (Participation.fillAmountS Filling.s3_max.2)
         (Participation.set_ringSpendableS
            (Participation.ringSpendableS Filling.s3_max.2)
            (Participation.init 0))).
Proof.
  split; [vm_compute; reflexivity|].
  apply (setMaxFillAmounts_bounds Scenario.s3_chain Scenario.s3_store
           Filling.s3_max.1 (Participation.init 0) Filling.s3_max.2
           Scenario.s3_order).
  - reflexivity.
  - vm_compute. reflexivity.
  - vm_compute. reflexivity.
  - vm_compute. congruence.
  - vm_compute. congruence.
  - vm_compute. congruence.
Defined.

(** ** All-or-none orders at the end of the simulation *)














